(** * SeatIQ seating optimisation engine: a shallow embedding

    The engine of the repository (packages/engine/src: types.ts,
    constraints.ts, scoring.ts, optimizer.ts, explanations.ts) embedded as
    Rocq functions, with the utilities of packages/shared/src/utils.ts it
    is fed through and the scoring of the optimize route of the web
    application, followed by the properties proved about them.

    Conventions of the embedding.
    - Strings are [string]; optional fields are [option]; a JavaScript
      [Map] or [Set] is an insertion-ordered list ([mapGet]/[mapSet],
      [setAdd]), which is the order JavaScript iterates them in.
    - [tableCount], [seatsPerTable] and [maxIterations] are natural numbers
      (the event schema makes them positive integers); the random seed is
      an integer.
    - A JavaScript number is an IEEE 754 double, here a primitive [float].
      Module [Double] transcribes scoring.ts operation for operation on
      doubles; the optimizer compares, stores and prints these scores, as
      the code does.  Beside it the same formulas are written over the
      rationals ([Q], without rounding): the bounds of the scores are
      proved of this exact reading.  The state of the linear congruential
      generator is an integer whose update rounds the double product and
      sum before the 32-bit mask ([roundDouble]).
    - In-place mutation of the table array is explicit state passing: a
      table is addressed by its index in the list of tables. *)

From Stdlib Require Import Floats.
From Stdlib Require Import ZArith QArith Qminmax Qabs Qround.
From Stdlib Require Import String Ascii List Lia Lqa.
From Stdlib Require Import DecimalString DecimalNat DecimalFacts.
From stdpp Require Import base list strings relations.

Open Scope string_scope.
Open Scope list_scope.
Open Scope nat_scope.

(** ** JavaScript containers *)

Section JsContainers.
Context {K V : Type} `{EqDecision K}.

(** [Map.prototype.get] on an insertion-ordered association list. *)
Fixpoint mapGet (k : K) (m : list (K * V)) : option V :=
  match m with
  | [] => None
  | (k', v) :: m' => if decide (k = k') then Some v else mapGet k m'
  end.

(** [Map.prototype.set]: an existing key keeps its place and takes the new
    value, a new key goes last. *)
Fixpoint mapSet (k : K) (v : V) (m : list (K * V)) : list (K * V) :=
  match m with
  | [] => [(k, v)]
  | (k', v') :: m' =>
      if decide (k = k') then (k', v) :: m' else (k', v') :: mapSet k v m'
  end.

(** [Set.prototype.has] and [Set.prototype.add]. *)
Definition setHas (x : K) (s : list K) : bool := bool_decide (x ∈ s).

Definition setAdd (x : K) (s : list K) : list K :=
  if setHas x s then s else s ++ [x].

(** [new Set(array)]. *)
Definition setOfList (l : list K) : list K :=
  foldl (fun s x => setAdd x s) [] l.

(** [Array.prototype.includes]. *)
Definition includes (x : K) (l : list K) : bool := bool_decide (x ∈ l).

(** [Array.prototype.indexOf]: the first index holding [x], or [-1]. *)
Fixpoint indexOf (x : K) (l : list K) : Z :=
  match l with
  | [] => (-1)%Z
  | y :: l' =>
      if decide (x = y) then 0%Z
      else let r := indexOf x l' in if (r <? 0)%Z then (-1)%Z else (r + 1)%Z
  end.

End JsContainers.

Section JsArrays.
Context {A : Type}.

(** [Array.prototype.findIndex]-style search used for [Array.prototype.find]
    on the table array: tables are mutated through the reference [find]
    returns, so the embedding keeps the index. *)
Fixpoint findIndexFrom (p : nat -> A -> bool) (i : nat) (l : list A) : option nat :=
  match l with
  | [] => None
  | x :: l' => if p i x then Some i else findIndexFrom p (S i) l'
  end.

Definition findIndex (p : nat -> A -> bool) (l : list A) : option nat :=
  findIndexFrom p 0 l.

(** [array.splice(i, 1)] for an integer [i]: a negative start counts from
    the end ([max (length + i) 0]); a start past the end removes nothing. *)
Definition splice1 (i : Z) (l : list A) : list A :=
  let start :=
    if (i <? 0)%Z then Z.to_nat (Z.max (Z.of_nat (length l) + i) 0)
    else Z.to_nat i in
  delete start l.

(** The first successful candidate of a list, the shape of the nested
    [for] loops of the local search that stop at the first improvement. *)
Fixpoint firstSome {B : Type} (f : A -> option B) (l : list A) : option B :=
  match l with
  | [] => None
  | x :: l' => match f x with Some y => Some y | None => firstSome f l' end
  end.

End JsArrays.

(** Decimal rendering of a count in a template literal. *)
Definition showNat (n : nat) : string :=
  NilZero.string_of_uint (Nat.to_uint n).

Definition showZ (z : Z) : string :=
  NilZero.string_of_int (Z.to_int z).

(** The double quote character, for the messages that quote a name. *)
Definition dquote : string := String (ascii_of_nat 34) EmptyString.

(** [array.join(sep)]. *)
Fixpoint join (sep : string) (l : list string) : string :=
  match l with
  | [] => EmptyString
  | [x] => x
  | x :: l' => x +:+ sep +:+ join sep l'
  end.

(** Truthiness of an optional string: [undefined] and the empty string are
    falsy. *)
Definition truthy (s : option string) : bool :=
  match s with
  | Some s' => negb (bool_decide (s' = EmptyString))
  | None => false
  end.

(** ** Data model (types.ts) *)

Inductive Seniority := JUNIOR | MID | SENIOR | EXECUTIVE.
Inductive GuestType := BUYER | SELLER | NEUTRAL | CATALYST.
Inductive ConstraintType :=
  | MUST_SIT_TOGETHER
  | MUST_NOT_SIT_TOGETHER
  | MAX_SELLERS_PER_TABLE
  | MIN_BUYERS_PER_TABLE.

#[global] Instance Seniority_eq_dec : EqDecision Seniority.
Proof. solve_decision. Defined.
#[global] Instance GuestType_eq_dec : EqDecision GuestType.
Proof. solve_decision. Defined.
#[global] Instance ConstraintType_eq_dec : EqDecision ConstraintType.
Proof. solve_decision. Defined.

Record Guest := mkGuest {
  g_id : string;
  g_name : string;
  g_company : option string;
  g_department : option string;
  g_jobTitle : option string;
  g_seniority : option Seniority;
  g_guestType : GuestType;
  g_tags : option (list string);
  g_knownConnections : option (list string)
}.

Record Constraint := mkConstraint {
  c_id : string;
  c_type : ConstraintType;
  c_guestIds : list string;
  c_value : option Z;
  c_priority : option Z
}.

(** Weights and metrics with exact rational fields, for the exact reading
    of the scoring formulas; the records of doubles the code passes around
    are [Double.ObjectiveWeights] and [Double.PlanMetrics] below. *)
Record ObjectiveWeights := mkWeights {
  w_novelty : Q;
  w_diversity : Q;
  w_balance : Q;
  w_transaction : Q
}.

Record TableAssignment := mkTable {
  tableId : string;
  guestIds : list string
}.

Record SeatingPlan := mkPlan { tables : list TableAssignment }.

Record PlanMetrics := mkMetrics {
  novelty : Q;
  diversity : Q;
  balance : Q;
  transaction : Q;
  weighted : Q
}.

Inductive Impact := positive_impact | negative_impact | neutral_impact.
Inductive Objective := obj_novelty | obj_diversity | obj_balance | obj_transaction.

#[global] Instance Impact_eq_dec : EqDecision Impact.
Proof. solve_decision. Defined.

Record ReasonCode := mkReason {
  rc_code : string;
  rc_tableId : string;
  rc_guestIds : list string;
  rc_description : string;
  rc_impact : Impact;
  rc_objective : option Objective
}.

Record PlanExplanations := mkExplanations {
  perTable : list (string * list string);
  overall : string;
  reasonCodes : list ReasonCode
}.

Record OptimizationConfig := mkConfig {
  tableCount : nat;
  seatsPerTable : nat;
  maxIterations : option nat;
  seed : option Z
}.

(** ** Constraint validation (constraints.ts) *)

Record ConstraintViolation := mkViolation {
  v_constraintId : string;
  v_constraintType : string;
  v_message : string;
  v_tableId : option string;
  v_guestIds : list string
}.

Record ValidationResult := mkValidation {
  valid : bool;
  violations : list ConstraintViolation
}.

(** The three lookup maps [validateConstraints] builds first. *)
Definition buildGuestToTable (ts : list TableAssignment) : list (string * string) :=
  foldl (fun m t => foldl (fun m' gid => mapSet gid (tableId t) m') m (guestIds t))
        [] ts.

Definition buildTableToGuests (ts : list TableAssignment)
  : list (string * list string) :=
  foldl (fun m t => mapSet (tableId t) (guestIds t) m) [] ts.

Definition buildGuestMap (guests : list Guest) : list (string * Guest) :=
  foldl (fun m g => mapSet (g_id g) g m) [] guests.

Definition checkMustSitTogether (c : Constraint)
    (guestToTable : list (string * string)) : option ConstraintViolation :=
  let seen :=
    foldl (fun s gid =>
             let table := mapGet gid guestToTable in
             if truthy table then setAdd (default EmptyString table) s else s)
          [] (c_guestIds c) in
  if 1 <? length seen then
    Some {| v_constraintId := c_id c;
            v_constraintType := "MUST_SIT_TOGETHER";
            v_message := "Guests must sit together but are at "
                         +:+ showNat (length seen) +:+ " different tables";
            v_tableId := None;
            v_guestIds := c_guestIds c |}
  else None.

(** The local [tables] map of [checkMustNotSitTogether]: table id to the
    constraint's guest ids seated there, in the order they are met. *)
Definition groupByTable (gids : list string)
    (guestToTable : list (string * string)) : list (string * list string) :=
  foldl (fun m gid =>
           let table := mapGet gid guestToTable in
           if truthy table then
             let t := default EmptyString table in
             let existing := default [] (mapGet t m) in
             mapSet t (existing ++ [gid]) m
           else m)
        [] gids.

Definition checkMustNotSitTogether (c : Constraint)
    (guestToTable : list (string * string)) : option ConstraintViolation :=
  firstSome
    (fun entry : string * list string =>
       let (tid, gids) := entry in
       if 1 <? length gids then
         Some {| v_constraintId := c_id c;
                 v_constraintType := "MUST_NOT_SIT_TOGETHER";
                 v_message := "Guests must not sit together but "
                              +:+ showNat (length gids)
                              +:+ " are at the same table";
                 v_tableId := Some tid;
                 v_guestIds := gids |}
       else None)
    (groupByTable (c_guestIds c) guestToTable).

Definition hasGuestType (guestMap : list (string * Guest)) (ty : GuestType)
    (gid : string) : bool :=
  match mapGet gid guestMap with
  | Some g => bool_decide (g_guestType g = ty)
  | None => false
  end.

Definition checkMaxSellersPerTable (c : Constraint)
    (tableToGuests : list (string * list string))
    (guestMap : list (string * Guest)) : list ConstraintViolation :=
  let maxSellers := default 2%Z (c_value c) in
  foldl (fun vs (entry : string * list string) =>
           let (tid, gids) := entry in
           let sellers := List.filter (hasGuestType guestMap SELLER) gids in
           if (maxSellers <? Z.of_nat (length sellers))%Z then
             vs ++ [ {| v_constraintId := c_id c;
                        v_constraintType := "MAX_SELLERS_PER_TABLE";
                        v_message := "Table has " +:+ showNat (length sellers)
                                     +:+ " sellers, max allowed is "
                                     +:+ showZ maxSellers;
                        v_tableId := Some tid;
                        v_guestIds := sellers |} ]
           else vs)
        [] tableToGuests.

Definition checkMinBuyersPerTable (c : Constraint)
    (tableToGuests : list (string * list string))
    (guestMap : list (string * Guest)) : list ConstraintViolation :=
  let minBuyers := default 1%Z (c_value c) in
  foldl (fun vs (entry : string * list string) =>
           let (tid, gids) := entry in
           if length gids =? 0 then vs
           else
             let buyers := List.filter (hasGuestType guestMap BUYER) gids in
             if (Z.of_nat (length buyers) <? minBuyers)%Z then
               vs ++ [ {| v_constraintId := c_id c;
                          v_constraintType := "MIN_BUYERS_PER_TABLE";
                          v_message := "Table has " +:+ showNat (length buyers)
                                       +:+ " buyers, minimum required is "
                                       +:+ showZ minBuyers;
                          v_tableId := Some tid;
                          v_guestIds := buyers |} ]
             else vs)
        [] tableToGuests.

(** One turn of the [switch] in [validateConstraints]: the violations the
    constraint [c] appends. *)
Definition constraintViolations (c : Constraint)
    (guestToTable : list (string * string))
    (tableToGuests : list (string * list string))
    (guestMap : list (string * Guest)) : list ConstraintViolation :=
  match c_type c with
  | MUST_SIT_TOGETHER =>
      match checkMustSitTogether c guestToTable with
      | Some v => [v]
      | None => []
      end
  | MUST_NOT_SIT_TOGETHER =>
      match checkMustNotSitTogether c guestToTable with
      | Some v => [v]
      | None => []
      end
  | MAX_SELLERS_PER_TABLE => checkMaxSellersPerTable c tableToGuests guestMap
  | MIN_BUYERS_PER_TABLE => checkMinBuyersPerTable c tableToGuests guestMap
  end.

Definition validateConstraints (plan : SeatingPlan)
    (constraints : list Constraint) (guests : list Guest) : ValidationResult :=
  let guestToTable := buildGuestToTable (tables plan) in
  let tableToGuests := buildTableToGuests (tables plan) in
  let guestMap := buildGuestMap guests in
  let vs :=
    foldl (fun vs c => vs ++ constraintViolations c guestToTable tableToGuests guestMap)
          [] constraints in
  {| valid := length vs =? 0; violations := vs |}.

Record Feasibility := mkFeasibility {
  feasible : bool;
  reason : option string
}.

(** The [for] loop of [checkFeasibility] over the constraints: the message
    of the first oversized MUST_SIT_TOGETHER group, if any. *)
Fixpoint oversizedGroup (constraints : list Constraint) (seatsPerTable : nat)
  : option string :=
  match constraints with
  | [] => None
  | c :: rest =>
      if bool_decide (c_type c = MUST_SIT_TOGETHER)
         && (seatsPerTable <? length (c_guestIds c))
      then Some ("MUST_SIT_TOGETHER constraint has "
                 +:+ showNat (length (c_guestIds c))
                 +:+ " guests but tables only have "
                 +:+ showNat seatsPerTable +:+ " seats")
      else oversizedGroup rest seatsPerTable
  end.

Definition checkFeasibility (guests : list Guest) (constraints : list Constraint)
    (tableCount seatsPerTable : nat) : Feasibility :=
  let totalSeats := tableCount * seatsPerTable in
  if totalSeats <? length guests then
    {| feasible := false;
       reason := Some ("Not enough seats: " +:+ showNat (length guests)
                       +:+ " guests but only " +:+ showNat totalSeats
                       +:+ " seats") |}
  else
    match oversizedGroup constraints seatsPerTable with
    | Some msg => {| feasible := false; reason := Some msg |}
    | None => {| feasible := true; reason := None |}
    end.

(** ** Scoring (scoring.ts): shared parts and the exact reading *)

Definition Qnat (n : nat) : Q := inject_Z (Z.of_nat n).

(** [table.guestIds.map(id => guestMap.get(id)).filter(g => g !== undefined)] *)
Definition tableGuestsOf (guestMap : list (string * Guest)) (t : TableAssignment)
  : list Guest :=
  omap (fun gid => mapGet gid guestMap) (guestIds t).

(** [a && b && a === b] on two optional strings. *)
Definition sameTruthy (a b : option string) : bool :=
  truthy a && truthy b && bool_decide (a = b).

(** [g1.knownConnections?.includes(g2.id)] *)
Definition knows (g1 g2 : Guest) : bool :=
  match g_knownConnections g1 with
  | Some l => includes (g_id g2) l
  | None => false
  end.

Definition pairScore (g1 g2 : Guest) : Q :=
  let s0 := 1.0%Q in
  let s1 := if sameTruthy (g_company g1) (g_company g2) then (s0 - 0.4)%Q else s0 in
  let s2 := if sameTruthy (g_department g1) (g_department g2) then (s1 - 0.3)%Q else s1 in
  let s3 := if knows g1 g2 || knows g2 g1 then (s2 - 0.3)%Q else s2 in
  Qmax 0 s3.

(** The two nested loops over the pairs [i < j] of one table, threading
    [totalScore] and [totalPairs]. *)
Fixpoint scorePairs (gs : list Guest) (acc : Q * nat) : Q * nat :=
  match gs with
  | [] => acc
  | g1 :: rest =>
      scorePairs rest
        (foldl (fun (a : Q * nat) g2 => ((a.1 + pairScore g1 g2)%Q, S a.2)) acc rest)
  end.

Definition calculateNoveltyScore (plan : SeatingPlan) (guests : list Guest) : Q :=
  let guestMap := buildGuestMap guests in
  let r := foldl (fun acc t => scorePairs (tableGuestsOf guestMap t) acc)
                 (0%Q, 0) (tables plan) in
  if 0 <? r.2 then (r.1 / Qnat r.2)%Q else 1.0%Q.

(** [array.filter(Boolean)] on optional strings. *)
Definition truthyValues (l : list (option string)) : list string :=
  omap (fun o => if truthy o then o else None) l.

(** [plan.tables.filter(t => t.guestIds.length > 0)] *)
Definition tablesWithGuests (plan : SeatingPlan) : list TableAssignment :=
  List.filter (fun t => 0 <? length (guestIds t)) (tables plan).

Definition tableDiversity (tableGuests : list Guest) : Q :=
  let companies := setOfList (truthyValues (map g_company tableGuests)) in
  let departments := setOfList (truthyValues (map g_department tableGuests)) in
  let companyDiversity :=
    (Qnat (length companies) / Qnat (Nat.max 1 (length tableGuests)))%Q in
  let deptDiversity :=
    (Qnat (length departments) / Qnat (Nat.max 1 (length tableGuests)))%Q in
  ((companyDiversity + deptDiversity) / 2)%Q.

Definition calculateDiversityScore (plan : SeatingPlan) (guests : list Guest) : Q :=
  let guestMap := buildGuestMap guests in
  let totalScore :=
    foldl (fun (total : Q) t =>
             let tableGuests := tableGuestsOf guestMap t in
             if length tableGuests =? 0 then total
             else (total + tableDiversity tableGuests)%Q)
          0%Q (tables plan) in
  let n := length (tablesWithGuests plan) in
  if 0 <? n then (totalScore / Qnat n)%Q else 1.0%Q.

(** A counting map: [m.set(k, (m.get(k) || 0) + 1)]. *)
Definition countUp {K : Type} `{EqDecision K} (k : K) (m : list (K * nat))
  : list (K * nat) :=
  mapSet k (default 0 (mapGet k m) + 1) m.

Definition seniorityCountOf (tableGuests : list Guest) : list (Seniority * nat) :=
  foldl (fun m g =>
           match g_seniority g with
           | Some s => countUp s m
           | None => m
           end)
        [] tableGuests.

Definition typeCountOf (tableGuests : list Guest) : list (GuestType * nat) :=
  foldl (fun m g => countUp (g_guestType g) m) [] tableGuests.

Definition seniorityScoreOf (seniorityCount : list (Seniority * nat)) : Q :=
  if 0 <? length seniorityCount then
    let total := foldl (fun a b => a + b) 0 (map snd seniorityCount) in
    let idealPerLevel := (Qnat total / 4)%Q in
    let s :=
      foldl (fun (acc : Q) (count : nat) =>
               (acc + (1 - Qabs (Qnat count - idealPerLevel)
                           / Qmax 1 idealPerLevel))%Q)
            0%Q (map snd seniorityCount) in
    (s / Qnat (length seniorityCount))%Q
  else 0.5%Q.

Definition tableBalance (tableGuests : list Guest) : Q :=
  let seniorityScore := seniorityScoreOf (seniorityCountOf tableGuests) in
  let typeScore := if 1 <? length (typeCountOf tableGuests) then 1.0%Q else 0.5%Q in
  ((seniorityScore + typeScore) / 2)%Q.

Definition calculateBalanceScore (plan : SeatingPlan) (guests : list Guest) : Q :=
  let guestMap := buildGuestMap guests in
  let totalScore :=
    foldl (fun (total : Q) t =>
             let tableGuests := tableGuestsOf guestMap t in
             if length tableGuests =? 0 then total
             else (total + tableBalance tableGuests)%Q)
          0%Q (tables plan) in
  let n := length (tablesWithGuests plan) in
  if 0 <? n then (totalScore / Qnat n)%Q else 1.0%Q.

Definition ofType (ty : GuestType) (gs : list Guest) : list Guest :=
  List.filter (fun g => bool_decide (g_guestType g = ty)) gs.

Definition tableTransaction (tableGuests : list Guest) : Q :=
  let buyers := length (ofType BUYER tableGuests) in
  let sellers := length (ofType SELLER tableGuests) in
  let catalysts := length (ofType CATALYST tableGuests) in
  let s0 := 0%Q in
  let s1 := if (0 <? buyers) && (0 <? sellers) then (s0 + 0.4)%Q else s0 in
  let s2 := if (0 <? catalysts) && ((0 <? buyers) || (0 <? sellers))
            then (s1 + 0.2)%Q else s1 in
  let sellerCompanies := omap g_company (ofType SELLER tableGuests) in
  let uniqueSellerCompanies := setOfList sellerCompanies in
  let s3 := if length uniqueSellerCompanies <? length sellerCompanies
            then (s2 - 0.3)%Q else s2 in
  let s4 := if (0 <? sellers) && (0 <? buyers)
            then (s3 + 0.2 * (Qnat (Nat.min buyers sellers)
                              / Qnat (Nat.max buyers sellers)))%Q
            else s3 in
  let s5 := if ((0 <? sellers) && (buyers =? 0)) || ((0 <? buyers) && (sellers =? 0))
            then (s4 - 0.2)%Q else s4 in
  Qmax 0 (Qmin 1 (0.5 + s5)).

Definition calculateTransactionScore (plan : SeatingPlan) (guests : list Guest) : Q :=
  let guestMap := buildGuestMap guests in
  let totalScore :=
    foldl (fun (total : Q) t =>
             let tableGuests := tableGuestsOf guestMap t in
             if length tableGuests =? 0 then total
             else (total + tableTransaction tableGuests)%Q)
          0%Q (tables plan) in
  let n := length (tablesWithGuests plan) in
  if 0 <? n then (totalScore / Qnat n)%Q else 0.5%Q.

Definition calculateWeightedScore (n d b t : Q) (weights : ObjectiveWeights) : Q :=
  (n * w_novelty weights + d * w_diversity weights
   + b * w_balance weights + t * w_transaction weights)%Q.

Definition calculateAllMetrics (plan : SeatingPlan) (guests : list Guest)
    (weights : ObjectiveWeights) : PlanMetrics :=
  let n := calculateNoveltyScore plan guests in
  let d := calculateDiversityScore plan guests in
  let b := calculateBalanceScore plan guests in
  let t := calculateTransactionScore plan guests in
  {| novelty := n; diversity := d; balance := b; transaction := t;
     weighted := calculateWeightedScore n d b t weights |}.

(** ** Scoring on doubles (scoring.ts, as the code computes it) *)

(** A decimal literal of the source denotes the double nearest to it, and so
    does the same literal here. *)
Set Warnings "-inexact-float".

Module Double.

(** A count (an array length, the size of a [Map] or [Set]) as a number;
    counts are far below [2^53], where the conversion is exact. *)
Definition ofNat (n : nat) : float :=
  PrimFloat.of_uint63 (Uint63.of_Z (Z.of_nat n)).

Definition isNaN (x : float) : bool := negb (PrimFloat.eqb x x).

(** [Math.max] and [Math.min] of two numbers: [NaN] when either is one, and
    [+0] above [-0]. *)
Definition max (a b : float) : float :=
  if isNaN a || isNaN b then nan
  else if PrimFloat.ltb a b then b
  else if PrimFloat.ltb b a then a
  else match PrimFloat.classify a with NZero => b | _ => a end.

Definition min (a b : float) : float :=
  if isNaN a || isNaN b then nan
  else if PrimFloat.ltb a b then a
  else if PrimFloat.ltb b a then b
  else match PrimFloat.classify a with PZero => b | _ => a end.

Record ObjectiveWeights := mkWeights {
  w_novelty : float;
  w_diversity : float;
  w_balance : float;
  w_transaction : float
}.

Record PlanMetrics := mkMetrics {
  novelty : float;
  diversity : float;
  balance : float;
  transaction : float;
  weighted : float
}.

Definition pairScore (g1 g2 : Guest) : float :=
  let s0 := 1.0%float in
  let s1 := if sameTruthy (g_company g1) (g_company g2)
            then (s0 - 0.4)%float else s0 in
  let s2 := if sameTruthy (g_department g1) (g_department g2)
            then (s1 - 0.3)%float else s1 in
  let s3 := if knows g1 g2 || knows g2 g1 then (s2 - 0.3)%float else s2 in
  max 0 s3.

Fixpoint scorePairs (gs : list Guest) (acc : float * nat) : float * nat :=
  match gs with
  | [] => acc
  | g1 :: rest =>
      scorePairs rest
        (foldl (fun (a : float * nat) g2 => ((a.1 + pairScore g1 g2)%float, S a.2))
               acc rest)
  end.

Definition calculateNoveltyScore (plan : SeatingPlan) (guests : list Guest)
  : float :=
  let guestMap := buildGuestMap guests in
  let r := foldl (fun acc t => scorePairs (tableGuestsOf guestMap t) acc)
                 (0%float, 0) (tables plan) in
  if 0 <? r.2 then (r.1 / ofNat r.2)%float else 1.0%float.

Definition tableDiversity (tableGuests : list Guest) : float :=
  let companies := setOfList (truthyValues (map g_company tableGuests)) in
  let departments := setOfList (truthyValues (map g_department tableGuests)) in
  let companyDiversity :=
    (ofNat (length companies) / ofNat (Nat.max 1 (length tableGuests)))%float in
  let deptDiversity :=
    (ofNat (length departments) / ofNat (Nat.max 1 (length tableGuests)))%float in
  ((companyDiversity + deptDiversity) / 2)%float.

Definition calculateDiversityScore (plan : SeatingPlan) (guests : list Guest)
  : float :=
  let guestMap := buildGuestMap guests in
  let totalScore :=
    foldl (fun (total : float) t =>
             let tableGuests := tableGuestsOf guestMap t in
             if length tableGuests =? 0 then total
             else (total + tableDiversity tableGuests)%float)
          0%float (tables plan) in
  let n := length (tablesWithGuests plan) in
  if 0 <? n then (totalScore / ofNat n)%float else 1.0%float.

Definition seniorityScoreOf (seniorityCount : list (Seniority * nat)) : float :=
  if 0 <? length seniorityCount then
    let total := foldl (fun a b => a + b) 0 (map snd seniorityCount) in
    let idealPerLevel := (ofNat total / 4)%float in
    let s :=
      foldl (fun (acc : float) (count : nat) =>
               (acc + (1 - PrimFloat.abs (ofNat count - idealPerLevel)
                           / max 1 idealPerLevel))%float)
            0%float (map snd seniorityCount) in
    (s / ofNat (length seniorityCount))%float
  else 0.5%float.

Definition tableBalance (tableGuests : list Guest) : float :=
  let seniorityScore := seniorityScoreOf (seniorityCountOf tableGuests) in
  let typeScore :=
    if 1 <? length (typeCountOf tableGuests) then 1.0%float else 0.5%float in
  ((seniorityScore + typeScore) / 2)%float.

Definition calculateBalanceScore (plan : SeatingPlan) (guests : list Guest)
  : float :=
  let guestMap := buildGuestMap guests in
  let totalScore :=
    foldl (fun (total : float) t =>
             let tableGuests := tableGuestsOf guestMap t in
             if length tableGuests =? 0 then total
             else (total + tableBalance tableGuests)%float)
          0%float (tables plan) in
  let n := length (tablesWithGuests plan) in
  if 0 <? n then (totalScore / ofNat n)%float else 1.0%float.

Definition tableTransaction (tableGuests : list Guest) : float :=
  let buyers := length (ofType BUYER tableGuests) in
  let sellers := length (ofType SELLER tableGuests) in
  let catalysts := length (ofType CATALYST tableGuests) in
  let s0 := 0%float in
  let s1 := if (0 <? buyers) && (0 <? sellers) then (s0 + 0.4)%float else s0 in
  let s2 := if (0 <? catalysts) && ((0 <? buyers) || (0 <? sellers))
            then (s1 + 0.2)%float else s1 in
  let sellerCompanies := omap g_company (ofType SELLER tableGuests) in
  let uniqueSellerCompanies := setOfList sellerCompanies in
  let s3 := if length uniqueSellerCompanies <? length sellerCompanies
            then (s2 - 0.3)%float else s2 in
  let s4 := if (0 <? sellers) && (0 <? buyers)
            then (s3 + 0.2 * (ofNat (Nat.min buyers sellers)
                              / ofNat (Nat.max buyers sellers)))%float
            else s3 in
  let s5 := if ((0 <? sellers) && (buyers =? 0)) || ((0 <? buyers) && (sellers =? 0))
            then (s4 - 0.2)%float else s4 in
  max 0 (min 1 (0.5 + s5)%float).

Definition calculateTransactionScore (plan : SeatingPlan) (guests : list Guest)
  : float :=
  let guestMap := buildGuestMap guests in
  let totalScore :=
    foldl (fun (total : float) t =>
             let tableGuests := tableGuestsOf guestMap t in
             if length tableGuests =? 0 then total
             else (total + tableTransaction tableGuests)%float)
          0%float (tables plan) in
  let n := length (tablesWithGuests plan) in
  if 0 <? n then (totalScore / ofNat n)%float else 0.5%float.

Definition calculateWeightedScore (n d b t : float) (weights : ObjectiveWeights)
  : float :=
  (n * w_novelty weights + d * w_diversity weights
   + b * w_balance weights + t * w_transaction weights)%float.

Definition calculateAllMetrics (plan : SeatingPlan) (guests : list Guest)
    (weights : ObjectiveWeights) : PlanMetrics :=
  let n := calculateNoveltyScore plan guests in
  let d := calculateDiversityScore plan guests in
  let b := calculateBalanceScore plan guests in
  let t := calculateTransactionScore plan guests in
  {| novelty := n; diversity := d; balance := b; transaction := t;
     weighted := calculateWeightedScore n d b t weights |}.

End Double.

(** The result of [optimize] (types.ts). *)
Record OptimizationResult := mkResult {
  res_plan : SeatingPlan;
  res_metrics : Double.PlanMetrics;
  res_explanations : PlanExplanations;
  res_warnings : list string;
  res_feasible : bool;
  res_iterations : nat
}.

(** ** The seeded random source (optimizer.ts, class SeededRandom) *)

(** Rounding of an integer to the nearest IEEE double (53-bit significand,
    ties to even); [None] is an infinity.  Integers below [2^53] in
    magnitude are doubles already. *)
Definition roundDouble (x : Z) : option Z :=
  let a := Z.abs x in
  if (a <? 2 ^ 53)%Z then Some x
  else
    let e := (Z.log2 a - 52)%Z in
    let q := (a / 2 ^ e)%Z in
    let r := (a mod 2 ^ e)%Z in
    let half := (2 ^ (e - 1))%Z in
    let m := if (r <? half)%Z then q
             else if (half <? r)%Z then (q + 1)%Z
             else if Z.even q then q else (q + 1)%Z in
    let v := (m * 2 ^ e)%Z in
    if (2 ^ 1024 <=? v)%Z then None else Some (Z.sgn x * v)%Z.

(** [ToInt32], the conversion the operator [&] applies to its operand. *)
Definition toInt32 (x : Z) : Z :=
  let m := (x mod 2 ^ 32)%Z in
  if (2 ^ 31 <=? m)%Z then (m - 2 ^ 32)%Z else m.

(** The state update of [next]:
    [(seed * 1103515245 + 12345) & 0x7fffffff], the product and the sum
    each rounded to a double; an infinity converts to [0]. *)
Definition nextSeed (s : Z) : Z :=
  match roundDouble (s * 1103515245) with
  | None => 0%Z
  | Some p =>
      match roundDouble (p + 12345) with
      | None => 0%Z
      | Some y => Z.land (toInt32 y) 2147483647
      end
  end.

(** [next()]: the new state and the value returned, [seed / 0x7fffffff].
    The quotient is kept exact here.  The code rounds it to a double, and
    [shuffle], its one caller, takes the floor of the product with [i + 1],
    rounded again: the two roundings move the product by less than
    [(i + 1) * 2^-51], while an exact product that is no integer is at least
    [1 / (2^31 - 1)] away from the next one ([2^31 - 1] is prime), so for
    arrays of fewer than a million elements the floor is the one taken
    here. *)
Definition rngNext (s : Z) : Z * Q :=
  let s' := nextSeed s in (s', (s' # 2147483647)%Q).

Section Shuffle.
Context {T : Type}.

(** [[result[i], result[j]] = [result[j], result[i]]].  Both indices are
    in range wherever [shuffle] swaps (lemma [shuffleIndex_le] below), so
    the case of a missing element, where JavaScript would grow the array,
    does not arise. *)
Definition swapAt (i j : nat) (result : list T) : list T :=
  match result !! i, result !! j with
  | Some a, Some b => <[j := a]> (<[i := b]> result)
  | _, _ => result
  end.

(** [Math.floor(r * (i + 1))] *)
Definition shuffleIndex (r : Q) (i : nat) : nat :=
  Z.to_nat (Qfloor (r * Qnat (i + 1))).

(** The loop [for (i = length - 1; i > 0; i--)] of [shuffle], entered with
    the current [i]. *)
Fixpoint shuffleLoop (i : nat) (rng : Z) (result : list T) : list T * Z :=
  match i with
  | 0 => (result, rng)
  | S i' =>
      let (rng', r) := rngNext rng in
      let j := shuffleIndex r i in
      shuffleLoop i' rng' (swapAt i j result)
  end.

Definition shuffle (rng : Z) (array : list T) : list T * Z :=
  shuffleLoop (length array - 1) rng array.

End Shuffle.

(** ** Plan updates (optimizer.ts) *)

(** [tables[k].guestIds.push(gid)] *)
Definition pushGuest (k : nat) (gid : string) (ts : list TableAssignment)
  : list TableAssignment :=
  alter (fun t => {| tableId := tableId t; guestIds := guestIds t ++ [gid] |}) k ts.

(** [tables[t].guestIds[g]] *)
Definition guestAt (ts : list TableAssignment) (t g : nat) : option string :=
  match ts !! t with
  | Some tb => guestIds tb !! g
  | None => None
  end.

(** [tables[t].guestIds[g] = x] *)
Definition setGuestAt (t g : nat) (x : string) (ts : list TableAssignment)
  : list TableAssignment :=
  alter (fun tb => {| tableId := tableId tb; guestIds := <[g := x]> (guestIds tb) |}) t ts.

(** [swapGuests]: the copy of the plan with two seats exchanged.  The local
    search calls it with indices in range only. *)
Definition swapGuests (plan : SeatingPlan) (tableIndex1 guestIndex1
    tableIndex2 guestIndex2 : nat) : SeatingPlan :=
  match guestAt (tables plan) tableIndex1 guestIndex1,
        guestAt (tables plan) tableIndex2 guestIndex2 with
  | Some temp, Some other =>
      {| tables := setGuestAt tableIndex2 guestIndex2 temp
                     (setGuestAt tableIndex1 guestIndex1 other (tables plan)) |}
  | _, _ => plan
  end.

(** [moveGuest]: [splice(guestIndex, 1)] at the source table, [push] at
    the target. *)
Definition moveGuest (plan : SeatingPlan) (fromTableIndex guestIndex
    toTableIndex : nat) : SeatingPlan :=
  match guestAt (tables plan) fromTableIndex guestIndex with
  | Some guest =>
      {| tables :=
           pushGuest toTableIndex guest
             (alter (fun tb => {| tableId := tableId tb;
                                  guestIds := delete guestIndex (guestIds tb) |})
                    fromTableIndex (tables plan)) |}
  | None => plan
  end.

(** ** Greedy initial assignment (optimizer.ts, createInitialAssignment) *)

Definition emptyTables (tableCount : nat) : list TableAssignment :=
  map (fun i => {| tableId := "table_" +:+ showNat (i + 1); guestIds := [] |})
      (seq 0 tableCount).

Definition isType (ty : ConstraintType) (c : Constraint) : bool :=
  bool_decide (c_type c = ty).

(** One MUST_SIT_TOGETHER constraint: the first table with room for the
    whole group takes every member not seated yet.  The state is the table
    array and the set [assignedGuests]. *)
Definition placeGroup (seatsPerTable : nat)
    (st : list TableAssignment * list string) (c : Constraint)
  : list TableAssignment * list string :=
  let groupSize := length (c_guestIds c) in
  match findIndex (fun _ t => length (guestIds t) + groupSize <=? seatsPerTable) st.1 with
  | Some k =>
      foldl (fun (st' : list TableAssignment * list string) gid =>
               if setHas gid st'.2 then st'
               else (pushGuest k gid st'.1, setAdd gid st'.2))
            st (c_guestIds c)
  | None => st
  end.

(** The ids a guest must not sit with. *)
Definition mustNotSitWith (constraints : list Constraint) (gid : string)
  : list string :=
  flat_map (fun c => List.filter (fun x => negb (bool_decide (x = gid))) (c_guestIds c))
    (List.filter (fun c => isType MUST_NOT_SIT_TOGETHER c && includes gid (c_guestIds c))
                 constraints).

Definition hasConflict (constraints : list Constraint) (gid : string)
    (t : TableAssignment) : bool :=
  existsb (fun x => includes x (mustNotSitWith constraints gid)) (guestIds t).

(** The loop [while (attempts < tableCount)] for one guest; [fuel] is
    [tableCount - attempts].  It returns the tables, the table pointer and
    [attempts].  The pointer is below [tableCount], the number of tables,
    whenever the body runs, so [tables[tableIndex]] is defined. *)
Fixpoint scanTables (fuel : nat) (constraints : list Constraint)
    (tableCount seatsPerTable : nat) (gid : string)
    (ts : list TableAssignment) (tableIndex attempts : nat)
  : list TableAssignment * nat * nat :=
  match fuel with
  | 0 => (ts, tableIndex, attempts)
  | S fuel' =>
      match ts !! tableIndex with
      | Some table =>
          if (length (guestIds table) <? seatsPerTable)
             && negb (hasConflict constraints gid table)
          then (pushGuest tableIndex gid ts, tableIndex, attempts)
          else scanTables fuel' constraints tableCount seatsPerTable gid ts
                 ((tableIndex + 1) mod tableCount) (attempts + 1)
      | None => (ts, tableIndex, attempts)
      end
  end.

(** The body of [for (const guest of remainingGuests)]; the state is the
    table array and [tableIndex]. *)
Definition placeGuest (constraints : list Constraint)
    (tableCount seatsPerTable : nat)
    (st : list TableAssignment * nat) (gid : string)
  : list TableAssignment * nat :=
  let '(ts1, tableIndex1, attempts) :=
    scanTables tableCount constraints tableCount seatsPerTable gid st.1 st.2 0 in
  let ts2 :=
    if attempts =? tableCount then
      match findIndex (fun _ t => length (guestIds t) <? seatsPerTable) ts1 with
      | Some k => pushGuest k gid ts1
      | None => ts1
      end
    else ts1 in
  (ts2, (tableIndex1 + 1) mod tableCount).

Definition createInitialAssignment (guests : list Guest)
    (constraints : list Constraint) (tableCount seatsPerTable : nat) (rng : Z)
  : SeatingPlan * Z :=
  let tables0 := emptyTables tableCount in
  let mustSitTogether := List.filter (isType MUST_SIT_TOGETHER) constraints in
  let grouped := foldl (placeGroup seatsPerTable) (tables0, []) mustSitTogether in
  let shuffled :=
    shuffle rng (List.filter (fun g => negb (setHas (g_id g) grouped.2)) guests) in
  let placed :=
    foldl (fun st g => placeGuest constraints tableCount seatsPerTable st (g_id g))
          (grouped.1, 0) shuffled.1 in
  ({| tables := placed.1 |}, shuffled.2).

(** ** Repair pass (optimizer.ts, repairAssignment) *)

(** [!t.guestIds.some(id => constraint.guestIds.includes(id))] *)
Definition conflictFree (c : Constraint) (t : TableAssignment) : bool :=
  negb (existsb (fun x => includes x (c_guestIds c)) (guestIds t)).

Definition guestIdsAt (ts : list TableAssignment) (ti : nat) : list string :=
  match ts !! ti with
  | Some t => guestIds t
  | None => []
  end.

(** The loop [while (conflictingGuests.length > 1)] at table [ti]; [stack]
    is [conflictingGuests] reversed, so that its head is what [pop]
    returns. *)
Fixpoint relocate (seatsPerTable : nat) (c : Constraint) (ti : nat)
    (stack : list string) (ts : list TableAssignment) : list TableAssignment :=
  match stack with
  | guestToMove :: ((_ :: _) as rest) =>
      let guestIndex := indexOf guestToMove (guestIdsAt ts ti) in
      match findIndex (fun k t => negb (k =? ti)
                                  && (length (guestIds t) <? seatsPerTable)
                                  && conflictFree c t) ts with
      | Some alt =>
          relocate seatsPerTable c ti rest
            (pushGuest alt guestToMove
               (alter (fun t => {| tableId := tableId t;
                                   guestIds := splice1 guestIndex (guestIds t) |})
                      ti ts))
      | None => relocate seatsPerTable c ti rest ts
      end
  | _ => ts
  end.

Definition repairTable (seatsPerTable : nat) (c : Constraint)
    (ts : list TableAssignment) (ti : nat) : list TableAssignment :=
  let conflictingGuests :=
    List.filter (fun x => includes x (c_guestIds c)) (guestIdsAt ts ti) in
  relocate seatsPerTable c ti (rev conflictingGuests) ts.

Definition repairAssignment (plan : SeatingPlan) (constraints : list Constraint)
    (guests : list Guest) (tableCount seatsPerTable : nat) (rng : Z)
  : SeatingPlan :=
  let mustNotSit := List.filter (isType MUST_NOT_SIT_TOGETHER) constraints in
  {| tables :=
       foldl (fun ts c =>
                foldl (repairTable seatsPerTable c) ts (seq 0 (length ts)))
             (tables plan) mustNotSit |}.

(** ** Local search (optimizer.ts, the loop of optimize) *)

(** The acceptance test shared by the swap and the move loops:
    [validation.valid] and then [newMetrics.weighted > metrics.weighted],
    a comparison of two doubles. *)
Definition tryPlan (constraints : list Constraint) (guests : list Guest)
    (weights : Double.ObjectiveWeights) (metrics : Double.PlanMetrics)
    (newPlan : SeatingPlan)
  : option (SeatingPlan * Double.PlanMetrics) :=
  if valid (validateConstraints newPlan constraints guests) then
    let newMetrics := Double.calculateAllMetrics newPlan guests weights in
    if PrimFloat.ltb (Double.weighted metrics) (Double.weighted newMetrics)
    then Some (newPlan, newMetrics) else None
  else None.

Definition trySwaps (constraints : list Constraint) (guests : list Guest)
    (weights : Double.ObjectiveWeights) (plan : SeatingPlan)
    (metrics : Double.PlanMetrics)
  : option (SeatingPlan * Double.PlanMetrics) :=
  let n := length (tables plan) in
  firstSome (fun t1 =>
    firstSome (fun t2 =>
      firstSome (fun g1 =>
        firstSome (fun g2 =>
          tryPlan constraints guests weights metrics (swapGuests plan t1 g1 t2 g2))
          (seq 0 (length (guestIdsAt (tables plan) t2))))
        (seq 0 (length (guestIdsAt (tables plan) t1))))
      (seq (t1 + 1) (n - (t1 + 1))))
    (seq 0 n).

Definition tryMoves (constraints : list Constraint) (guests : list Guest)
    (weights : Double.ObjectiveWeights) (seatsPerTable : nat)
    (plan : SeatingPlan) (metrics : Double.PlanMetrics)
  : option (SeatingPlan * Double.PlanMetrics) :=
  let n := length (tables plan) in
  firstSome (fun t1 =>
    firstSome (fun t2 =>
      if t1 =? t2 then None
      else if seatsPerTable <=? length (guestIdsAt (tables plan) t2) then None
      else
        firstSome (fun g =>
          tryPlan constraints guests weights metrics (moveGuest plan t1 g t2))
          (seq 0 (length (guestIdsAt (tables plan) t1))))
      (seq 0 n))
    (seq 0 n).

(** One turn of the [while] loop: the first improving swap, else the first
    improving move. *)
Definition searchStep (constraints : list Constraint) (guests : list Guest)
    (weights : Double.ObjectiveWeights) (seatsPerTable : nat)
    (plan : SeatingPlan) (metrics : Double.PlanMetrics)
  : option (SeatingPlan * Double.PlanMetrics) :=
  match trySwaps constraints guests weights plan metrics with
  | Some r => Some r
  | None => tryMoves constraints guests weights seatsPerTable plan metrics
  end.

(** [while (improved && iterations < maxIterations)]; [fuel] is
    [maxIterations - iterations]. *)
Fixpoint localSearch (fuel : nat) (constraints : list Constraint)
    (guests : list Guest) (weights : Double.ObjectiveWeights) (seatsPerTable : nat)
    (plan : SeatingPlan) (metrics : Double.PlanMetrics) (iterations : nat)
  : SeatingPlan * Double.PlanMetrics * nat :=
  match fuel with
  | 0 => (plan, metrics, iterations)
  | S fuel' =>
      match searchStep constraints guests weights seatsPerTable plan metrics with
      | Some (plan', metrics') =>
          localSearch fuel' constraints guests weights seatsPerTable
            plan' metrics' (iterations + 1)
      | None => (plan, metrics, iterations + 1)
      end
  end.

(** ** Explanations (explanations.ts) *)

(** The exact value of a double that is neither NaN nor an infinity. *)
Definition valueOf (x : float) : Q :=
  match Prim2SF x with
  | S754_finite s m e =>
      let v := (inject_Z (Z.pos m) * 2 ^ e)%Q in
      if s then (- v)%Q else v
  | _ => 0%Q
  end.

(** The digits of [toFixed] for [0 <= x < 10^21]: the integer [n] with
    [n / 10^digits] nearest to [x], the larger one on a tie, with the
    decimal point [digits] places from the right. *)
Definition fixedDigits (digits : nat) (x : Q) : string :=
  let n := Qfloor (x * inject_Z (10 ^ Z.of_nat digits) + (1 # 2))%Q in
  let m := showZ n in
  let k := String.length m in
  let padded := if k <=? digits
                then String.concat EmptyString (repeat "0" (digits + 1 - k)) +:+ m
                else m in
  if digits =? 0 then m
  else substring 0 (String.length padded - digits) padded +:+ "."
       +:+ substring (String.length padded - digits) digits padded.

(** The shortest decimal that reads back as the integer-valued double [v]:
    for [k = 1, 2, ...] digits, the two [k]-digit multiples of a power of
    ten around [v]; the first [k] at which one of them rounds to [v] gives
    the digits [s] and the power [p], the value being [s * 10^p].  Of two
    that round to [v] the nearer is taken, the even one on a tie. *)
Fixpoint shortestDigits (fuel k : nat) (v : Z) : Z * nat :=
  match fuel with
  | 0 => (v, 0)
  | S fuel' =>
      let p := String.length (showZ v) - k in
      let lo := (v / 10 ^ Z.of_nat p)%Z in
      let hi := (lo + 1)%Z in
      let below := (lo * 10 ^ Z.of_nat p)%Z in
      let above := (hi * 10 ^ Z.of_nat p)%Z in
      let up := if (hi =? 10 ^ Z.of_nat k)%Z then (1%Z, p + k) else (hi, p) in
      match bool_decide (roundDouble below = Some v),
            bool_decide (roundDouble above = Some v) with
      | true, true =>
          if (v - below <? above - v)%Z then (lo, p)
          else if (above - v <? v - below)%Z then up
          else if Z.even lo then (lo, p) else up
      | true, false => (lo, p)
      | false, true => up
      | false, false => shortestDigits fuel' (S k) v
      end
  end.

(** [Number::toString] of an integer-valued double [v >= 10^21]: the
    shortest digits in exponent form, [d.ddde+n]. *)
Definition exponentForm (v : Z) : string :=
  let '(s, p) := shortestDigits 17 1 v in
  let d := showZ s in
  let e := showNat (p + String.length d - 1) in
  match d with
  | String c EmptyString => d +:+ "e+" +:+ e
  | String c rest => String c EmptyString +:+ "." +:+ rest +:+ "e+" +:+ e
  | EmptyString => d
  end.

(** [x.toFixed(digits)]: [NaN] and the infinities print as such; a
    negative [x] prints [-] and then [-x]; from [10^21] on the number
    prints as [String(x)] does; below, the exact value of the double is
    rounded to [digits] decimals. *)
Definition toFixed (digits : nat) (x : float) : string :=
  match Prim2SF x with
  | S754_nan => "NaN"
  | S754_infinity s => if s then "-Infinity" else "Infinity"
  | _ =>
      let a := Qabs (valueOf x) in
      let m := if Qle_bool (inject_Z (10 ^ 21)) a then exponentForm (Qfloor a)
               else fixedDigits digits a in
      if negb (Qle_bool 0 (valueOf x)) then "-" +:+ m else m
  end.

(** [objectives.sort((a, b) => b.score - a.score)]: a later entry [x]
    sorts before an earlier entry [y] when the comparator is negative at
    [(x, y)], that is when [y.score - x.score < 0]; a comparator value of
    NaN counts as [0].  The sort is stable, so when no score is NaN this
    insertion gives the order the language prescribes.  (With a NaN score
    the comparator is not consistent and the standard leaves the order to
    the implementation; the scores [optimize] passes are quotients of
    finite sums by positive counts.) *)
Fixpoint insertDesc (x : string * float) (l : list (string * float))
  : list (string * float) :=
  match l with
  | [] => [x]
  | y :: l' =>
      if PrimFloat.ltb (y.2 - x.2) 0 then x :: y :: l' else y :: insertDesc x l'
  end.

Definition sortDesc (l : list (string * float)) : list (string * float) :=
  foldl (fun acc x => insertDesc x acc) [] l.

Definition countImpact (i : Impact) (rcs : list ReasonCode) : nat :=
  length (List.filter (fun r => bool_decide (rc_impact r = i)) rcs).

Definition generateOverallSummary (metrics : Double.PlanMetrics)
    (plan : SeatingPlan) (guests : list Guest) (rcs : list ReasonCode) : string :=
  let parts0 :=
    ["Overall optimization score: "
     +:+ toFixed 1 (Double.weighted metrics * 100)%float +:+ "%"] in
  let objectives :=
    sortDesc [("new connections", Double.novelty metrics);
              ("cross-department mixing", Double.diversity metrics);
              ("balanced conversations", Double.balance metrics);
              ("business opportunities", Double.transaction metrics)] in
  let parts1 :=
    match objectives with
    | best :: _ =>
        if PrimFloat.leb 0.7 best.2 then
          parts0 ++ ["Strong performance in " +:+ best.1 +:+ " ("
                     +:+ toFixed 0 (best.2 * 100)%float +:+ "%)"]
        else parts0
    | [] => parts0
    end in
  let positiveCount := countImpact positive_impact rcs in
  let negativeCount := countImpact negative_impact rcs in
  let parts2 :=
    if negativeCount * 2 <? positiveCount then
      parts1 ++ ["Well-balanced tables with good networking potential"]
    else if positiveCount <? negativeCount then
      parts1 ++ ["Some trade-offs were made to satisfy hard constraints"]
    else parts1 in
  let parts3 :=
    parts2 ++ [showNat (length guests) +:+ " guests across "
               +:+ showNat (length (tablesWithGuests plan)) +:+ " tables"] in
  join ". " parts3 +:+ ".".

(** The company block of the per-table analysis: COMPANY_DIVERSITY when
    more than one company is present, else SAME_COMPANY when exactly one is
    and the table seats more than two guests. *)
Definition companyReasons (t : TableAssignment) (tableGuests : list Guest)
  : list ReasonCode :=
  let companies := setOfList (truthyValues (map g_company tableGuests)) in
  if 1 <? length companies then
    [ {| rc_code := "COMPANY_DIVERSITY"; rc_tableId := tableId t;
         rc_guestIds := guestIds t;
         rc_description := "Cross-company networking: "
                           +:+ showNat (length companies)
                           +:+ " different companies represented";
         rc_impact := positive_impact; rc_objective := Some obj_diversity |} ]
  else if (length companies =? 1) && (2 <? length tableGuests) then
    [ {| rc_code := "SAME_COMPANY"; rc_tableId := tableId t;
         rc_guestIds := guestIds t;
         rc_description := "Same company table: All guests from "
                           +:+ default EmptyString (head companies);
         rc_impact := negative_impact; rc_objective := Some obj_novelty |} ]
  else [].

Definition departmentReasons (t : TableAssignment) (tableGuests : list Guest)
  : list ReasonCode :=
  let departments := setOfList (truthyValues (map g_department tableGuests)) in
  if 2 <? length departments then
    [ {| rc_code := "DEPARTMENT_DIVERSITY"; rc_tableId := tableId t;
         rc_guestIds := guestIds t;
         rc_description := "Department mix: " +:+ showNat (length departments)
                           +:+ " different departments";
         rc_impact := positive_impact; rc_objective := Some obj_diversity |} ]
  else [].

Definition seniorityReasons (t : TableAssignment) (tableGuests : list Guest)
  : list ReasonCode :=
  let seniorityLevels := setOfList (omap g_seniority tableGuests) in
  if 2 <? length seniorityLevels then
    [ {| rc_code := "SENIORITY_MIX"; rc_tableId := tableId t;
         rc_guestIds := guestIds t;
         rc_description := "Balanced seniority: "
                           +:+ showNat (length seniorityLevels)
                           +:+ " experience levels";
         rc_impact := positive_impact; rc_objective := Some obj_balance |} ]
  else [].

Definition tradeReasons (t : TableAssignment) (tableGuests : list Guest)
  : list ReasonCode :=
  let buyers := ofType BUYER tableGuests in
  let sellers := ofType SELLER tableGuests in
  let catalysts := ofType CATALYST tableGuests in
  let mix :=
    if (0 <? length buyers) && (0 <? length sellers) then
      [ {| rc_code := "BUYER_SELLER_MIX"; rc_tableId := tableId t;
           rc_guestIds := map g_id buyers ++ map g_id sellers;
           rc_description := "Business opportunity: " +:+ showNat (length buyers)
                             +:+ " buyer(s) and " +:+ showNat (length sellers)
                             +:+ " seller(s)";
           rc_impact := positive_impact; rc_objective := Some obj_transaction |} ]
    else [] in
  let catalyst :=
    if 0 <? length catalysts then
      [ {| rc_code := "CATALYST_PRESENT"; rc_tableId := tableId t;
           rc_guestIds := map g_id catalysts;
           rc_description := "Conversation catalyst: "
                             +:+ join ", " (map g_name catalysts);
           rc_impact := positive_impact; rc_objective := Some obj_balance |} ]
    else [] in
  let sellerCompanies := omap g_company sellers in
  let competing :=
    if length (setOfList sellerCompanies) <? length sellerCompanies then
      [ {| rc_code := "COMPETING_SELLERS"; rc_tableId := tableId t;
           rc_guestIds := map g_id sellers;
           rc_description := "Note: Multiple sellers from the same company";
           rc_impact := negative_impact; rc_objective := Some obj_transaction |} ]
    else [] in
  mix ++ catalyst ++ competing.

(** The neutral reason of every MUST_SIT_TOGETHER group seated whole at the
    table. *)
Definition groupedReasons (constraints : list Constraint)
    (guestMap : list (string * Guest)) (t : TableAssignment) : list ReasonCode :=
  flat_map
    (fun c =>
       if isType MUST_SIT_TOGETHER c then
         let constraintGuests :=
           List.filter (fun x => includes x (guestIds t)) (c_guestIds c) in
         if length constraintGuests =? length (c_guestIds c) then
           let guestNames :=
             join ", "
               (truthyValues
                  (map (fun x => g_name <$> mapGet x guestMap) constraintGuests)) in
           [ {| rc_code := "MUST_SIT_TOGETHER_SATISFIED"; rc_tableId := tableId t;
                rc_guestIds := constraintGuests;
                rc_description := "Grouped by request: " +:+ guestNames;
                rc_impact := neutral_impact; rc_objective := None |} ]
         else []
       else [])
    constraints.

(** The reason codes one table contributes, in the order the loop body
    pushes them; the table's explanation strings are their descriptions,
    pushed alongside. *)
Definition tableReasons (constraints : list Constraint)
    (guestMap : list (string * Guest)) (t : TableAssignment) : list ReasonCode :=
  let tableGuests := tableGuestsOf guestMap t in
  if length tableGuests =? 0 then []
  else
    companyReasons t tableGuests ++ departmentReasons t tableGuests
    ++ seniorityReasons t tableGuests ++ tradeReasons t tableGuests
    ++ groupedReasons constraints guestMap t.

Definition generateExplanations (plan : SeatingPlan) (guests : list Guest)
    (metrics : Double.PlanMetrics) (constraints : list Constraint)
  : PlanExplanations :=
  let guestMap := buildGuestMap guests in
  let st :=
    foldl (fun (st : list ReasonCode * list (string * list string)) t =>
             if length (tableGuestsOf guestMap t) =? 0 then st
             else
               let rcs := tableReasons constraints guestMap t in
               (st.1 ++ rcs, mapSet (tableId t) (map rc_description rcs) st.2))
          ([], []) (tables plan) in
  {| perTable := st.2;
     overall := generateOverallSummary metrics plan guests st.1;
     reasonCodes := st.1 |}.

(** ** The optimizer (optimizer.ts) *)

Definition collectWarnings (guests : list Guest) (plan : SeatingPlan) : list string :=
  let noCompany :=
    flat_map (fun g =>
                if negb (truthy (g_company g)) then
                  ["Guest " +:+ dquote +:+ g_name g +:+ dquote
                   +:+ " has no company specified"]
                else [])
             guests in
  let assignedGuests :=
    foldl (fun s t => foldl (fun s' gid => setAdd gid s') s (guestIds t))
          [] (tables plan) in
  let unassigned :=
    flat_map (fun g =>
                if negb (setHas (g_id g) assignedGuests) then
                  ["Guest " +:+ dquote +:+ g_name g +:+ dquote
                   +:+ " was not assigned to any table"]
                else [])
             guests in
  noCompany ++ unassigned.

Definition createInfeasibleResult (reason : string) : OptimizationResult :=
  {| res_plan := {| tables := [] |};
     res_metrics := {| Double.novelty := 0; Double.diversity := 0;
                       Double.balance := 0; Double.transaction := 0;
                       Double.weighted := 0 |};
     res_explanations :=
       {| perTable := [];
          overall := "Unable to create seating plan: " +:+ reason;
          reasonCodes := [] |};
     res_warnings := [reason];
     res_feasible := false;
     res_iterations := 0 |}.

(** The plan the local search starts from: the initial assignment,
    repaired when it does not validate. *)
Definition initialPlan (guests : list Guest) (constraints : list Constraint)
    (tableCount seatsPerTable : nat) (rng : Z) : SeatingPlan :=
  let created := createInitialAssignment guests constraints tableCount seatsPerTable rng in
  if negb (valid (validateConstraints created.1 constraints guests)) then
    repairAssignment created.1 constraints guests tableCount seatsPerTable created.2
  else created.1.

Definition optimize (guests : list Guest) (constraints : list Constraint)
    (weights : Double.ObjectiveWeights) (config : OptimizationConfig)
  : OptimizationResult :=
  let maxIter := default 1000 (maxIterations config) in
  let rng := default 42%Z (seed config) in
  let feasibility :=
    checkFeasibility guests constraints (tableCount config) (seatsPerTable config) in
  if negb (feasible feasibility) then
    createInfeasibleResult
      (if truthy (reason feasibility)
       then default EmptyString (reason feasibility)
       else "Infeasible constraints")
  else
    let plan0 :=
      initialPlan guests constraints (tableCount config) (seatsPerTable config) rng in
    let metrics0 := Double.calculateAllMetrics plan0 guests weights in
    let '(plan, metrics, iterations) :=
      localSearch maxIter constraints guests weights (seatsPerTable config)
        plan0 metrics0 0 in
    {| res_plan := plan;
       res_metrics := metrics;
       res_explanations := generateExplanations plan guests metrics constraints;
       res_warnings := collectWarnings guests plan;
       res_feasible := valid (validateConstraints plan constraints guests);
       res_iterations := iterations |}.

(** ** Vocabulary of the specification *)

(** The table id a guest id is looked up at by the validator: the entry of
    [guestToTable], when it is a non-empty string. *)
Definition seatKey (guestToTable : list (string * string)) (gid : string)
  : option string :=
  if truthy (mapGet gid guestToTable) then mapGet gid guestToTable else None.

(** The guest ids of a constraint seated at a table, in the order the
    constraint lists them. *)
Definition membersAt (c : Constraint) (t : TableAssignment) : list string :=
  List.filter (fun x => includes x (guestIds t)) (c_guestIds c).

(** A table holds more than one of a constraint's guest ids. *)
Definition holdsTwo (c : Constraint) (t : TableAssignment) : Prop :=
  exists x y, x <> y /\ x ∈ c_guestIds c /\ y ∈ c_guestIds c
              /\ x ∈ guestIds t /\ y ∈ guestIds t.

(** All guest ids seated by a list of tables, table after table. *)
Definition seated (ts : list TableAssignment) : list string :=
  concat (map guestIds ts).

(** The invariants of the data model on a plan: table ids are distinct and
    non-empty, and no guest id is seated at two tables. *)
Record planWF (plan : SeatingPlan) : Prop := {
  wf_ids : NoDup (map tableId (tables plan));
  wf_ids_nonempty : Forall (fun t => tableId t <> EmptyString) (tables plan);
  wf_one_table : forall t1 t2 g,
      t1 ∈ tables plan -> t2 ∈ tables plan ->
      g ∈ guestIds t1 -> g ∈ guestIds t2 -> t1 = t2
}.

(** The two kinds of change the local search proposes: the swap of two
    seats of two tables [t1 < t2], and the move of one guest to another
    table with a free seat. *)
Inductive searchMove (seatsPerTable : nat) (plan : SeatingPlan) : SeatingPlan -> Prop :=
  | sm_swap t1 g1 t2 g2 :
      t1 < t2 -> t2 < length (tables plan) ->
      g1 < length (guestIdsAt (tables plan) t1) ->
      g2 < length (guestIdsAt (tables plan) t2) ->
      searchMove seatsPerTable plan (swapGuests plan t1 g1 t2 g2)
  | sm_move t1 g t2 :
      t1 <> t2 -> t1 < length (tables plan) -> t2 < length (tables plan) ->
      length (guestIdsAt (tables plan) t2) < seatsPerTable ->
      g < length (guestIdsAt (tables plan) t1) ->
      searchMove seatsPerTable plan (moveGuest plan t1 g t2).

(** A change the local search accepts: a proposed swap or move whose plan
    validates and whose weighted score, as the code computes it, is
    strictly higher by the comparison of doubles. *)
Definition acceptedStep (constraints : list Constraint) (guests : list Guest)
    (weights : Double.ObjectiveWeights) (seatsPerTable : nat)
    (plan plan' : SeatingPlan) : Prop :=
  searchMove seatsPerTable plan plan'
  /\ valid (validateConstraints plan' constraints guests) = true
  /\ PrimFloat.ltb
       (Double.weighted (Double.calculateAllMetrics plan guests weights))
       (Double.weighted (Double.calculateAllMetrics plan' guests weights)) = true.

(** Every table seats at most [seatsPerTable] guests. *)
Definition capacityOK (seatsPerTable : nat) (ts : list TableAssignment) : Prop :=
  Forall (fun t => length (guestIds t) <= seatsPerTable) ts.

(** The invariant of the grouping phase of the initial assignment, on its
    state (tables, [assignedGuests]): the set holds exactly the guests
    seated, each once, and every table is within its capacity. *)
Definition groupInv (seatsPerTable : nat)
    (st : list TableAssignment * list string) : Prop :=
  NoDup st.2 /\ seated st.1 ≡ₚ st.2 /\ capacityOK seatsPerTable st.1.

(** ** Sample inputs *)

Definition sampleGuest (gid : string) (ty : GuestType) (co : option string)
    (sen : option Seniority) : Guest :=
  {| g_id := gid; g_name := "Guest " +:+ gid; g_company := co;
     g_department := None; g_jobTitle := None; g_seniority := sen;
     g_guestType := ty; g_tags := None; g_knownConnections := None |}.

Definition equalWeights : Double.ObjectiveWeights :=
  {| Double.w_novelty := 0.25; Double.w_diversity := 0.25;
     Double.w_balance := 0.25; Double.w_transaction := 0.25 |}.

(** The same weights in the exact reading. *)
Definition equalWeightsQ : ObjectiveWeights :=
  {| w_novelty := 0.25; w_diversity := 0.25; w_balance := 0.25;
     w_transaction := 0.25 |}.

(** Two buyers and two sellers of four companies, for two tables of two. *)
Definition tradeGuests : list Guest :=
  [sampleGuest "a" BUYER (Some "W") None; sampleGuest "b" BUYER (Some "X") None;
   sampleGuest "c" SELLER (Some "Y") None; sampleGuest "d" SELLER (Some "Z") None].

(** A buyer and a seller who must sit together. *)
Definition togetherConstraint : Constraint :=
  {| c_id := "c5"; c_type := MUST_SIT_TOGETHER; c_guestIds := ["a"; "c"];
     c_value := None; c_priority := None |}.

Definition twoByTwo : OptimizationConfig :=
  {| tableCount := 2; seatsPerTable := 2; maxIterations := None; seed := None |}.

(** Three guests of one seniority level and one guest type at one table. *)
Definition seniorGuests : list Guest :=
  [sampleGuest "a" BUYER None (Some SENIOR); sampleGuest "b" BUYER None (Some SENIOR);
   sampleGuest "c" BUYER None (Some SENIOR)].

Definition seniorPlan : SeatingPlan :=
  {| tables := [ {| tableId := "table_1"; guestIds := ["a"; "b"; "c"] |} ] |}.

(** Three guests who must sit together, at tables of two. *)
Definition trioConstraint : Constraint :=
  {| c_id := "c1"; c_type := MUST_SIT_TOGETHER; c_guestIds := ["a"; "b"; "c"];
     c_value := None; c_priority := None |}.

(** Two guests, one table of two, and a MUST_SIT_TOGETHER constraint that
    names two ids that are no guests. *)
Definition pairGuests : list Guest :=
  [sampleGuest "a" BUYER None None; sampleGuest "b" SELLER None None].

Definition strangersConstraint : Constraint :=
  {| c_id := "c1"; c_type := MUST_SIT_TOGETHER; c_guestIds := ["x"; "y"];
     c_value := None; c_priority := None |}.

Definition oneByTwo : OptimizationConfig :=
  {| tableCount := 1; seatsPerTable := 2; maxIterations := None; seed := None |}.

(** Two full tables, and a MUST_NOT_SIT_TOGETHER constraint that lists the
    guests of the second table first. *)
Definition crowdedPlan : SeatingPlan :=
  {| tables := [ {| tableId := "table_1"; guestIds := ["a"; "b"] |};
                 {| tableId := "table_2"; guestIds := ["c"; "d"] |} ] |}.

Definition apartConstraint : Constraint :=
  {| c_id := "c9"; c_type := MUST_NOT_SIT_TOGETHER;
     c_guestIds := ["c"; "d"; "a"; "b"]; c_value := None; c_priority := None |}.

(** A table of four: three guests of company X and one of company Y. *)
Definition companyGuests : list Guest :=
  [sampleGuest "a" NEUTRAL (Some "X") None; sampleGuest "b" NEUTRAL (Some "X") None;
   sampleGuest "c" NEUTRAL (Some "X") None; sampleGuest "d" NEUTRAL (Some "Y") None].

Definition companyPlan : SeatingPlan :=
  {| tables := [ {| tableId := "table_1"; guestIds := ["a"; "b"; "c"; "d"] |} ] |}.

(** A table of three, all of company X. *)
Definition sameCompanyGuests : list Guest :=
  [sampleGuest "a" NEUTRAL (Some "X") None; sampleGuest "b" NEUTRAL (Some "X") None;
   sampleGuest "c" NEUTRAL (Some "X") None].

(** Four guests for three tables of two, on which the search accepts a
    swap that leaves the exact weighted score where it was while the
    double the code computes rises by one unit in the last place. *)
Definition tieGuest (gid : string) (ty : GuestType) (co dep : option string)
    (sen : Seniority) : Guest :=
  {| g_id := gid; g_name := "Guest " +:+ gid; g_company := co;
     g_department := dep; g_jobTitle := None; g_seniority := Some sen;
     g_guestType := ty; g_tags := None; g_knownConnections := None |}.

Definition tieGuests : list Guest :=
  [tieGuest "g0" CATALYST None (Some "D2") EXECUTIVE;
   tieGuest "g1" CATALYST None (Some "D1") SENIOR;
   tieGuest "g2" BUYER (Some "A") None EXECUTIVE;
   tieGuest "g3" BUYER (Some "B") (Some "D2") SENIOR].

Definition threeByTwo : OptimizationConfig :=
  {| tableCount := 3; seatsPerTable := 2; maxIterations := None; seed := None |}.

Definition hasCode (code : string) (r : ReasonCode) : bool :=
  bool_decide (rc_code r = code).

(** Decidable facts about the sample inputs, settled by evaluation. *)
Ltac by_compute :=
  match goal with
  | |- ?P => apply (@bool_decide_unpack P _); vm_compute; exact I
  end.

(** ** Shared utilities (packages/shared/src/utils.ts) *)

(** [clamp]: [Math.min(Math.max(value, min), max)]. *)
Definition clamp (value min max : Q) : Q := Qmin (Qmax value min) max.

(** The double quote and the comma, as characters. *)
Definition dquoteChar : ascii := ascii_of_nat 34.
Definition commaChar : ascii := ascii_of_nat 44.

(** The loop of [parseCSVLine] over the rest of the line, with its three
    variables.  A quote inside quotes that is followed by a quote is an
    escaped quote, and the loop steps over both ([i++]).  The characters
    tested are ASCII, so whether a string is read by UTF-16 code units, as
    JavaScript does, or by bytes makes no difference to the fields. *)
Fixpoint parseCSVLoop (line : string) (result : list string) (current : string)
    (inQuotes : bool) : list string :=
  match line with
  | EmptyString => result ++ [current]
  | String char rest =>
      if bool_decide (char = dquoteChar) then
        match rest with
        | String next rest' =>
            if inQuotes && bool_decide (next = dquoteChar)
            then parseCSVLoop rest' result (current +:+ dquote) inQuotes
            else parseCSVLoop rest result current (negb inQuotes)
        | EmptyString => parseCSVLoop rest result current (negb inQuotes)
        end
      else if bool_decide (char = commaChar) && negb inQuotes then
        parseCSVLoop rest (result ++ [current]) EmptyString inQuotes
      else parseCSVLoop rest result (current +:+ String char EmptyString) inQuotes
  end.

Definition parseCSVLine (line : string) : list string :=
  parseCSVLoop line [] EmptyString false.

(** ** The optimize route of the web application
    (POST /api/events/[eventId]/optimize), which scores a plan with a
    function of its own *)

Module OptimizeRoute.




End OptimizeRoute.

(** ** Vocabulary of the properties of the shared utilities *)

(** The quoting [parseCSVLine] undoes: a field between double quotes, each
    double quote of the field doubled. *)
Fixpoint csvEscape (field : string) : string :=
  match field with
  | EmptyString => EmptyString
  | String c rest =>
      if bool_decide (c = dquoteChar)
      then String dquoteChar (String dquoteChar (csvEscape rest))
      else String c (csvEscape rest)
  end.

Definition csvQuote (field : string) : string :=
  dquote +:+ csvEscape field +:+ dquote.

(** The number of commas of a line. *)
Definition countCommas (line : string) : nat :=
  length (List.filter (fun c => bool_decide (c = commaChar))
                      (list_ascii_of_string line)).

(** Two tables of three seats, for four guests without constraints. *)
Definition openConfig : OptimizationConfig :=
  {| tableCount := 2; seatsPerTable := 3; maxIterations := None; seed := None |}.

(** The tables that seat at least one guest of a constraint. *)
Definition hostTables (c : Constraint) (plan : SeatingPlan) : list TableAssignment :=
  List.filter (fun t => existsb (fun x => includes x (c_guestIds c)) (guestIds t))
              (tables plan).

(** The guest ids of a table whose guest record has the given type; ids
    without a record have none. *)
Definition idsOfType (guests : list Guest) (ty : GuestType) (t : TableAssignment)
  : list string :=
  List.filter (hasGuestType (buildGuestMap guests) ty) (guestIds t).

(** Two tables that split a group, one with two sellers of three guests. *)
Definition splitPlan : SeatingPlan :=
  {| tables := [ {| tableId := "table_1"; guestIds := ["a"; "c"; "d"] |};
                 {| tableId := "table_2"; guestIds := ["b"] |} ] |}.

Definition pairConstraint : Constraint :=
  {| c_id := "c2"; c_type := MUST_SIT_TOGETHER; c_guestIds := ["a"; "b"];
     c_value := None; c_priority := None |}.

Definition oneSellerConstraint : Constraint :=
  {| c_id := "c3"; c_type := MAX_SELLERS_PER_TABLE; c_guestIds := [];
     c_value := Some 1%Z; c_priority := None |}.

Definition buyersConstraint : Constraint :=
  {| c_id := "c4"; c_type := MIN_BUYERS_PER_TABLE; c_guestIds := [];
     c_value := Some 2%Z; c_priority := None |}.

(** Two tables of two, all seats taken. *)
Definition fullPlan : SeatingPlan :=
  {| tables := [ {| tableId := "table_1"; guestIds := ["a"; "b"] |};
                 {| tableId := "table_2"; guestIds := ["c"; "d"] |} ] |}.

(** One constraint of each type, for the four trade guests. *)
Definition hardConstraints : list Constraint :=
  [ togetherConstraint;
    {| c_id := "c6"; c_type := MUST_NOT_SIT_TOGETHER; c_guestIds := ["a"; "b"];
       c_value := None; c_priority := None |};
    {| c_id := "c7"; c_type := MAX_SELLERS_PER_TABLE; c_guestIds := [];
       c_value := Some 1%Z; c_priority := None |};
    {| c_id := "c8"; c_type := MIN_BUYERS_PER_TABLE; c_guestIds := [];
       c_value := None; c_priority := None |} ].

(** * Properties *)

(** ** Feasibility checker *)

Lemma oversizedGroup_None constraints spt :
  oversizedGroup constraints spt = None <->
  Forall (fun c => c_type c = MUST_SIT_TOGETHER -> length (c_guestIds c) <= spt)
         constraints.
Proof.
  induction constraints as [|c rest IH]; simpl.
  - split; [constructor | reflexivity].
  - destruct (bool_decide (c_type c = MUST_SIT_TOGETHER)) eqn:Hty;
      [apply bool_decide_eq_true in Hty | apply bool_decide_eq_false in Hty];
      simpl.
    + destruct (spt <? length (c_guestIds c)) eqn:Hlen.
      * apply Nat.ltb_lt in Hlen. split; [discriminate|].
        intros Hall. apply Forall_cons in Hall as [Hc _].
        specialize (Hc Hty). lia.
      * apply Nat.ltb_ge in Hlen. rewrite IH. split.
        -- intros Hall. constructor; [intros _; exact Hlen | exact Hall].
        -- intros Hall. apply Forall_cons in Hall as [_ Hall]. exact Hall.
    + rewrite IH. split.
      * intros Hall. constructor; [intros Hc; contradiction | exact Hall].
      * intros Hall. apply Forall_cons in Hall as [_ Hall]. exact Hall.
Qed.

Lemma oversizedGroup_first pre c post spt :
  Forall (fun c' => c_type c' = MUST_SIT_TOGETHER -> length (c_guestIds c') <= spt) pre ->
  c_type c = MUST_SIT_TOGETHER ->
  spt < length (c_guestIds c) ->
  oversizedGroup (pre ++ c :: post) spt =
  Some ("MUST_SIT_TOGETHER constraint has " +:+ showNat (length (c_guestIds c))
        +:+ " guests but tables only have " +:+ showNat spt +:+ " seats").
Proof.
  intros Hpre Hty Hlen.
  induction pre as [|c0 pre IH]; simpl.
  - rewrite bool_decide_eq_true_2 by exact Hty.
    apply Nat.ltb_lt in Hlen. rewrite Hlen. reflexivity.
  - apply Forall_cons in Hpre as [Hc0 Hpre].
    destruct (bool_decide (c_type c0 = MUST_SIT_TOGETHER)) eqn:Hty0; simpl.
    + apply bool_decide_eq_true in Hty0. specialize (Hc0 Hty0).
      apply Nat.ltb_ge in Hc0. rewrite Hc0. apply IH, Hpre.
    + apply IH, Hpre.
Qed.

Lemma checkFeasibility_true guests constraints tc spt :
  feasible (checkFeasibility guests constraints tc spt) = true <->
  length guests <= tc * spt /\
  Forall (fun c => c_type c = MUST_SIT_TOGETHER -> length (c_guestIds c) <= spt)
         constraints.
Proof.
  unfold checkFeasibility. split.
  - destruct (tc * spt <? length guests) eqn:Hcap; simpl; [discriminate|].
    apply Nat.ltb_ge in Hcap.
    destruct (oversizedGroup constraints spt) eqn:Hgrp; simpl; [discriminate|].
    intros _. split; [exact Hcap | apply oversizedGroup_None, Hgrp].
  - intros [Hcap Hall]. apply Nat.ltb_ge in Hcap. rewrite Hcap.
    apply oversizedGroup_None in Hall. rewrite Hall. reflexivity.
Qed.

(** C2.  [checkFeasibility] answers feasible exactly when the guests fit
    the total number of seats and no MUST_SIT_TOGETHER group is larger
    than a table.  Capacity is tested first: when the guests do not fit,
    the reason reports the guest count and the seat count; otherwise the
    reason reports the size of the first oversized group and the table
    capacity. *)
Theorem checkFeasibility_spec (guests : list Guest) (constraints : list Constraint)
    (tc spt : nat) :
  (feasible (checkFeasibility guests constraints tc spt) = true <->
   length guests <= tc * spt /\
   Forall (fun c => c_type c = MUST_SIT_TOGETHER -> length (c_guestIds c) <= spt)
          constraints)
  /\ (tc * spt < length guests ->
      checkFeasibility guests constraints tc spt =
      {| feasible := false;
         reason := Some ("Not enough seats: " +:+ showNat (length guests)
                         +:+ " guests but only " +:+ showNat (tc * spt)
                         +:+ " seats") |})
  /\ (forall pre c post,
        length guests <= tc * spt ->
        constraints = pre ++ c :: post ->
        Forall (fun c' => c_type c' = MUST_SIT_TOGETHER ->
                          length (c_guestIds c') <= spt) pre ->
        c_type c = MUST_SIT_TOGETHER ->
        spt < length (c_guestIds c) ->
        checkFeasibility guests constraints tc spt =
        {| feasible := false;
           reason := Some ("MUST_SIT_TOGETHER constraint has "
                           +:+ showNat (length (c_guestIds c))
                           +:+ " guests but tables only have "
                           +:+ showNat spt +:+ " seats") |}).
Proof.
  split; [apply checkFeasibility_true|].
  unfold checkFeasibility. split.
  - intros Hcap. apply Nat.ltb_lt in Hcap. rewrite Hcap. reflexivity.
  - intros pre c post Hcap -> Hpre Hty Hlen.
    apply Nat.ltb_ge in Hcap. rewrite Hcap.
    rewrite (oversizedGroup_first pre c post spt Hpre Hty Hlen). reflexivity.
Qed.

Lemma oversizedGroup_nonempty constraints spt msg :
  oversizedGroup constraints spt = Some msg -> msg <> EmptyString.
Proof.
  induction constraints as [|c rest IH]; simpl; [discriminate|].
  destruct (bool_decide (c_type c = MUST_SIT_TOGETHER)
            && (spt <? length (c_guestIds c))); [|exact IH].
  intros [= <-]. discriminate.
Qed.

Lemma checkFeasibility_reason guests constraints tc spt :
  feasible (checkFeasibility guests constraints tc spt) = false ->
  exists r, reason (checkFeasibility guests constraints tc spt) = Some r
            /\ r <> EmptyString.
Proof.
  unfold checkFeasibility.
  destruct (tc * spt <? length guests); simpl.
  - intros _. eexists. split; [reflexivity | discriminate].
  - destruct (oversizedGroup constraints spt) as [msg|] eqn:Hgrp; simpl.
    + intros _. exists msg. split; [reflexivity|].
      eapply oversizedGroup_nonempty, Hgrp.
    + discriminate.
Qed.

(** ** The optimizer on an infeasible input *)

Lemma optimize_infeasible_result guests constraints weights config :
  feasible (checkFeasibility guests constraints
              (tableCount config) (seatsPerTable config)) = false ->
  exists r,
    reason (checkFeasibility guests constraints
              (tableCount config) (seatsPerTable config)) = Some r
    /\ optimize guests constraints weights config = createInfeasibleResult r.
Proof.
  intros Hinf.
  destruct (checkFeasibility_reason _ _ _ _ Hinf) as (r & Hr & Hne).
  exists r. split; [exact Hr|].
  unfold optimize. rewrite Hinf, Hr. simpl.
  rewrite bool_decide_eq_false_2 by exact Hne. reflexivity.
Qed.

(** C8.  When [checkFeasibility] reports infeasible, [optimize] returns the
    infeasible result built from the checker's reason: no tables, the five
    metrics zero, the reason as the only warning, [feasible] false and zero
    iterations.  The embedding is a total function: nothing is thrown, and
    neither the initial assignment nor the search is evaluated on this
    branch. *)
Theorem optimize_infeasible (guests : list Guest) (constraints : list Constraint)
    (weights : Double.ObjectiveWeights) (config : OptimizationConfig) :
  feasible (checkFeasibility guests constraints
              (tableCount config) (seatsPerTable config)) = false ->
  exists r,
    reason (checkFeasibility guests constraints
              (tableCount config) (seatsPerTable config)) = Some r
    /\ optimize guests constraints weights config = createInfeasibleResult r
    /\ tables (res_plan (optimize guests constraints weights config)) = []
    /\ res_metrics (optimize guests constraints weights config) =
       {| Double.novelty := 0; Double.diversity := 0; Double.balance := 0;
          Double.transaction := 0; Double.weighted := 0 |}
    /\ res_warnings (optimize guests constraints weights config) = [r]
    /\ res_feasible (optimize guests constraints weights config) = false
    /\ res_iterations (optimize guests constraints weights config) = 0.
Proof.
  intros Hinf.
  destruct (optimize_infeasible_result guests constraints weights config Hinf)
    as (r & Hr & Hopt).
  exists r. split; [exact Hr|]. rewrite Hopt. repeat split.
Qed.

(** ** JavaScript sets as insertion-ordered lists *)

Section SetFacts.
Context {K : Type} `{EqDecision K}.

Lemma elem_of_setAdd (x y : K) (s : list K) :
  y ∈ setAdd x s <-> y = x \/ y ∈ s.
Proof.
  unfold setAdd, setHas. case_bool_decide as Hx.
  - split; [auto|]. intros [->|Hy]; assumption.
  - rewrite elem_of_app, list_elem_of_singleton. tauto.
Qed.

Lemma NoDup_setAdd (x : K) (s : list K) : NoDup s -> NoDup (setAdd x s).
Proof.
  intros Hs. unfold setAdd, setHas. case_bool_decide as Hx; [exact Hs|].
  apply NoDup_app. split; [exact Hs|]. split.
  - intros y Hy Hy'. apply list_elem_of_singleton in Hy'. subst. contradiction.
  - apply NoDup_singleton.
Qed.


Lemma elem_of_foldl_setAdd (l acc : list K) (y : K) :
  y ∈ foldl (fun s x => setAdd x s) acc l <-> y ∈ acc \/ y ∈ l.
Proof.
  revert acc. induction l as [|x l IH]; intros acc; simpl.
  - rewrite elem_of_nil. tauto.
  - rewrite IH, elem_of_setAdd, elem_of_cons. tauto.
Qed.

Lemma NoDup_foldl_setAdd (l acc : list K) :
  NoDup acc -> NoDup (foldl (fun s x => setAdd x s) acc l).
Proof.
  revert acc. induction l as [|x l IH]; intros acc Hacc; simpl; [exact Hacc|].
  apply IH, NoDup_setAdd, Hacc.
Qed.


Lemma elem_of_setOfList (l : list K) (y : K) : y ∈ setOfList l <-> y ∈ l.
Proof.
  unfold setOfList. rewrite elem_of_foldl_setAdd, elem_of_nil. tauto.
Qed.

Lemma NoDup_setOfList (l : list K) : NoDup (setOfList l).
Proof. apply NoDup_foldl_setAdd, NoDup_nil_2. Qed.


(** A set built from copies of one value has that value alone. *)
Lemma setOfList_constant (l : list K) (x : K) :
  l <> [] -> Forall (fun y => y = x) l -> setOfList l = [x].
Proof.
  intros Hne Hall.
  pose proof (NoDup_setOfList l) as Hnd.
  assert (Hin : forall y, y ∈ setOfList l -> y = x).
  { intros y Hy. rewrite elem_of_setOfList in Hy.
    rewrite Forall_forall in Hall. apply Hall, Hy. }
  assert (Hx : x ∈ setOfList l).
  { apply elem_of_setOfList. destruct l as [|y l]; [contradiction|].
    apply Forall_cons in Hall as [-> _]. left. }
  destruct (setOfList l) as [|a [|b s]].
  - apply elem_of_nil in Hx. contradiction.
  - f_equal. apply Hin. left.
  - exfalso. apply NoDup_cons in Hnd as [Hnotin _]. apply Hnotin.
    rewrite (Hin a) by left. rewrite (Hin b) by (right; left). left.
Qed.

End SetFacts.

(** ** Explanation generator *)

Lemma explanations_fold_reasons constraints guestMap ts acc :
  (foldl (fun (st : list ReasonCode * list (string * list string)) t =>
            if length (tableGuestsOf guestMap t) =? 0 then st
            else
              let rcs := tableReasons constraints guestMap t in
              (st.1 ++ rcs, mapSet (tableId t) (map rc_description rcs) st.2))
         acc ts).1
  = acc.1 ++ flat_map (tableReasons constraints guestMap) ts.
Proof.
  revert acc. induction ts as [|t ts IH]; intros acc; simpl.
  - rewrite app_nil_r. reflexivity.
  - rewrite IH.
    destruct (length (tableGuestsOf guestMap t) =? 0) eqn:Hz; simpl.
    + unfold tableReasons at 2. rewrite Hz. reflexivity.
    + rewrite <- app_assoc. reflexivity.
Qed.

(** The reason codes of a plan are those of its tables, in table order. *)
Lemma generateExplanations_reasonCodes plan guests metrics constraints :
  reasonCodes (generateExplanations plan guests metrics constraints)
  = flat_map (tableReasons constraints (buildGuestMap guests)) (tables plan).
Proof.
  unfold generateExplanations. simpl.
  rewrite explanations_fold_reasons. reflexivity.
Qed.

Lemma elem_of_flat_map {A B : Type} (f : A -> list B) (l : list A) (y : B) :
  y ∈ flat_map f l <-> exists x, x ∈ l /\ y ∈ f x.
Proof.
  rewrite list_elem_of_In, in_flat_map. split.
  - intros (x & Hx & Hy). exists x. rewrite !list_elem_of_In. auto.
  - intros (x & Hx & Hy). exists x. rewrite <- !list_elem_of_In. auto.
Qed.

(** SAME_COMPANY comes from the company block only, and there only on its
    second branch. *)
Lemma tableReasons_same_company constraints guestMap t r :
  r ∈ tableReasons constraints guestMap t ->
  rc_code r = "SAME_COMPANY" ->
  let tableGuests := tableGuestsOf guestMap t in
  let companies := setOfList (truthyValues (map g_company tableGuests)) in
  length companies = 1 /\ 2 < length tableGuests
  /\ rc_tableId r = tableId t /\ rc_guestIds r = guestIds t
  /\ rc_impact r = negative_impact.
Proof.
  unfold tableReasons.
  destruct (length (tableGuestsOf guestMap t) =? 0); [intros Hr; inversion Hr|].
  rewrite !elem_of_app.
  intros [Hr|[Hr|[Hr|[Hr|Hr]]]] Hcode; simpl.
  - unfold companyReasons in Hr.
    destruct (1 <? length _) eqn:Hmany.
    + apply list_elem_of_singleton in Hr. subst r. discriminate.
    + destruct (length _ =? 1) eqn:Hone; simpl in Hr;
        [|inversion Hr].
      destruct (2 <? length _) eqn:Hbig; simpl in Hr; [|inversion Hr].
      apply list_elem_of_singleton in Hr. subst r. simpl.
      apply Nat.eqb_eq in Hone. apply Nat.ltb_lt in Hbig. auto.
  - unfold departmentReasons in Hr.
    destruct (2 <? length _); [|inversion Hr].
    apply list_elem_of_singleton in Hr. subst r. discriminate.
  - unfold seniorityReasons in Hr.
    destruct (2 <? length _); [|inversion Hr].
    apply list_elem_of_singleton in Hr. subst r. discriminate.
  - unfold tradeReasons in Hr. rewrite !elem_of_app in Hr.
    destruct Hr as [Hr|[Hr|Hr]];
      match type of Hr with
      | _ ∈ (if ?b then _ else _) => destruct b; [|inversion Hr]
      end;
      apply list_elem_of_singleton in Hr; subst r; discriminate.
  - unfold groupedReasons in Hr. apply elem_of_flat_map in Hr as (c & _ & Hr).
    destruct (isType MUST_SIT_TOGETHER c); [|inversion Hr].
    destruct (length _ =? length _); [|inversion Hr].
    apply list_elem_of_singleton in Hr. subst r. discriminate.
Qed.

(** C10 (as amended).  For a table of the plan, the generator emits the
    negative reason code SAME_COMPANY for that table exactly when the
    guests of the table that are known guest records number more than two
    and exactly one distinct non-empty company name occurs among them.  In
    particular it is emitted when at least three guests are seated and all
    of them carry the same company. *)
Theorem same_company_reason (plan : SeatingPlan) (guests : list Guest)
    (metrics : Double.PlanMetrics) (constraints : list Constraint)
    (t : TableAssignment) :
  t ∈ tables plan ->
  let tableGuests := tableGuestsOf (buildGuestMap guests) t in
  let companies := setOfList (truthyValues (map g_company tableGuests)) in
  ((exists r,
      r ∈ reasonCodes (generateExplanations plan guests metrics constraints)
      /\ rc_code r = "SAME_COMPANY" /\ rc_impact r = negative_impact
      /\ rc_tableId r = tableId t /\ rc_guestIds r = guestIds t)
   <-> length companies = 1 /\ 2 < length tableGuests)
  /\ (forall co, co <> EmptyString ->
        3 <= length tableGuests ->
        Forall (fun g => g_company g = Some co) tableGuests ->
        exists r,
          r ∈ reasonCodes (generateExplanations plan guests metrics constraints)
          /\ rc_code r = "SAME_COMPANY" /\ rc_impact r = negative_impact
          /\ rc_tableId r = tableId t).
Proof.
  intros Ht tableGuests companies.
  rewrite generateExplanations_reasonCodes.
  assert (Hemit : length companies = 1 /\ 2 < length tableGuests ->
          exists r,
            r ∈ flat_map (tableReasons constraints (buildGuestMap guests)) (tables plan)
            /\ rc_code r = "SAME_COMPANY" /\ rc_impact r = negative_impact
            /\ rc_tableId r = tableId t /\ rc_guestIds r = guestIds t).
  { intros [Hone Hbig].
    eexists. split.
    - apply elem_of_flat_map. exists t. split; [exact Ht|].
      unfold tableReasons. fold tableGuests.
      destruct (length tableGuests =? 0) eqn:Hz;
        [apply Nat.eqb_eq in Hz; lia|].
      apply elem_of_app. left. unfold companyReasons. fold companies.
      rewrite Hone. simpl.
      apply Nat.ltb_lt in Hbig. rewrite Hbig. left.
    - simpl. auto. }
  split; [split|].
  - intros (r & Hr & Hcode & Himp & Htid & Hgids).
    apply elem_of_flat_map in Hr as (t' & Ht' & Hr).
    destruct (tableReasons_same_company _ _ _ _ Hr Hcode)
      as (Hone & Hbig & Htid' & Hgids' & _).
    assert (t' = t) as ->.
    { destruct t', t. simpl in *. congruence. }
    auto.
  - exact Hemit.
  - intros co Hco Hlen Hall.
    destruct Hemit as (r & Hr & Hcode & Himp & Htid & _);
      [|exists r; auto].
    split; [|lia].
    unfold companies.
    rewrite (setOfList_constant _ co); [reflexivity| |].
    + destruct tableGuests as [|g gs]; [simpl in Hlen; lia|].
      apply Forall_cons in Hall as [Hg _]. simpl. rewrite Hg. simpl.
      rewrite bool_decide_eq_false_2 by exact Hco. simpl. discriminate.
    + clear -Hall Hco. induction Hall as [|g gs Hg _ IH]; simpl; [constructor|].
      rewrite Hg. simpl. rewrite bool_decide_eq_false_2 by exact Hco. simpl.
      constructor; [reflexivity | exact IH].
Qed.

(** ** JavaScript maps as insertion-ordered association lists *)

Section MapFacts.
Context {K V : Type} `{EqDecision K}.
Implicit Types (m : list (K * V)) (k : K) (v : V).

Lemma mapGet_cons k k' v m :
  mapGet k ((k', v) :: m) = if decide (k = k') then Some v else mapGet k m.
Proof. reflexivity. Qed.

Lemma mapSet_nil k v : mapSet k v ([] : list (K * V)) = [(k, v)].
Proof. reflexivity. Qed.

Lemma mapSet_cons k k' v v' m :
  mapSet k v ((k', v') :: m)
  = if decide (k = k') then (k', v) :: m else (k', v') :: mapSet k v m.
Proof. reflexivity. Qed.

Lemma mapGet_mapSet_eq k v m : mapGet k (mapSet k v m) = Some v.
Proof.
  induction m as [|[k' v'] m IH].
  - rewrite mapSet_nil, mapGet_cons, decide_True by reflexivity. reflexivity.
  - rewrite mapSet_cons. destruct (decide (k = k')) as [->|Hne].
    + rewrite mapGet_cons, decide_True by reflexivity. reflexivity.
    + rewrite mapGet_cons, decide_False by exact Hne. exact IH.
Qed.

Lemma mapGet_mapSet_ne k k' v m :
  k <> k' -> mapGet k' (mapSet k v m) = mapGet k' m.
Proof.
  intros Hne. induction m as [|[k0 v0] m IH].
  - rewrite mapSet_nil, mapGet_cons, decide_False by congruence. reflexivity.
  - rewrite mapSet_cons. destruct (decide (k = k0)) as [->|Hne0].
    + rewrite !mapGet_cons, !decide_False by congruence. reflexivity.
    + rewrite !mapGet_cons. destruct (decide (k' = k0)); [reflexivity | exact IH].
Qed.

Lemma mapGet_None k m : mapGet k m = None <-> k ∉ map fst m.
Proof.
  induction m as [|[k' v'] m IH].
  - split; [intros _ Hin; inversion Hin | reflexivity].
  - rewrite mapGet_cons. simpl map. rewrite not_elem_of_cons.
    destruct (decide (k = k')) as [->|Hne].
    + split; [discriminate | intros [Hk _]; contradiction].
    + rewrite IH. tauto.
Qed.

Lemma mapSet_fresh k v m : k ∉ map fst m -> mapSet k v m = m ++ [(k, v)].
Proof.
  induction m as [|[k' v'] m IH]; [reflexivity|].
  simpl map. rewrite not_elem_of_cons. intros [Hne Hnotin].
  rewrite mapSet_cons, decide_False by exact Hne.
  rewrite IH by exact Hnotin. reflexivity.
Qed.

(** On a map tabulated from its keys, [get] and [set] act on the
    tabulating function. *)
Lemma mapGet_tabulate (h : K -> V) (ks : list K) k :
  mapGet k (map (fun x => (x, h x)) ks) = if decide (k ∈ ks) then Some (h k) else None.
Proof.
  induction ks as [|x ks IH].
  - rewrite decide_False by (intros Hin; inversion Hin). reflexivity.
  - simpl map. rewrite mapGet_cons. destruct (decide (k = x)) as [->|Hne].
    + rewrite decide_True by left. reflexivity.
    + rewrite IH. destruct (decide (k ∈ ks)) as [Hin|Hnotin].
      * rewrite decide_True by (right; exact Hin). reflexivity.
      * rewrite decide_False; [reflexivity|].
        rewrite not_elem_of_cons. auto.
Qed.

Lemma mapSet_tabulate (h : K -> V) (ks : list K) k v :
  NoDup ks -> k ∈ ks ->
  mapSet k v (map (fun x => (x, h x)) ks)
  = map (fun x => (x, if decide (x = k) then v else h x)) ks.
Proof.
  induction ks as [|x ks IH]; intros Hnd Hin; [inversion Hin|].
  apply NoDup_cons in Hnd as [Hx Hnd].
  simpl map. rewrite mapSet_cons. destruct (decide (k = x)) as [->|Hne].
  - rewrite decide_True by reflexivity. f_equal.
    apply map_ext_in. intros y Hy. apply list_elem_of_In in Hy.
    rewrite decide_False; [reflexivity|]. intros ->. contradiction.
  - rewrite decide_False by congruence. f_equal.
    apply IH; [exact Hnd|]. apply elem_of_cons in Hin as [Hk|Hk]; [contradiction|exact Hk].
Qed.

Lemma map_fst_tabulate (h : K -> V) (ks : list K) :
  map fst (map (fun x => (x, h x)) ks) = ks.
Proof. rewrite map_map. simpl. apply map_id. Qed.

End MapFacts.

(** ** Constraint validator: the MUST_NOT_SIT_TOGETHER check *)

Lemma seatKey_Some gtt g k :
  seatKey gtt g = Some k <-> mapGet g gtt = Some k /\ k <> EmptyString.
Proof.
  unfold seatKey, truthy. destruct (mapGet g gtt) as [s|]; simpl.
  - case_bool_decide as Hs; simpl.
    + split; [discriminate | intros [[= ->] Hne]; contradiction].
    + split; [intros [= ->]; auto | intros [Heq _]; exact Heq].
  - split; [discriminate | intros [Heq _]; discriminate].
Qed.

Lemma setOfList_snoc {K : Type} `{EqDecision K} (l : list K) (x : K) :
  setOfList (l ++ [x]) = setAdd x (setOfList l).
Proof. unfold setOfList. rewrite foldl_app. reflexivity. Qed.

Lemma filter_nil_forall {A : Type} (p : A -> bool) (l : list A) :
  (forall x, x ∈ l -> p x = false) -> List.filter p l = [].
Proof.
  induction l as [|x l IH]; intros Hall; [reflexivity|]. simpl.
  rewrite (Hall x) by left. apply IH. intros y Hy. apply Hall. right. exact Hy.
Qed.

(** The local map of [checkMustNotSitTogether], tabulated: its keys are
    the table ids reached by the constraint's guest ids, in the order they
    are first reached; each holds the guest ids looked up at it. *)
Lemma groupByTable_tabulate gids gtt :
  groupByTable gids gtt =
  map (fun k => (k, List.filter (fun g => bool_decide (seatKey gtt g = Some k)) gids))
      (setOfList (omap (seatKey gtt) gids)).
Proof.
  induction gids as [|g l IH] using rev_ind; [reflexivity|].
  unfold groupByTable in *. rewrite foldl_app. simpl foldl. rewrite IH. clear IH.
  rewrite omap_app. simpl omap.
  set (ks := setOfList (omap (seatKey gtt) l)).
  assert (Hnd : NoDup ks) by apply NoDup_setOfList.
  destruct (seatKey gtt g) as [k|] eqn:Hkey.
  - pose proof Hkey as Hkey'. apply seatKey_Some in Hkey' as [Hget Hne].
    rewrite Hget. simpl truthy. rewrite bool_decide_eq_false_2 by exact Hne.
    simpl negb. cbv iota. simpl default at 1 2.
    rewrite setOfList_snoc. fold ks. rewrite mapGet_tabulate.
    unfold setAdd, setHas.
    destruct (decide (k ∈ ks)) as [Hin|Hnotin].
    + rewrite bool_decide_eq_true_2 by exact Hin. simpl default.
      rewrite mapSet_tabulate by assumption.
      apply map_ext. intros k'. f_equal.
      rewrite List.filter_app. simpl List.filter. rewrite Hkey.
      destruct (decide (k' = k)) as [->|Hne'].
      * rewrite bool_decide_eq_true_2 by reflexivity. reflexivity.
      * rewrite bool_decide_eq_false_2 by congruence.
        rewrite app_nil_r. reflexivity.
    + rewrite bool_decide_eq_false_2 by exact Hnotin. simpl default.
      rewrite mapSet_fresh by (rewrite map_fst_tabulate; exact Hnotin).
      rewrite map_app. simpl map. f_equal.
      * apply map_ext_in. intros k' Hk'. apply list_elem_of_In in Hk'. f_equal.
        rewrite List.filter_app. simpl List.filter. rewrite Hkey.
        rewrite bool_decide_eq_false_2; [rewrite app_nil_r; reflexivity|].
        intros [= ->]. contradiction.
      * f_equal. f_equal.
        rewrite List.filter_app. simpl List.filter. rewrite Hkey.
        rewrite bool_decide_eq_true_2 by reflexivity.
        rewrite filter_nil_forall; [reflexivity|].
        intros x Hx. apply bool_decide_eq_false_2. intros Hxk.
        apply Hnotin. unfold ks. rewrite elem_of_setOfList.
        apply list_elem_of_omap. exists x. auto.
    - unfold truthy in Hkey. unfold seatKey in Hkey.
      destruct (truthy (mapGet g gtt)) eqn:Htr.
      + destruct (mapGet g gtt); [discriminate | discriminate].
      + rewrite app_nil_r. apply map_ext. intros k'. f_equal.
        rewrite List.filter_app. simpl List.filter.
        replace (seatKey gtt g) with (@None string)
          by (unfold seatKey; rewrite Htr; reflexivity).
        rewrite bool_decide_eq_false_2 by discriminate.
        rewrite app_nil_r. reflexivity.
Qed.

Lemma firstSome_None {A B : Type} (f : A -> option B) (l : list A) :
  firstSome f l = None <-> forall x, x ∈ l -> f x = None.
Proof.
  induction l as [|x l IH]; simpl.
  - split; [intros _ y Hy; inversion Hy | reflexivity].
  - destruct (f x) eqn:Hfx.
    + split; [discriminate|]. intros Hall. rewrite <- Hfx. apply Hall. left.
    + rewrite IH. split.
      * intros Hall y Hy. apply elem_of_cons in Hy as [->|Hy]; auto.
      * intros Hall y Hy. apply Hall. right. exact Hy.
Qed.

Lemma firstSome_Some {A B : Type} (f : A -> option B) (l : list A) (y : B) :
  firstSome f l = Some y ->
  exists pre x post, l = pre ++ x :: post /\ f x = Some y
                     /\ forall z, z ∈ pre -> f z = None.
Proof.
  induction l as [|x l IH]; simpl; [discriminate|].
  destruct (f x) eqn:Hfx.
  - intros [= ->]. exists [], x, l. split; [reflexivity|]. split; [exact Hfx|].
    intros z Hz. inversion Hz.
  - intros Hy. destruct (IH Hy) as (pre & x' & post & -> & Hx' & Hpre).
    exists (x :: pre), x', post. split; [reflexivity|]. split; [exact Hx'|].
    intros z Hz. apply elem_of_cons in Hz as [->|Hz]; auto.
Qed.

Lemma foldl_app_flat_map {A B : Type} (f : A -> list B) (l : list A) (acc : list B) :
  foldl (fun vs x => vs ++ f x) acc l = acc ++ flat_map f l.
Proof.
  revert acc. induction l as [|x l IH]; intros acc; simpl.
  - rewrite app_nil_r. reflexivity.
  - rewrite IH, <- app_assoc. reflexivity.
Qed.

(** The violations of a plan are those of its constraints, in the order
    of the constraints. *)
Lemma validateConstraints_violations plan constraints guests :
  violations (validateConstraints plan constraints guests)
  = flat_map (fun c => constraintViolations c (buildGuestToTable (tables plan))
                         (buildTableToGuests (tables plan)) (buildGuestMap guests))
             constraints.
Proof. unfold validateConstraints. simpl. rewrite foldl_app_flat_map. reflexivity. Qed.

Lemma mapGet_seatGuests (g tid : string) (gids : list string)
    (m : list (string * string)) :
  mapGet g (foldl (fun m' gid => mapSet gid tid m') m gids)
  = if includes g gids then Some tid else mapGet g m.
Proof.
  revert m. induction gids as [|x gids IH]; intros m; simpl; [reflexivity|].
  rewrite IH. unfold includes.
  destruct (decide (g ∈ gids)) as [Hin|Hnotin].
  - rewrite !bool_decide_eq_true_2; [reflexivity | right; exact Hin | exact Hin].
  - rewrite (bool_decide_eq_false_2 _ Hnotin).
    destruct (decide (g = x)) as [->|Hne].
    + rewrite bool_decide_eq_true_2 by left. apply mapGet_mapSet_eq.
    + rewrite bool_decide_eq_false_2
        by (rewrite not_elem_of_cons; auto).
      apply mapGet_mapSet_ne. congruence.
Qed.

(** [guestToTable] sends a guest id to the id of some table that seats
    it, and every seated id has an entry. *)
Lemma guestToTable_sound ts g k :
  mapGet g (buildGuestToTable ts) = Some k ->
  exists t, t ∈ ts /\ g ∈ guestIds t /\ tableId t = k.
Proof.
  induction ts as [|t ts IH] using rev_ind; [discriminate|].
  unfold buildGuestToTable in *. rewrite foldl_app. simpl foldl.
  rewrite mapGet_seatGuests. unfold includes. case_bool_decide as Hin.
  - intros [= <-]. exists t. rewrite elem_of_app, list_elem_of_singleton. auto.
  - intros Hget. destruct (IH Hget) as (t' & Ht' & Hg & Hk).
    exists t'. rewrite elem_of_app. auto.
Qed.

Lemma guestToTable_complete ts g t :
  t ∈ ts -> g ∈ guestIds t ->
  exists t', t' ∈ ts /\ g ∈ guestIds t'
             /\ mapGet g (buildGuestToTable ts) = Some (tableId t').
Proof.
  induction ts as [|t0 ts IH] using rev_ind; intros Ht Hg; [inversion Ht|].
  unfold buildGuestToTable in *. rewrite foldl_app. simpl foldl.
  rewrite mapGet_seatGuests. unfold includes. case_bool_decide as Hin.
  - exists t0. rewrite elem_of_app, list_elem_of_singleton. auto.
  - apply elem_of_app in Ht as [Ht|Ht].
    + destruct (IH Ht Hg) as (t' & Ht' & Hg' & Hget).
      exists t'. rewrite elem_of_app. auto.
    + apply list_elem_of_singleton in Ht. subst t0. contradiction.
Qed.

Lemma NoDup_map_inj {A B : Type} (f : A -> B) (l : list A) (x y : A) :
  NoDup (map f l) -> x ∈ l -> y ∈ l -> f x = f y -> x = y.
Proof.
  induction l as [|a l IH]; intros Hnd Hx Hy Hxy; [inversion Hx|].
  simpl in Hnd. apply NoDup_cons in Hnd as [Ha Hnd].
  apply elem_of_cons in Hx as [->|Hx]; apply elem_of_cons in Hy as [->|Hy].
  - reflexivity.
  - exfalso. apply Ha. rewrite Hxy. apply list_elem_of_fmap_2. exact Hy.
  - exfalso. apply Ha. rewrite <- Hxy. apply list_elem_of_fmap_2. exact Hx.
  - apply IH; assumption.
Qed.

(** On a well-formed plan the validator looks a guest up at the table
    that seats it. *)
Lemma seatKey_wf plan g t :
  planWF plan -> t ∈ tables plan ->
  (seatKey (buildGuestToTable (tables plan)) g = Some (tableId t) <-> g ∈ guestIds t).
Proof.
  intros [Hids Hne Hone] Ht. rewrite seatKey_Some. split.
  - intros [Hget _]. apply guestToTable_sound in Hget as (t' & Ht' & Hg & Hk).
    assert (t' = t) as -> by (eapply NoDup_map_inj; eauto). exact Hg.
  - intros Hg. destruct (guestToTable_complete _ _ _ Ht Hg) as (t' & Ht' & Hg' & Hget).
    assert (t' = t) as -> by (eapply Hone; eauto).
    split; [exact Hget|]. rewrite Forall_forall in Hne. apply Hne, Ht.
Qed.

Lemma NoDup_bfilter {A : Type} (p : A -> bool) (l : list A) :
  NoDup l -> NoDup (List.filter p l).
Proof. rewrite !NoDup_ListNoDup. apply List.NoDup_filter. Qed.

Lemma elem_of_bfilter {A : Type} (p : A -> bool) (l : list A) (x : A) :
  x ∈ List.filter p l <-> x ∈ l /\ p x = true.
Proof. rewrite !list_elem_of_In. apply filter_In. Qed.

Lemma elem_of_membersAt c t x :
  x ∈ membersAt c t <-> x ∈ c_guestIds c /\ x ∈ guestIds t.
Proof.
  unfold membersAt, includes.
  rewrite elem_of_bfilter, bool_decide_eq_true. reflexivity.
Qed.

Lemma holdsTwo_members c t :
  NoDup (c_guestIds c) -> (holdsTwo c t <-> 1 < length (membersAt c t)).
Proof.
  intros Hnd.
  assert (Hnd' : NoDup (membersAt c t))
    by (unfold membersAt; apply NoDup_bfilter, Hnd).
  split.
  - intros (x & y & Hxy & Hx & Hy & Hxt & Hyt).
    assert (Hx' : x ∈ membersAt c t) by (apply elem_of_membersAt; auto).
    assert (Hy' : y ∈ membersAt c t) by (apply elem_of_membersAt; auto).
    destruct (membersAt c t) as [|a [|b l]]; simpl; [inversion Hx'| |lia].
    apply list_elem_of_singleton in Hx', Hy'. congruence.
  - intros Hlen.
    destruct (membersAt c t) as [|a [|b l]] eqn:Hm; simpl in Hlen; [lia|lia|].
    assert (Ha : a ∈ membersAt c t) by (rewrite Hm; left).
    assert (Hb : b ∈ membersAt c t) by (rewrite Hm; right; left).
    apply elem_of_membersAt in Ha as [Ha Hat], Hb as [Hb Hbt].
    exists a, b. repeat split; try assumption.
    intros ->. apply NoDup_cons in Hnd' as [Hnotin _]. apply Hnotin. left.
Qed.

Lemma filter_first {A : Type} (p : A -> bool) (l : list A) :
  List.filter p l <> [] ->
  exists pre x post, l = pre ++ x :: post /\ p x = true
                     /\ forall z, z ∈ pre -> p z = false.
Proof.
  induction l as [|a l IH]; simpl; [congruence|].
  destruct (p a) eqn:Hpa.
  - intros _. exists [], a, l. split; [reflexivity|]. split; [exact Hpa|].
    intros z Hz. inversion Hz.
  - intros Hne. destruct (IH Hne) as (pre & x & post & -> & Hx & Hpre).
    exists (a :: pre), x, post. split; [reflexivity|]. split; [exact Hx|].
    intros z Hz. apply elem_of_cons in Hz as [->|Hz]; auto.
Qed.

Lemma foldl_setAdd_prefix {K : Type} `{EqDecision K} (l acc : list K) :
  exists ext, foldl (fun s x => setAdd x s) acc l = acc ++ ext.
Proof.
  revert acc. induction l as [|x l IH]; intros acc; simpl.
  - exists []. rewrite app_nil_r. reflexivity.
  - destruct (IH (setAdd x acc)) as (ext & ->).
    unfold setAdd. destruct (setHas x acc).
    + exists ext. reflexivity.
    + exists (x :: ext). rewrite <- app_assoc. reflexivity.
Qed.

Lemma NoDup_split_unique {A : Type} (a a' b b' : list A) (x : A) :
  NoDup (a ++ x :: b) -> a ++ x :: b = a' ++ x :: b' -> a = a'.
Proof.
  revert a'. induction a as [|y a IH]; intros a' Hnd Heq.
  - destruct a' as [|y' a']; [reflexivity|].
    simpl in *. injection Heq as <- ->.
    apply NoDup_cons in Hnd as [Hnotin _]. exfalso. apply Hnotin.
    rewrite elem_of_app. right. left.
  - destruct a' as [|y' a'].
    + simpl in *. injection Heq as -> <-.
      apply NoDup_cons in Hnd as [Hnotin _]. exfalso. apply Hnotin.
      rewrite elem_of_app. right. left.
    + simpl in *. injection Heq as -> Heq.
      apply NoDup_cons in Hnd as [_ Hnd]. f_equal. apply IH; assumption.
Qed.

(** The table ids reached by a list of guest ids, in order of first
    reach: ids met before the first guest of table [k] come before [k]. *)
Lemma reached_before (key : string -> option string) (pre post : list string)
    (g0 k k' : string) (pk qk : list string) :
  key g0 = Some k ->
  (forall z, z ∈ pre -> key z <> Some k) ->
  setOfList (omap key (pre ++ g0 :: post)) = pk ++ k :: qk ->
  (exists g, g ∈ pre /\ key g = Some k') ->
  k' ∈ pk.
Proof.
  intros Hg0 Hpre Hks (g & Hg & Hkg).
  pose proof (NoDup_setOfList (omap key (pre ++ g0 :: post))) as Hnd.
  assert (Hk' : k' ∈ setOfList (omap key pre)).
  { apply elem_of_setOfList, list_elem_of_omap. eauto. }
  assert (Hk : k ∉ setOfList (omap key pre)).
  { rewrite elem_of_setOfList, list_elem_of_omap.
    intros (z & Hz & Hkz). exact (Hpre z Hz Hkz). }
  unfold setOfList in Hks, Hnd. rewrite omap_app, foldl_app in Hks, Hnd.
  replace (omap key (g0 :: post)) with (k :: omap key post) in Hks, Hnd
    by (simpl; rewrite Hg0; reflexivity).
  simpl foldl in Hks, Hnd.
  fold (setOfList (omap key pre)) in Hks, Hnd.
  unfold setAdd at 2 in Hks. unfold setAdd at 2 in Hnd. unfold setHas in Hks, Hnd.
  rewrite (bool_decide_eq_false_2 _ Hk) in Hks, Hnd.
  destruct (foldl_setAdd_prefix (omap key post) (setOfList (omap key pre) ++ [k]))
    as (ext & Hext).
  rewrite Hext in Hks, Hnd. rewrite <- app_assoc in Hks, Hnd. simpl in Hks, Hnd.
  rewrite <- (NoDup_split_unique _ _ _ _ _ Hnd Hks). exact Hk'.
Qed.

Section MustNotSitTogether.
Variables (plan : SeatingPlan) (c : Constraint).
Hypothesis Hwf : planWF plan.
Hypothesis Hnodup : NoDup (c_guestIds c).

Local Abbreviation gtt := (buildGuestToTable (tables plan)).
Local Abbreviation ks := (setOfList (omap (seatKey gtt) (c_guestIds c))).

Lemma group_members t :
  t ∈ tables plan ->
  List.filter (fun g => bool_decide (seatKey gtt g = Some (tableId t))) (c_guestIds c)
  = membersAt c t.
Proof.
  intros Ht. unfold membersAt. apply List.filter_ext. intros g.
  unfold includes. apply bool_decide_ext, seatKey_wf; assumption.
Qed.

Lemma reached_is_table k :
  k ∈ ks -> exists t, t ∈ tables plan /\ tableId t = k.
Proof.
  rewrite elem_of_setOfList, list_elem_of_omap.
  intros (g & _ & Hkey). apply seatKey_Some in Hkey as [Hget _].
  apply guestToTable_sound in Hget as (t & Ht & _ & Hk). eauto.
Qed.

Lemma table_is_reached t :
  t ∈ tables plan -> membersAt c t <> [] -> tableId t ∈ ks.
Proof.
  intros Ht Hne. rewrite elem_of_setOfList, list_elem_of_omap.
  destruct (membersAt c t) as [|g l] eqn:Hm; [contradiction|].
  assert (Hg : g ∈ membersAt c t) by (rewrite Hm; left).
  apply elem_of_membersAt in Hg as [Hgc Hgt].
  exists g. split; [exact Hgc|]. apply seatKey_wf; assumption.
Qed.

Lemma check_None_iff :
  checkMustNotSitTogether c gtt = None
  <-> ~ exists t, t ∈ tables plan /\ holdsTwo c t.
Proof.
  unfold checkMustNotSitTogether. rewrite groupByTable_tabulate.
  rewrite firstSome_None. split.
  - intros Hall (t & Ht & Htwo).
    apply holdsTwo_members in Htwo; [|exact Hnodup].
    assert (Hk : tableId t ∈ ks).
    { apply table_is_reached; [exact Ht|].
      destruct (membersAt c t); [simpl in Htwo; lia | discriminate]. }
    specialize (Hall (tableId t, membersAt c t)).
    rewrite <- (group_members t Ht) in Hall at 1.
    specialize (Hall (list_elem_of_fmap_2 _ _ _ Hk)). simpl in Hall.
    apply Nat.ltb_lt in Htwo. rewrite Htwo in Hall. discriminate.
  - intros Hno [k gs] Hin.
    apply list_elem_of_fmap in Hin as (k' & [= -> ->] & Hk').
    destruct (reached_is_table _ Hk') as (t & Ht & <-).
    rewrite (group_members t Ht).
    destruct (1 <? length (membersAt c t)) eqn:Hlen; [|reflexivity].
    exfalso. apply Hno. exists t. split; [exact Ht|].
    apply holdsTwo_members; [exact Hnodup|]. apply Nat.ltb_lt, Hlen.
Qed.

Lemma check_Some v :
  checkMustNotSitTogether c gtt = Some v ->
  exists t pre g0 post,
    t ∈ tables plan /\ holdsTwo c t
    /\ v = {| v_constraintId := c_id c;
              v_constraintType := "MUST_NOT_SIT_TOGETHER";
              v_message := "Guests must not sit together but "
                           +:+ showNat (length (membersAt c t))
                           +:+ " are at the same table";
              v_tableId := Some (tableId t);
              v_guestIds := membersAt c t |}
    /\ c_guestIds c = pre ++ g0 :: post /\ g0 ∈ guestIds t
    /\ forall g t', g ∈ pre -> t' ∈ tables plan -> g ∈ guestIds t' -> ~ holdsTwo c t'.
Proof.
  unfold checkMustNotSitTogether. rewrite groupByTable_tabulate.
  intros Hv. apply firstSome_Some in Hv as (pre_e & [k gs] & post_e & Hmap & Hfx & Hpre_e).
  apply map_eq_app in Hmap as (pk & qk0 & Hks & Hpk & Hq).
  destruct qk0 as [|k0 qk]; [discriminate|].
  simpl in Hq. injection Hq as <- <- Hqk. subst pre_e.
  assert (Hk0 : k0 ∈ ks) by (rewrite Hks, elem_of_app; right; left).
  destruct (reached_is_table _ Hk0) as (t & Ht & <-).
  rewrite (group_members t Ht) in Hfx.
  destruct (1 <? length (membersAt c t)) eqn:Hlen; [|discriminate].
  injection Hfx as <-. apply Nat.ltb_lt in Hlen.
  assert (Hne : List.filter (fun g => includes g (guestIds t)) (c_guestIds c) <> []).
  { fold (membersAt c t). destruct (membersAt c t); [simpl in Hlen; lia | discriminate]. }
  apply filter_first in Hne as (pre & g0 & post & Hgids & Hg0 & Hpre).
  unfold includes in Hg0. apply bool_decide_eq_true in Hg0.
  exists t, pre, g0, post. split; [exact Ht|].
  split; [apply holdsTwo_members; assumption|].
  split; [reflexivity|]. split; [exact Hgids|]. split; [exact Hg0|].
  intros g t' Hg Ht' Hgt' Htwo.
  assert (Hk' : tableId t' ∈ pk).
  { apply (reached_before (seatKey gtt) pre post g0 (tableId t) (tableId t') pk qk).
    - apply seatKey_wf; assumption.
    - intros z Hz Hkz. apply seatKey_wf in Hkz; [|assumption..].
      specialize (Hpre z Hz). unfold includes in Hpre.
      apply bool_decide_eq_false in Hpre. contradiction.
    - rewrite <- Hgids. exact Hks.
    - exists g. split; [exact Hg|]. apply seatKey_wf; assumption. }
  specialize (Hpre_e (tableId t', membersAt c t')).
  rewrite <- (group_members t' Ht') in Hpre_e at 1.
  specialize (Hpre_e (list_elem_of_fmap_2 _ _ _ Hk')). simpl in Hpre_e.
  apply holdsTwo_members in Htwo; [|exact Hnodup].
  apply Nat.ltb_lt in Htwo. rewrite Htwo in Hpre_e. discriminate.
Qed.

End MustNotSitTogether.

(** C9 (as amended).  On a plan that obeys the data model (distinct,
    non-empty table ids; no guest id at two tables) and for a
    MUST_NOT_SIT_TOGETHER constraint whose guest ids are distinct:
    [validateConstraints] collects the violations constraint by
    constraint; this constraint contributes none exactly when no table
    holds two of its guest ids; otherwise it contributes exactly one,
    naming the constraint id, one offending table and the constraint's
    guest ids seated there.  The table named is the one reached first when
    the constraint's guest ids are scanned in their listed order: every
    guest id listed before the first guest of that table sits, if at all,
    at a table that does not offend.  It need not be the first offending
    table of the plan. *)
Theorem mustNotSitTogether_validation (plan : SeatingPlan)
    (constraints : list Constraint) (guests : list Guest) (c : Constraint) :
  planWF plan ->
  NoDup (c_guestIds c) ->
  c_type c = MUST_NOT_SIT_TOGETHER ->
  let vs := constraintViolations c (buildGuestToTable (tables plan))
              (buildTableToGuests (tables plan)) (buildGuestMap guests) in
  violations (validateConstraints plan constraints guests)
  = flat_map (fun c' => constraintViolations c' (buildGuestToTable (tables plan))
                          (buildTableToGuests (tables plan)) (buildGuestMap guests))
             constraints
  /\ (vs = [] <-> ~ exists t, t ∈ tables plan /\ holdsTwo c t)
  /\ ((exists t, t ∈ tables plan /\ holdsTwo c t) ->
      exists t pre g0 post,
        t ∈ tables plan /\ holdsTwo c t
        /\ vs = [ {| v_constraintId := c_id c;
                     v_constraintType := "MUST_NOT_SIT_TOGETHER";
                     v_message := "Guests must not sit together but "
                                  +:+ showNat (length (membersAt c t))
                                  +:+ " are at the same table";
                     v_tableId := Some (tableId t);
                     v_guestIds := membersAt c t |} ]
        /\ c_guestIds c = pre ++ g0 :: post /\ g0 ∈ guestIds t
        /\ forall g t', g ∈ pre -> t' ∈ tables plan -> g ∈ guestIds t' ->
                        ~ holdsTwo c t').
Proof.
  intros Hwf Hnd Hty vs.
  split; [apply validateConstraints_violations|].
  unfold vs, constraintViolations. rewrite Hty.
  pose proof (check_None_iff plan c Hwf Hnd) as Hnone.
  pose proof (check_Some plan c Hwf Hnd) as Hsome.
  destruct (checkMustNotSitTogether c (buildGuestToTable (tables plan))) as [v|].
  - split.
    + split; [discriminate|]. intros Hno. apply Hnone in Hno. discriminate.
    + intros _. destruct (Hsome v eq_refl)
        as (t & pre & g0 & post & Ht & Htwo & -> & Hgids & Hg0 & Hfirst).
      exists t, pre, g0, post. auto 10.
  - split.
    + split; [intros _; apply Hnone; reflexivity | reflexivity].
    + intros Hex. exfalso. apply (proj1 Hnone eq_refl), Hex.
Qed.

(** ** Local search *)

Lemma firstSome_elem {A B : Type} (f : A -> option B) (l : list A) (y : B) :
  firstSome f l = Some y -> exists x, x ∈ l /\ f x = Some y.
Proof.
  intros Hy. apply firstSome_Some in Hy as (pre & x & post & -> & Hx & _).
  exists x. rewrite elem_of_app. split; [right; left | exact Hx].
Qed.

Lemma elem_of_seq_iff (start len x : nat) :
  x ∈ seq start len <-> start <= x < start + len.
Proof. rewrite list_elem_of_In. apply in_seq. Qed.

(** ** The order of doubles *)

(** The comparison [<] of doubles is transitive and implies [<=], and [<=]
    is reflexive on numbers; read off the specification of the primitive
    comparisons ([FloatAxioms]), which compares sign, exponent and
    significand. *)

Lemma compare_cont_Lt_trans (m1 m2 m3 : positive) :
  Pos.compare_cont Eq m1 m2 = Lt -> Pos.compare_cont Eq m2 m3 = Lt ->
  Pos.compare_cont Eq m1 m3 = Lt.
Proof.
  change (Pos.compare_cont Eq m1 m2) with (m1 ?= m2)%positive.
  change (Pos.compare_cont Eq m2 m3) with (m2 ?= m3)%positive.
  change (Pos.compare_cont Eq m1 m3) with (m1 ?= m3)%positive.
  rewrite !Pos.compare_lt_iff. lia.
Qed.

Lemma compare_cont_Gt_trans (m1 m2 m3 : positive) :
  Pos.compare_cont Eq m1 m2 = Gt -> Pos.compare_cont Eq m2 m3 = Gt ->
  Pos.compare_cont Eq m1 m3 = Gt.
Proof.
  change (Pos.compare_cont Eq m1 m2) with (m1 ?= m2)%positive.
  change (Pos.compare_cont Eq m2 m3) with (m2 ?= m3)%positive.
  change (Pos.compare_cont Eq m1 m3) with (m1 ?= m3)%positive.
  rewrite !Pos.compare_gt_iff. lia.
Qed.

Lemma SFltb_trans (x y z : spec_float) :
  SFltb x y = true -> SFltb y z = true -> SFltb x z = true.
Proof.
  unfold SFltb, SFcompare.
  destruct x as [sx|sx| |sx mx ex], y as [sy|sy| |sy my ey],
    z as [sz|sz| |sz mz ez];
    try destruct sx; try destruct sy; try destruct sz;
    try discriminate; try reflexivity;
    destruct (Z.compare_spec ex ey) as [E1|E1|E1],
      (Z.compare_spec ey ez) as [E2|E2|E2],
      (Z.compare_spec ex ez) as [E3|E3|E3];
    try discriminate; try reflexivity; try lia;
    destruct (Pos.compare_cont Eq mx my) eqn:C1; try discriminate;
    destruct (Pos.compare_cont Eq my mz) eqn:C2; try discriminate;
    intros _ _;
    first [ rewrite (compare_cont_Gt_trans _ _ _ C1 C2)
          | rewrite (compare_cont_Lt_trans _ _ _ C1 C2) ];
    reflexivity.
Qed.

Lemma float_ltb_trans (x y z : float) :
  PrimFloat.ltb x y = true -> PrimFloat.ltb y z = true -> PrimFloat.ltb x z = true.
Proof. rewrite !FloatAxioms.ltb_spec. apply SFltb_trans. Qed.

Lemma float_ltb_leb (x y : float) :
  PrimFloat.ltb x y = true -> PrimFloat.leb x y = true.
Proof.
  rewrite FloatAxioms.ltb_spec, FloatAxioms.leb_spec. unfold SFltb, SFleb.
  destruct (SFcompare _ _) as [[]|]; try discriminate; reflexivity.
Qed.

Lemma float_leb_refl (x : float) :
  PrimFloat.eqb x x = true -> PrimFloat.leb x x = true.
Proof.
  rewrite FloatAxioms.eqb_spec, FloatAxioms.leb_spec. unfold SFeqb, SFleb.
  destruct (SFcompare _ _) as [[]|]; try discriminate; reflexivity.
Qed.

(** ** The local search *)

Lemma tryPlan_Some constraints guests weights metrics newPlan plan' metrics' :
  tryPlan constraints guests weights metrics newPlan = Some (plan', metrics') ->
  plan' = newPlan
  /\ metrics' = Double.calculateAllMetrics newPlan guests weights
  /\ valid (validateConstraints newPlan constraints guests) = true
  /\ PrimFloat.ltb (Double.weighted metrics) (Double.weighted metrics') = true.
Proof.
  unfold tryPlan.
  destruct (valid (validateConstraints newPlan constraints guests)); [|discriminate].
  destruct (PrimFloat.ltb _ _) eqn:Hgt; [|discriminate].
  intros [= <- <-]. auto.
Qed.

Lemma trySwaps_Some constraints guests weights plan metrics plan' metrics' :
  trySwaps constraints guests weights plan metrics = Some (plan', metrics') ->
  exists t1 g1 t2 g2,
    t1 < t2 /\ t2 < length (tables plan)
    /\ g1 < length (guestIdsAt (tables plan) t1)
    /\ g2 < length (guestIdsAt (tables plan) t2)
    /\ tryPlan constraints guests weights metrics (swapGuests plan t1 g1 t2 g2)
       = Some (plan', metrics').
Proof.
  unfold trySwaps. intros H.
  apply firstSome_elem in H as (t1 & Ht1 & H).
  apply firstSome_elem in H as (t2 & Ht2 & H).
  apply firstSome_elem in H as (g1 & Hg1 & H).
  apply firstSome_elem in H as (g2 & Hg2 & H).
  apply elem_of_seq_iff in Ht1, Ht2, Hg1, Hg2.
  exists t1, g1, t2, g2. repeat split; try lia. exact H.
Qed.

Lemma tryMoves_Some constraints guests weights spt plan metrics plan' metrics' :
  tryMoves constraints guests weights spt plan metrics = Some (plan', metrics') ->
  exists t1 g t2,
    t1 <> t2 /\ t1 < length (tables plan) /\ t2 < length (tables plan)
    /\ length (guestIdsAt (tables plan) t2) < spt
    /\ g < length (guestIdsAt (tables plan) t1)
    /\ tryPlan constraints guests weights metrics (moveGuest plan t1 g t2)
       = Some (plan', metrics').
Proof.
  unfold tryMoves. intros H.
  apply firstSome_elem in H as (t1 & Ht1 & H).
  apply firstSome_elem in H as (t2 & Ht2 & H).
  destruct (t1 =? t2) eqn:Hne; [discriminate|]. apply Nat.eqb_neq in Hne.
  destruct (spt <=? _) eqn:Hroom; [discriminate|]. apply Nat.leb_gt in Hroom.
  apply firstSome_elem in H as (g & Hg & H).
  apply elem_of_seq_iff in Ht1, Ht2, Hg.
  exists t1, g, t2. repeat split; try lia. exact H.
Qed.

(** What one turn of the search loop accepts. *)
Lemma searchStep_Some constraints guests weights spt plan metrics plan' metrics' :
  searchStep constraints guests weights spt plan metrics = Some (plan', metrics') ->
  searchMove spt plan plan'
  /\ valid (validateConstraints plan' constraints guests) = true
  /\ metrics' = Double.calculateAllMetrics plan' guests weights
  /\ PrimFloat.ltb (Double.weighted metrics) (Double.weighted metrics') = true.
Proof.
  unfold searchStep.
  destruct (trySwaps constraints guests weights plan metrics) as [r|] eqn:Hswap.
  - intros [= ->]. apply trySwaps_Some in Hswap
      as (t1 & g1 & t2 & g2 & H12 & Ht2 & Hg1 & Hg2 & Htry).
    apply tryPlan_Some in Htry as (-> & -> & Hvalid & Hlt).
    split; [apply sm_swap; assumption | auto].
  - intros Hmove. apply tryMoves_Some in Hmove
      as (t1 & g & t2 & Hne & Ht1 & Ht2 & Hroom & Hg & Htry).
    apply tryPlan_Some in Htry as (-> & -> & Hvalid & Hlt).
    split; [apply sm_move; assumption | auto].
Qed.

(** The search loop returns a plan reached from its start by accepted
    steps, with the metrics computed from that plan. *)
Lemma localSearch_path fuel constraints guests weights spt plan metrics iterations :
  metrics = Double.calculateAllMetrics plan guests weights ->
  let r := localSearch fuel constraints guests weights spt plan metrics iterations in
  rtc (acceptedStep constraints guests weights spt) plan r.1.1
  /\ r.1.2 = Double.calculateAllMetrics r.1.1 guests weights.
Proof.
  revert plan metrics iterations.
  induction fuel as [|fuel IH]; intros plan metrics iterations Hm; simpl.
  - split; [apply rtc_refl | exact Hm].
  - destruct (searchStep constraints guests weights spt plan metrics)
      as [[plan' metrics']|] eqn:Hstep; simpl.
    + apply searchStep_Some in Hstep as (Hmove & Hvalid & Hm' & Hlt).
      destruct (IH plan' metrics' (iterations + 1) Hm') as [Hpath Hmetrics].
      split; [|exact Hmetrics].
      eapply rtc_l; [|exact Hpath].
      split; [exact Hmove|]. split; [exact Hvalid|].
      rewrite <- Hm, <- Hm'. exact Hlt.
    + split; [apply rtc_refl | exact Hm].
Qed.

(** Along accepted steps the score of the code rises strictly: a path
    either is empty or ends at a strictly higher double. *)
Lemma acceptedStep_rtc_lt constraints guests weights spt plan plan' :
  rtc (acceptedStep constraints guests weights spt) plan plan' ->
  plan' = plan
  \/ PrimFloat.ltb
       (Double.weighted (Double.calculateAllMetrics plan guests weights))
       (Double.weighted (Double.calculateAllMetrics plan' guests weights)) = true.
Proof.
  induction 1 as [p|p q r (_ & _ & Hlt) _ IH].
  - left. reflexivity.
  - right. destruct IH as [-> | IH]; [exact Hlt|].
    eapply float_ltb_trans; [exact Hlt | exact IH].
Qed.

(** On a feasible input [optimize] returns what the search loop returns
    from the initial plan. *)
Lemma optimize_feasible guests constraints weights config :
  feasible (checkFeasibility guests constraints
              (tableCount config) (seatsPerTable config)) = true ->
  let plan0 := initialPlan guests constraints (tableCount config)
                 (seatsPerTable config) (default 42%Z (seed config)) in
  let r := localSearch (default 1000 (maxIterations config)) constraints guests
             weights (seatsPerTable config) plan0
             (Double.calculateAllMetrics plan0 guests weights) 0 in
  res_plan (optimize guests constraints weights config) = r.1.1
  /\ res_metrics (optimize guests constraints weights config) = r.1.2
  /\ res_iterations (optimize guests constraints weights config) = r.2.
Proof.
  intros Hfeas plan0 r. unfold optimize. rewrite Hfeas. simpl negb. cbv iota.
  fold plan0. fold r. destruct r as [[p m] i]. simpl. auto.
Qed.

Lemma optimize_path guests constraints weights config :
  feasible (checkFeasibility guests constraints
              (tableCount config) (seatsPerTable config)) = true ->
  rtc (acceptedStep constraints guests weights (seatsPerTable config))
      (initialPlan guests constraints (tableCount config) (seatsPerTable config)
         (default 42%Z (seed config)))
      (res_plan (optimize guests constraints weights config))
  /\ res_metrics (optimize guests constraints weights config)
     = Double.calculateAllMetrics
         (res_plan (optimize guests constraints weights config)) guests weights.
Proof.
  intros Hfeas.
  destruct (optimize_feasible guests constraints weights config Hfeas)
    as (Hplan & Hmetrics & _).
  destruct (localSearch_path (default 1000 (maxIterations config)) constraints
              guests weights (seatsPerTable config)
              (initialPlan guests constraints (tableCount config)
                 (seatsPerTable config) (default 42%Z (seed config)))
              (Double.calculateAllMetrics
                 (initialPlan guests constraints (tableCount config)
                    (seatsPerTable config) (default 42%Z (seed config)))
                 guests weights) 0 eq_refl)
    as [Hpath Hm].
  rewrite <- Hplan in Hpath, Hm. rewrite <- Hmetrics in Hm. auto.
Qed.

(** C6.  On a feasible input the plan returned by [optimize] is reached
    from the initial (post-repair) plan by accepted steps only, each a swap
    or a move whose plan validates and whose weighted score, computed in
    doubles as the code computes it, is strictly higher by the code's own
    comparison; nothing else changes the plan, and the returned metrics are
    those of the returned plan.  Hence the weighted score returned is that
    of the initial plan, the plan being the initial one, or a strictly
    higher double; the comparison [>=] of the two holds whenever the
    initial score is a number (weights that are NaN or infinite can make it
    NaN, which compares with nothing: the initial plan is then returned). *)
Theorem optimize_monotone (guests : list Guest) (constraints : list Constraint)
    (weights : Double.ObjectiveWeights) (config : OptimizationConfig) :
  feasible (checkFeasibility guests constraints
              (tableCount config) (seatsPerTable config)) = true ->
  let result := optimize guests constraints weights config in
  let plan0 := initialPlan guests constraints (tableCount config)
                 (seatsPerTable config) (default 42%Z (seed config)) in
  let score0 := Double.weighted (Double.calculateAllMetrics plan0 guests weights) in
  rtc (acceptedStep constraints guests weights (seatsPerTable config))
      plan0 (res_plan result)
  /\ res_metrics result = Double.calculateAllMetrics (res_plan result) guests weights
  /\ (res_plan result = plan0 /\ Double.weighted (res_metrics result) = score0
      \/ PrimFloat.ltb score0 (Double.weighted (res_metrics result)) = true)
  /\ (Double.isNaN score0 = false ->
      PrimFloat.leb score0 (Double.weighted (res_metrics result)) = true)
  /\ (forall plan metrics plan' metrics',
        searchStep constraints guests weights (seatsPerTable config) plan metrics
        = Some (plan', metrics') ->
        searchMove (seatsPerTable config) plan plan'
        /\ valid (validateConstraints plan' constraints guests) = true
        /\ metrics' = Double.calculateAllMetrics plan' guests weights
        /\ PrimFloat.ltb (Double.weighted metrics) (Double.weighted metrics') = true).
Proof.
  intros Hfeas result plan0 score0.
  destruct (optimize_path guests constraints weights config Hfeas) as [Hpath Hm].
  fold result in Hpath, Hm. fold plan0 in Hpath.
  assert (Hcases : res_plan result = plan0
                   /\ Double.weighted (res_metrics result) = score0
                   \/ PrimFloat.ltb score0 (Double.weighted (res_metrics result))
                      = true).
  { rewrite Hm.
    destruct (acceptedStep_rtc_lt _ _ _ _ _ _ Hpath) as [Heq | Hlt].
    - left. rewrite Heq. split; reflexivity.
    - right. exact Hlt. }
  split; [exact Hpath|]. split; [exact Hm|]. split; [exact Hcases|]. split.
  - intros Hnum. destruct Hcases as [[_ ->] | Hlt].
    + apply float_leb_refl. unfold Double.isNaN in Hnum.
      apply negb_false_iff, Hnum.
    + apply float_ltb_leb, Hlt.
  - intros plan metrics plan' metrics'. apply searchStep_Some.
Qed.

(** ** Plan updates: seated guests and table sizes *)

Lemma seated_app ts1 ts2 : seated (ts1 ++ ts2) = seated ts1 ++ seated ts2.
Proof. unfold seated. rewrite map_app, concat_app. reflexivity. Qed.

Lemma seated_cons t ts : seated (t :: ts) = guestIds t ++ seated ts.
Proof. reflexivity. Qed.

Lemma seated_alter (f : TableAssignment -> TableAssignment) k ts t :
  ts !! k = Some t ->
  exists a b, seated ts = a ++ guestIds t ++ b
              /\ seated (alter f k ts) = a ++ guestIds (f t) ++ b.
Proof.
  revert k. induction ts as [|t0 ts IH]; intros [|k] Hk; try discriminate.
  - simpl in Hk. injection Hk as ->. exists [], (seated ts). auto.
  - simpl in Hk. destruct (IH k Hk) as (a & b & Ha & Hb).
    exists (guestIds t0 ++ a), b. split.
    + rewrite seated_cons, Ha, <- app_assoc. reflexivity.
    + change (alter f (S k) (t0 :: ts)) with (t0 :: alter f k ts).
      rewrite seated_cons, Hb, <- app_assoc. reflexivity.
Qed.

Lemma elem_of_seated ts x :
  x ∈ seated ts <-> exists t, t ∈ ts /\ x ∈ guestIds t.
Proof.
  induction ts as [|t ts IH].
  - split; [intros H; inversion H | intros (t & Ht & _); inversion Ht].
  - rewrite seated_cons, elem_of_app, IH. split.
    + intros [Hx|(t' & Ht' & Hx)].
      * exists t. split; [left | exact Hx].
      * exists t'. split; [right; exact Ht' | exact Hx].
    + intros (t' & Ht' & Hx). apply elem_of_cons in Ht' as [->|Ht'].
      * left. exact Hx.
      * right. exists t'. auto.
Qed.

(** Adding a guest at an existing table adds it to the seated guests. *)
Lemma seated_pushGuest k g ts :
  k < length ts -> seated (pushGuest k g ts) ≡ₚ g :: seated ts.
Proof.
  intros Hk. destruct (lookup_lt_is_Some_2 ts k Hk) as [t Ht].
  unfold pushGuest.
  destruct (seated_alter
              (fun t => {| tableId := tableId t; guestIds := guestIds t ++ [g] |})
              k ts t Ht) as (a & b & -> & ->).
  simpl. rewrite <- app_assoc. simpl. symmetry.
  etransitivity; [apply Permutation_middle|].
  apply Permutation_app_head, Permutation_middle.
Qed.

Lemma length_pushGuest k g ts : length (pushGuest k g ts) = length ts.
Proof. apply length_alter. Qed.

(** Removing the guest at a seat removes it from the seated guests. *)
Lemma seated_removeAt k i g ts :
  guestAt ts k i = Some g ->
  seated ts ≡ₚ
  g :: seated (alter (fun tb => {| tableId := tableId tb;
                                   guestIds := delete i (guestIds tb) |}) k ts).
Proof.
  unfold guestAt. destruct (ts !! k) as [t|] eqn:Ht; [|discriminate].
  intros Hg.
  destruct (seated_alter
              (fun tb => {| tableId := tableId tb; guestIds := delete i (guestIds tb) |})
              k ts t Ht) as (a & b & -> & ->).
  simpl. etransitivity; [|symmetry; apply Permutation_middle].
  apply Permutation_app_head.
  change (g :: delete i (guestIds t) ++ b) with ((g :: delete i (guestIds t)) ++ b).
  apply Permutation_app_tail, delete_Permutation, Hg.
Qed.

(** Overwriting a seat trades the old guest for the new one. *)
Lemma seated_setGuestAt k i x old ts :
  guestAt ts k i = Some old ->
  x :: seated ts ≡ₚ old :: seated (setGuestAt k i x ts).
Proof.
  unfold guestAt, setGuestAt. destruct (ts !! k) as [t|] eqn:Ht; [|discriminate].
  intros Hg.
  destruct (seated_alter
              (fun tb => {| tableId := tableId tb; guestIds := <[i:=x]> (guestIds tb) |})
              k ts t Ht) as (a & b & -> & ->).
  simpl.
  assert (Hperm : x :: guestIds t ≡ₚ old :: <[i:=x]> (guestIds t)).
  { clear -Hg. revert i Hg. induction (guestIds t) as [|y l IH]; intros [|i] Hg;
      simpl in *; try discriminate.
    - injection Hg as ->. apply perm_swap.
    - rewrite perm_swap, (IH i Hg). apply perm_swap. }
  etransitivity; [apply Permutation_middle|].
  etransitivity; [|symmetry; apply Permutation_middle].
  apply Permutation_app_head.
  change (x :: guestIds t ++ b) with ((x :: guestIds t) ++ b).
  change (old :: <[i:=x]> (guestIds t) ++ b)
    with ((old :: <[i:=x]> (guestIds t)) ++ b).
  apply Permutation_app_tail, Hperm.
Qed.

Lemma guestIdsAt_lookup ts k t : ts !! k = Some t -> guestIdsAt ts k = guestIds t.
Proof. unfold guestIdsAt. intros ->. reflexivity. Qed.

Lemma capacity_pushGuest spt k g ts :
  capacityOK spt ts ->
  (forall t, ts !! k = Some t -> length (guestIds t) < spt) ->
  capacityOK spt (pushGuest k g ts).
Proof.
  intros Hcap Hroom. unfold pushGuest. apply Forall_alter; [exact Hcap|].
  intros t Ht _. simpl. rewrite length_app. simpl.
  specialize (Hroom t Ht). lia.
Qed.

Lemma capacity_shrink spt k ts (f : list string -> list string) :
  (forall l, length (f l) <= length l) ->
  capacityOK spt ts ->
  capacityOK spt (alter (fun tb => {| tableId := tableId tb;
                                      guestIds := f (guestIds tb) |}) k ts).
Proof.
  intros Hf Hcap. apply Forall_alter; [exact Hcap|].
  intros t _ Ht. simpl. specialize (Hf (guestIds t)). lia.
Qed.

Lemma length_delete_le {A : Type} (i : nat) (l : list A) :
  length (delete i l) <= length l.
Proof.
  revert i. induction l as [|x l IH]; intros [|i]; simpl; try lia.
  specialize (IH i). lia.
Qed.

Lemma searchMove_length spt plan plan' :
  searchMove spt plan plan' -> length (tables plan') = length (tables plan).
Proof.
  intros [t1 g1 t2 g2 _ _ _ _ | t1 g t2 _ _ _ _ _].
  - unfold swapGuests.
    destruct (guestAt (tables plan) t1 g1), (guestAt (tables plan) t2 g2);
      simpl; try reflexivity.
    unfold setGuestAt. rewrite !length_alter. reflexivity.
  - unfold moveGuest. destruct (guestAt (tables plan) t1 g); simpl; [|reflexivity].
    rewrite length_pushGuest, length_alter. reflexivity.
Qed.

(** A swap or a move seats the same guests. *)
Lemma searchMove_seated spt plan plan' :
  searchMove spt plan plan' -> seated (tables plan') ≡ₚ seated (tables plan).
Proof.
  intros [t1 g1 t2 g2 Hlt _ _ _ | t1 g t2 Hne _ Ht2 _ _].
  - unfold swapGuests.
    destruct (guestAt (tables plan) t1 g1) as [a|] eqn:Ha; [|reflexivity].
    destruct (guestAt (tables plan) t2 g2) as [b|] eqn:Hb; [|reflexivity].
    simpl.
    pose proof (seated_setGuestAt t1 g1 b a (tables plan) Ha) as H1.
    assert (Hb' : guestAt (setGuestAt t1 g1 b (tables plan)) t2 g2 = Some b).
    { unfold guestAt, setGuestAt in *.
      rewrite list_lookup_alter_ne by lia. exact Hb. }
    pose proof (seated_setGuestAt t2 g2 a b _ Hb') as H2.
    apply (Permutation_cons_inv (a := b)).
    rewrite <- H2. symmetry. rewrite H1. reflexivity.
  - unfold moveGuest.
    destruct (guestAt (tables plan) t1 g) as [x|] eqn:Hx; [|reflexivity].
    simpl. rewrite seated_pushGuest by (rewrite length_alter; exact Ht2).
    symmetry. apply seated_removeAt, Hx.
Qed.

(** A swap or a move keeps every table within its capacity. *)
Lemma searchMove_capacity spt plan plan' :
  searchMove spt plan plan' ->
  capacityOK spt (tables plan) -> capacityOK spt (tables plan').
Proof.
  intros [t1 g1 t2 g2 _ _ _ _ | t1 g t2 Hne _ _ Hroom _] Hcap.
  - unfold swapGuests.
    destruct (guestAt (tables plan) t1 g1), (guestAt (tables plan) t2 g2);
      simpl; try exact Hcap.
    unfold setGuestAt.
    apply (capacity_shrink spt t2 _ (fun l => <[g2:=_]> l));
      [intros l; rewrite length_insert; lia|].
    apply (capacity_shrink spt t1 _ (fun l => <[g1:=_]> l));
      [intros l; rewrite length_insert; lia | exact Hcap].
  - unfold moveGuest. destruct (guestAt (tables plan) t1 g); simpl; [|exact Hcap].
    apply capacity_pushGuest.
    + apply (capacity_shrink spt t1 _ (fun l => delete g l));
        [apply length_delete_le | exact Hcap].
    + intros t Ht. rewrite list_lookup_alter_ne in Ht by exact Hne.
      rewrite (guestIdsAt_lookup _ _ _ Ht) in Hroom. exact Hroom.
Qed.

Lemma acceptedStep_rtc_invariant constraints guests weights spt
    (P : SeatingPlan -> Prop) plan plan' :
  (forall p p', searchMove spt p p' -> P p -> P p') ->
  rtc (acceptedStep constraints guests weights spt) plan plan' ->
  P plan -> P plan'.
Proof.
  intros Hstep Hpath. induction Hpath as [p|p q r (Hmove & _) _ IH]; [auto|].
  intros Hp. apply IH. eapply Hstep; eassumption.
Qed.

(** ** Repair pass *)

Lemma foldl_invariant {A B : Type} (P : A -> Prop) (f : A -> B -> A)
    (l : list B) (a : A) :
  (forall a' x, P a' -> P (f a' x)) -> P a -> P (foldl f a l).
Proof.
  intros Hstep. revert a. induction l as [|x l IH]; intros a Ha; simpl; auto.
Qed.

Lemma findIndexFrom_Some {A : Type} (p : nat -> A -> bool) (l : list A) (i k : nat) :
  findIndexFrom p i l = Some k ->
  exists x, i <= k /\ l !! (k - i) = Some x /\ p k x = true.
Proof.
  revert i. induction l as [|y l IH]; intros i; simpl; [discriminate|].
  destruct (p i y) eqn:Hp.
  - intros [= <-]. exists y. rewrite Nat.sub_diag. auto.
  - intros Hk. destruct (IH (S i) Hk) as (x & Hle & Hx & Hpx).
    exists x. split; [lia|]. split; [|exact Hpx].
    replace (k - i) with (S (k - S i)) by lia. exact Hx.
Qed.

Lemma findIndex_Some {A : Type} (p : nat -> A -> bool) (l : list A) (k : nat) :
  findIndex p l = Some k -> exists x, l !! k = Some x /\ p k x = true.
Proof.
  intros Hk. apply findIndexFrom_Some in Hk as (x & _ & Hx & Hp).
  rewrite Nat.sub_0_r in Hx. eauto.
Qed.

Lemma findIndexFrom_None {A : Type} (p : nat -> A -> bool) (l : list A) (i : nat) :
  findIndexFrom p i l = None ->
  forall j x, l !! j = Some x -> p (i + j) x = false.
Proof.
  revert i. induction l as [|y l IH]; intros i; simpl; [intros _ j x Hj; discriminate|].
  destruct (p i y) eqn:Hp; [discriminate|].
  intros Hnone [|j] x Hj; simpl in Hj.
  - injection Hj as <-. rewrite Nat.add_0_r. exact Hp.
  - replace (i + S j) with (S i + j) by lia. eapply IH; eassumption.
Qed.

Lemma indexOf_elem {K : Type} `{EqDecision K} (x : K) (l : list K) :
  x ∈ l -> exists i : nat, indexOf x l = Z.of_nat i /\ l !! i = Some x.
Proof.
  induction l as [|y l IH]; intros Hin; [inversion Hin|]. simpl.
  destruct (decide (x = y)) as [->|Hne].
  - exists 0. auto.
  - apply elem_of_cons in Hin as [Heq|Hin]; [contradiction|].
    destruct (IH Hin) as (i & Hi & Hl). exists (S i). rewrite Hi.
    destruct (Z.of_nat i <? 0)%Z eqn:Hneg; [apply Z.ltb_lt in Hneg; lia|].
    split; [lia | exact Hl].
Qed.

Lemma length_splice1_le {A : Type} (i : Z) (l : list A) :
  length (splice1 i l) <= length l.
Proof. unfold splice1. apply length_delete_le. Qed.

Lemma splice1_nat {A : Type} (i : nat) (l : list A) :
  splice1 (Z.of_nat i) l = delete i l.
Proof.
  unfold splice1. destruct (Z.of_nat i <? 0)%Z eqn:Hneg.
  - apply Z.ltb_lt in Hneg. lia.
  - rewrite Nat2Z.id. reflexivity.
Qed.

Lemma bfilter_submseteq {A : Type} (p : A -> bool) (l : list A) :
  List.filter p l ⊆+ l.
Proof.
  induction l as [|x l IH]; simpl; [reflexivity|].
  destruct (p x); [apply submseteq_skip, IH | apply submseteq_cons, IH].
Qed.

Section Relocate.
Variables (spt : nat) (c : Constraint) (ti : nat).

Lemma relocate_step g g' rest ts :
  relocate spt c ti (g :: g' :: rest) ts
  = match findIndex (fun k t => negb (k =? ti)
                                && (length (guestIds t) <? spt)
                                && conflictFree c t) ts with
    | Some alt =>
        relocate spt c ti (g' :: rest)
          (pushGuest alt g
             (alter (fun t => {| tableId := tableId t;
                                 guestIds := splice1 (indexOf g (guestIdsAt ts ti))
                                               (guestIds t) |})
                    ti ts))
    | None => relocate spt c ti (g' :: rest) ts
    end.
Proof. reflexivity. Qed.

Lemma relocate_length stack ts :
  length (relocate spt c ti stack ts) = length ts.
Proof.
  revert ts. induction stack as [|g [|g' rest] IH]; intros ts; try reflexivity.
  rewrite relocate_step. destruct (findIndex _ ts); rewrite IH; [|reflexivity].
  rewrite length_pushGuest, length_alter. reflexivity.
Qed.

Lemma relocate_capacity stack ts :
  capacityOK spt ts -> capacityOK spt (relocate spt c ti stack ts).
Proof.
  revert ts. induction stack as [|g [|g' rest] IH]; intros ts Hcap; try exact Hcap.
  rewrite relocate_step.
  destruct (findIndex _ ts) as [alt|] eqn:Halt; apply IH; [|exact Hcap].
  apply findIndex_Some in Halt as (t & Ht & Hp).
  apply andb_true_iff in Hp as [Hp _]. apply andb_true_iff in Hp as [Hne Hroom].
  apply negb_true_iff, Nat.eqb_neq in Hne. apply Nat.ltb_lt in Hroom.
  apply capacity_pushGuest.
  - apply (capacity_shrink spt ti _ (fun l => splice1 _ l));
      [apply length_splice1_le | exact Hcap].
  - intros t' Ht'. rewrite list_lookup_alter_ne in Ht' by congruence.
    rewrite Ht in Ht'. injection Ht' as <-. exact Hroom.
Qed.

(** The guests still to consider are at the table: [indexOf] finds each,
    so that relocation removes the guest it then seats elsewhere. *)
Lemma relocate_seated stack ts :
  stack ⊆+ guestIdsAt ts ti ->
  seated (relocate spt c ti stack ts) ≡ₚ seated ts.
Proof.
  revert ts. induction stack as [|g [|g' rest] IH]; intros ts Hsub; try reflexivity.
  rewrite relocate_step.
  assert (Hrest : g' :: rest ⊆+ guestIdsAt ts ti)
    by (etransitivity; [apply submseteq_cons, reflexivity | exact Hsub]).
  destruct (findIndex _ ts) as [alt|] eqn:Halt; [|apply IH, Hrest].
  apply findIndex_Some in Halt as (t & Ht & Hp).
  apply andb_true_iff in Hp as [Hp _]. apply andb_true_iff in Hp as [Hne _].
  apply negb_true_iff, Nat.eqb_neq in Hne.
  assert (Hg : g ∈ guestIdsAt ts ti).
  { eapply elem_of_submseteq; [|exact Hsub]. left. }
  destruct (indexOf_elem g _ Hg) as (i & Hi & Hli).
  rewrite Hi.
  unfold guestIdsAt in Hli, Hsub.
  destruct (ts !! ti) as [tb|] eqn:Htb; [|discriminate].
  assert (Hat : guestAt ts ti i = Some g) by (unfold guestAt; rewrite Htb; exact Hli).
  set (ts' := alter (fun t0 => {| tableId := tableId t0;
                                  guestIds := splice1 (Z.of_nat i) (guestIds t0) |})
                    ti ts).
  assert (Hts' : ts' = alter (fun tb0 => {| tableId := tableId tb0;
                                            guestIds := delete i (guestIds tb0) |})
                             ti ts).
  { unfold ts'. apply list_alter_ext; [|reflexivity].
    intros t0 _. rewrite splice1_nat. reflexivity. }
  rewrite IH.
  - rewrite seated_pushGuest
      by (unfold ts'; rewrite length_alter; eapply lookup_lt_Some, Ht).
    rewrite Hts'. symmetry. apply seated_removeAt, Hat.
  - unfold guestIdsAt, pushGuest.
    rewrite list_lookup_alter_ne by congruence.
    rewrite Hts', list_lookup_alter_eq, Htb. simpl.
    apply (submseteq_app_inv_l _ _ [g]). simpl.
    etransitivity; [exact Hsub|].
    rewrite (delete_Permutation _ _ _ Hli) at 1. reflexivity.
Qed.

End Relocate.

Lemma repairTable_seated spt c ts ti :
  seated (repairTable spt c ts ti) ≡ₚ seated ts.
Proof.
  unfold repairTable. apply relocate_seated.
  rewrite <- Permutation_rev. apply bfilter_submseteq.
Qed.

Lemma repairTable_capacity spt c ts ti :
  capacityOK spt ts -> capacityOK spt (repairTable spt c ts ti).
Proof. apply relocate_capacity. Qed.

Lemma repairTable_length spt c ts ti :
  length (repairTable spt c ts ti) = length ts.
Proof. apply relocate_length. Qed.

(** The repair pass seats the same guests. *)
Lemma repairAssignment_seated plan constraints guests tc spt rng :
  seated (tables (repairAssignment plan constraints guests tc spt rng))
  ≡ₚ seated (tables plan).
Proof.
  unfold repairAssignment. simpl.
  apply (foldl_invariant (fun ts => seated ts ≡ₚ seated (tables plan)));
    [|reflexivity].
  intros ts c Hts.
  apply (foldl_invariant (fun ts' => seated ts' ≡ₚ seated (tables plan)));
    [|exact Hts].
  intros ts' ti Hts'. rewrite repairTable_seated. exact Hts'.
Qed.

(** The repair pass keeps every table within its capacity. *)
Lemma repairAssignment_capacity plan constraints guests tc spt rng :
  capacityOK spt (tables plan) ->
  capacityOK spt (tables (repairAssignment plan constraints guests tc spt rng)).
Proof.
  intros Hcap. unfold repairAssignment. simpl.
  apply (foldl_invariant (capacityOK spt)); [|exact Hcap].
  intros ts c Hts. apply (foldl_invariant (capacityOK spt)); [|exact Hts].
  intros ts' ti. apply repairTable_capacity.
Qed.

(** ** Initial assignment: the grouping phase *)

Lemma emptyTables_length tc : length (emptyTables tc) = tc.
Proof. unfold emptyTables. rewrite length_map, length_seq. reflexivity. Qed.

Lemma emptyTables_seated tc : seated (emptyTables tc) = [].
Proof.
  unfold emptyTables. generalize (seq 0 tc) as l.
  induction l as [|i l IH]; simpl; [reflexivity|].
  rewrite seated_cons. simpl. exact IH.
Qed.

Lemma emptyTables_capacity spt tc : capacityOK spt (emptyTables tc).
Proof.
  unfold capacityOK, emptyTables. apply Forall_forall. intros t Ht.
  apply list_elem_of_fmap in Ht as (i & -> & _). simpl. lia.
Qed.

Lemma placeMembers_inv spt k (l : list string) :
  forall st : list TableAssignment * list string,
    groupInv spt st -> k < length st.1 ->
    (forall t, st.1 !! k = Some t -> length (guestIds t) + length l <= spt) ->
    let st' := foldl (fun (st' : list TableAssignment * list string) gid =>
                        if setHas gid st'.2 then st'
                        else (pushGuest k gid st'.1, setAdd gid st'.2))
                     st l in
    groupInv spt st' /\ length st'.1 = length st.1.
Proof.
  induction l as [|gid l IH]; intros st Hinv Hk Hroom; simpl; [auto|].
  destruct (setHas gid st.2) eqn:Hhas.
  - apply IH; [exact Hinv | exact Hk |].
    intros t Ht. specialize (Hroom t Ht). simpl in Hroom. lia.
  - destruct Hinv as (Hnd & Hperm & Hcap).
    destruct (lookup_lt_is_Some_2 _ _ Hk) as [t Ht].
    pose proof (Hroom t Ht) as Hlen. simpl in Hlen.
    edestruct (IH (pushGuest k gid st.1, setAdd gid st.2)) as [Hinv' Hlen'].
    + split; [apply NoDup_setAdd, Hnd|]. simpl. split.
      * rewrite seated_pushGuest by exact Hk. rewrite Hperm.
        unfold setAdd. rewrite Hhas. apply Permutation_cons_append.
      * apply capacity_pushGuest; [exact Hcap|].
        intros t' Ht'. rewrite Ht in Ht'. injection Ht' as <-. lia.
    + simpl. rewrite length_pushGuest. exact Hk.
    + simpl. intros t' Ht'. unfold pushGuest in Ht'.
      rewrite list_lookup_alter_eq, Ht in Ht'. simpl in Ht'.
      injection Ht' as <-. simpl. rewrite length_app. simpl. lia.
    + split; [exact Hinv'|]. rewrite Hlen'. simpl. apply length_pushGuest.
Qed.

Lemma placeGroup_inv spt st c :
  groupInv spt st ->
  groupInv spt (placeGroup spt st c)
  /\ length (placeGroup spt st c).1 = length st.1.
Proof.
  intros Hinv. unfold placeGroup.
  destruct (findIndex _ st.1) as [k|] eqn:Hk; [|auto].
  apply findIndex_Some in Hk as (t & Ht & Hp). apply Nat.leb_le in Hp.
  apply placeMembers_inv; [exact Hinv | eapply lookup_lt_Some, Ht |].
  intros t' Ht'. rewrite Ht in Ht'. injection Ht' as <-. exact Hp.
Qed.

Lemma placeGroups_inv spt (cs : list Constraint) st :
  groupInv spt st ->
  groupInv spt (foldl (placeGroup spt) st cs)
  /\ length (foldl (placeGroup spt) st cs).1 = length st.1.
Proof.
  revert st. induction cs as [|c cs IH]; intros st Hinv; simpl; [auto|].
  destruct (placeGroup_inv spt st c Hinv) as [Hinv' Hlen].
  destruct (IH _ Hinv') as [Hinv'' Hlen'].
  split; [exact Hinv''|]. rewrite Hlen'. exact Hlen.
Qed.

(** Only members of the groups are seated by the grouping phase. *)
Lemma placeGroup_assigned spt st c x :
  x ∈ (placeGroup spt st c).2 -> x ∈ st.2 \/ x ∈ c_guestIds c.
Proof.
  unfold placeGroup. destruct (findIndex _ st.1) as [k|]; [|auto].
  generalize (c_guestIds c) as l. intros l. revert st.
  induction l as [|gid l IH]; intros st; simpl; [auto|].
  intros Hx. apply IH in Hx as [Hx|Hx].
  - destruct (setHas gid st.2); [auto|]. simpl in Hx.
    apply elem_of_setAdd in Hx as [->|Hx]; [right; left | auto].
  - right. right. exact Hx.
Qed.

Lemma placeGroups_assigned spt (cs : list Constraint) st x :
  x ∈ (foldl (placeGroup spt) st cs).2 ->
  x ∈ st.2 \/ exists c, c ∈ cs /\ x ∈ c_guestIds c.
Proof.
  revert st. induction cs as [|c cs IH]; intros st; simpl; [auto|].
  intros Hx. apply IH in Hx as [Hx|(c' & Hc' & Hx)].
  - apply placeGroup_assigned in Hx as [Hx|Hx]; [auto|].
    right. exists c. split; [left | exact Hx].
  - right. exists c'. split; [right; exact Hc' | exact Hx].
Qed.

(** ** The shuffle *)

Lemma swapAt_perm {T : Type} (i j : nat) (l : list T) : swapAt i j l ≡ₚ l.
Proof.
  unfold swapAt. destruct (l !! i) as [a|] eqn:Ha; [|reflexivity].
  destruct (l !! j) as [b|] eqn:Hb; [|reflexivity].
  apply Permutation_insert_swap; assumption.
Qed.

Lemma shuffleLoop_perm {T : Type} (i : nat) (rng : Z) (l : list T) :
  (shuffleLoop i rng l).1 ≡ₚ l.
Proof.
  revert rng l. induction i as [|i IH]; intros rng l; simpl; [reflexivity|].
  rewrite IH. apply swapAt_perm.
Qed.

(** [shuffle] returns a rearrangement of its argument. *)
Lemma shuffle_perm {T : Type} (rng : Z) (l : list T) : (shuffle rng l).1 ≡ₚ l.
Proof. apply shuffleLoop_perm. Qed.

(** ** Initial assignment: the round-robin phase *)

Lemma findIndex_exists {A : Type} (p : nat -> A -> bool) (l : list A) (k : nat) (x : A) :
  l !! k = Some x -> p k x = true -> exists k', findIndex p l = Some k'.
Proof.
  intros Hk Hp. unfold findIndex.
  destruct (findIndexFrom p 0 l) as [k'|] eqn:Hfind; [eauto|].
  pose proof (findIndexFrom_None p l 0 Hfind k x Hk) as Hfalse.
  simpl in Hfalse. congruence.
Qed.

Section ScanTables.
Variables (constraints : list Constraint) (tc spt : nat) (g : string).

(** The scan either leaves the tables alone or seats the guest at a table
    with a free seat; in the second case it stopped before the last
    attempt. *)
Lemma scanTables_cases fuel ts idx att :
  let r := scanTables fuel constraints tc spt g ts idx att in
  (r.1.1 = ts /\ r.2 <= att + fuel)
  \/ (r.2 < att + fuel
      /\ exists t, ts !! r.1.2 = Some t /\ length (guestIds t) < spt
                   /\ r.1.1 = pushGuest r.1.2 g ts).
Proof.
  revert idx att. induction fuel as [|fuel IH]; intros idx att; simpl.
  - left. split; [reflexivity | lia].
  - destruct (ts !! idx) as [t|] eqn:Ht; simpl; [|left; split; [reflexivity|lia]].
    destruct (length (guestIds t) <? spt) eqn:Hroom; simpl.
    + destruct (hasConflict constraints g t); simpl.
      * destruct (IH ((idx + 1) mod tc) (att + 1)) as [[Hts Hatt]|[Hatt Hex]].
        -- left. split; [exact Hts | lia].
        -- right. split; [lia | exact Hex].
      * right. split; [lia|]. exists t. apply Nat.ltb_lt in Hroom. auto.
    + destruct (IH ((idx + 1) mod tc) (att + 1)) as [[Hts Hatt]|[Hatt Hex]].
      * left. split; [exact Hts | lia].
      * right. split; [lia | exact Hex].
Qed.

(** With the pointer in range the scan never meets a missing table: when
    it seats nobody it has made all [tableCount] attempts. *)
Lemma scanTables_valid fuel ts idx att :
  length ts = tc -> idx < tc -> att + fuel = tc ->
  let r := scanTables fuel constraints tc spt g ts idx att in
  r.1.2 < tc
  /\ ((r.1.1 = ts /\ r.2 = tc)
      \/ (r.2 < tc
          /\ exists t, ts !! r.1.2 = Some t /\ length (guestIds t) < spt
                       /\ r.1.1 = pushGuest r.1.2 g ts)).
Proof.
  intros Hlen. revert idx att.
  induction fuel as [|fuel IH]; intros idx att Hidx Hatt; simpl.
  - split; [exact Hidx|]. left. split; [reflexivity | lia].
  - destruct (lookup_lt_is_Some_2 ts idx) as [t Ht]; [lia|]. rewrite Ht.
    assert (Hnext : (idx + 1) mod tc < tc) by (apply Nat.mod_upper_bound; lia).
    destruct (length (guestIds t) <? spt) eqn:Hroom; simpl.
    + destruct (hasConflict constraints g t); simpl.
      * apply IH; [exact Hnext | lia].
      * split; [exact Hidx|]. right. split; [lia|].
        exists t. apply Nat.ltb_lt in Hroom. auto.
    + apply IH; [exact Hnext | lia].
Qed.

(** One guest of the round-robin phase: the tables are unchanged or the
    guest is seated, once, at a table that had a free seat. *)
Lemma placeGuest_cases ts idx :
  let r := placeGuest constraints tc spt (ts, idx) g in
  r.1 = ts
  \/ exists k t, ts !! k = Some t /\ length (guestIds t) < spt
                 /\ r.1 = pushGuest k g ts.
Proof.
  unfold placeGuest. simpl.
  pose proof (scanTables_cases tc ts idx 0) as Hscan. simpl in Hscan.
  destruct (scanTables tc constraints tc spt g ts idx 0) as [[ts1 idx1] att].
  simpl in *. destruct Hscan as [[-> Hatt]|[Hatt (t & Ht & Hroom & ->)]].
  - destruct (att =? tc); [|left; reflexivity].
    destruct (findIndex _ ts) as [k|] eqn:Hk; [|left; reflexivity].
    apply findIndex_Some in Hk as (t & Ht & Hroom). apply Nat.ltb_lt in Hroom.
    right. exists k, t. auto.
  - destruct (att =? tc) eqn:Heq; [apply Nat.eqb_eq in Heq; lia|].
    right. exists idx1, t. auto.
Qed.

End ScanTables.

Lemma room_exists spt ts :
  capacityOK spt ts -> length (seated ts) < length ts * spt ->
  exists k t, ts !! k = Some t /\ length (guestIds t) < spt.
Proof.
  induction ts as [|t ts IH]; intros Hcap Hlen; simpl in Hlen; [lia|].
  apply Forall_cons in Hcap as [Ht Hcap].
  rewrite seated_cons, length_app in Hlen.
  destruct (decide (length (guestIds t) < spt)) as [Hroom|Hfull].
  - exists 0, t. auto.
  - destruct IH as (k & t' & Hk & Hroom); [exact Hcap | lia|].
    exists (S k), t'. auto.
Qed.

Section RoundRobin.
Variables (constraints : list Constraint) (tc spt : nat).

Lemma placeGuest_placed ts idx g :
  length ts = tc -> idx < tc -> capacityOK spt ts ->
  length (seated ts) < tc * spt ->
  let r := placeGuest constraints tc spt (ts, idx) g in
  seated r.1 ≡ₚ g :: seated ts /\ capacityOK spt r.1
  /\ length r.1 = tc /\ r.2 < tc.
Proof.
  intros Hlen Hidx Hcap Hfree. unfold placeGuest. simpl.
  pose proof (scanTables_valid constraints tc spt g tc ts idx 0 Hlen Hidx eq_refl)
    as Hscan. simpl in Hscan.
  destruct (scanTables tc constraints tc spt g ts idx 0) as [[ts1 idx1] att].
  simpl in *. destruct Hscan as [Hidx1 Hscan].
  assert (Hmod : (idx1 + 1) mod tc < tc) by (apply Nat.mod_upper_bound; lia).
  assert (Hpush : forall k t, ts !! k = Some t -> length (guestIds t) < spt ->
            seated (pushGuest k g ts) ≡ₚ g :: seated ts
            /\ capacityOK spt (pushGuest k g ts)
            /\ length (pushGuest k g ts) = tc /\ (idx1 + 1) mod tc < tc).
  { intros k t Hk Hroom. split.
    - apply seated_pushGuest. eapply lookup_lt_Some, Hk.
    - split; [|rewrite length_pushGuest; auto].
      apply capacity_pushGuest; [exact Hcap|].
      intros t' Hk'. rewrite Hk in Hk'. injection Hk' as <-. exact Hroom. }
  destruct Hscan as [[-> ->]|[Hatt (t & Ht & Hroom & ->)]].
  - rewrite Nat.eqb_refl.
    destruct (room_exists spt ts Hcap) as (k & t & Hk & Hroom); [lia|].
    destruct (findIndex_exists (fun _ t0 => length (guestIds t0) <? spt) ts k t Hk)
      as [k' Hk']; [apply Nat.ltb_lt, Hroom|].
    rewrite Hk'. apply findIndex_Some in Hk' as (t' & Ht' & Hroom').
    apply Nat.ltb_lt in Hroom'. eapply Hpush; eassumption.
  - destruct (att =? tc) eqn:Heq; [apply Nat.eqb_eq in Heq; lia|].
    eapply Hpush; eassumption.
Qed.

Lemma placeGuests_capacity (l : list Guest) st :
  capacityOK spt st.1 ->
  capacityOK spt
    (foldl (fun st g => placeGuest constraints tc spt st (g_id g)) st l).1.
Proof.
  revert st. induction l as [|g l IH]; intros [ts idx] Hcap; simpl; [exact Hcap|].
  apply IH.
  destruct (placeGuest_cases constraints tc spt (g_id g) ts idx)
    as [->|(k & t & Hk & Hroom & ->)]; [exact Hcap|].
  apply capacity_pushGuest; [exact Hcap|].
  intros t' Hk'. simpl in Hk'. rewrite Hk in Hk'. injection Hk' as <-. exact Hroom.
Qed.

Lemma placeGuests_NoDup (l : list Guest) st :
  NoDup (seated st.1 ++ map g_id l) ->
  NoDup (seated
    (foldl (fun st g => placeGuest constraints tc spt st (g_id g)) st l).1).
Proof.
  revert st. induction l as [|g l IH]; intros [ts idx] Hnd; simpl in *.
  - rewrite app_nil_r in Hnd. exact Hnd.
  - apply IH.
    destruct (placeGuest_cases constraints tc spt (g_id g) ts idx)
      as [->|(k & t & Hk & Hroom & ->)].
    + simpl. apply NoDup_app in Hnd as (Hs & Hdisj & Hl).
      apply NoDup_cons in Hl as [_ Hl]. apply NoDup_app.
      split; [exact Hs|]. split; [|exact Hl].
      intros x Hx Hx'. apply (Hdisj x Hx). right. exact Hx'.
    + simpl in *. rewrite seated_pushGuest by (eapply lookup_lt_Some, Hk).
      simpl. rewrite Permutation_middle. exact Hnd.
Qed.

(** With room for all of them, the round-robin phase seats every guest it
    is given. *)
Lemma placeGuests_all (l : list Guest) ts idx :
  length ts = tc -> idx < tc \/ l = [] -> capacityOK spt ts ->
  length (seated ts) + length l <= tc * spt ->
  seated (foldl (fun st g => placeGuest constraints tc spt st (g_id g)) (ts, idx) l).1
  ≡ₚ seated ts ++ map g_id l.
Proof.
  revert ts idx. induction l as [|g l IH]; intros ts idx Hlen Hidx Hcap Hfree; simpl.
  - rewrite app_nil_r. reflexivity.
  - simpl in Hfree. destruct Hidx as [Hidx|Hnil]; [|discriminate].
    destruct (placeGuest_placed ts idx (g_id g) Hlen Hidx Hcap)
      as (Hperm & Hcap' & Hlen' & Hidx'); [lia|].
    destruct (placeGuest constraints tc spt (ts, idx) (g_id g)) as [ts' idx'].
    simpl in *. rewrite IH; try assumption.
    + rewrite Hperm. simpl. apply Permutation_middle.
    + left. exact Hidx'.
    + rewrite Hperm. simpl. lia.
Qed.

End RoundRobin.

(** ** Initial assignment *)

Lemma groupInv_empty spt tc : groupInv spt (emptyTables tc, []).
Proof.
  split; [apply NoDup_nil_2|]. split; simpl.
  - rewrite emptyTables_seated. reflexivity.
  - apply emptyTables_capacity.
Qed.

Lemma createInitialAssignment_capacity guests constraints tc spt rng :
  capacityOK spt (tables (createInitialAssignment guests constraints tc spt rng).1).
Proof.
  unfold createInitialAssignment. simpl.
  apply placeGuests_capacity. simpl.
  apply (placeGroups_inv spt _ _ (groupInv_empty spt tc)).
Qed.

Lemma NoDup_map_bfilter {A B : Type} (f : A -> B) (p : A -> bool) (l : list A) :
  NoDup (map f l) -> NoDup (map f (List.filter p l)).
Proof.
  induction l as [|x l IH]; simpl; [auto|].
  intros Hnd. apply NoDup_cons in Hnd as [Hx Hnd].
  destruct (p x); [|apply IH, Hnd]. simpl. apply NoDup_cons. split; [|apply IH, Hnd].
  intros Hin. apply Hx. apply list_elem_of_fmap in Hin as (y & -> & Hy).
  apply elem_of_bfilter in Hy as [Hy _]. apply list_elem_of_fmap_2, Hy.
Qed.

Lemma createInitialAssignment_NoDup guests constraints tc spt rng :
  NoDup (map g_id guests) ->
  NoDup (seated (tables (createInitialAssignment guests constraints tc spt rng).1)).
Proof.
  intros Hids. unfold createInitialAssignment. simpl.
  set (grouped := foldl (placeGroup spt) (emptyTables tc, [])
                    (List.filter (isType MUST_SIT_TOGETHER) constraints)).
  destruct (placeGroups_inv spt (List.filter (isType MUST_SIT_TOGETHER) constraints)
              _ (groupInv_empty spt tc)) as [(Hnd & Hperm & _) _].
  fold grouped in Hnd, Hperm.
  set (remaining := List.filter (fun g => negb (setHas (g_id g) grouped.2)) guests).
  apply placeGuests_NoDup. simpl.
  rewrite (shuffle_perm rng remaining). apply NoDup_app.
  split; [rewrite Hperm; exact Hnd|]. split.
  - intros x Hx Hx'. rewrite Hperm in Hx.
    apply list_elem_of_fmap in Hx' as (g & -> & Hg).
    apply elem_of_bfilter in Hg as [_ Hg]. apply negb_true_iff in Hg.
    unfold setHas in Hg. apply bool_decide_eq_false in Hg. contradiction.
  - apply NoDup_map_bfilter, Hids.
Qed.

(** The guests the grouping phase seated and the guests left for the
    round-robin phase number no more than the guests, when every seated
    id belongs to a guest. *)
Lemma remaining_count (guests : list Guest) (assigned : list string) :
  NoDup assigned ->
  (forall x, x ∈ assigned -> x ∈ map g_id guests) ->
  length assigned
  + length (List.filter (fun g => negb (setHas (g_id g) assigned)) guests)
  <= length guests.
Proof.
  intros Hnd Hsub.
  assert (Hle : length assigned
                <= length (List.filter (fun g => setHas (g_id g) assigned) guests)).
  { rewrite <- (length_map g_id). apply submseteq_length, NoDup_submseteq; [exact Hnd|].
    intros x Hx. specialize (Hsub x Hx).
    apply list_elem_of_fmap in Hsub as (g & -> & Hg).
    apply list_elem_of_fmap_2, elem_of_bfilter. split; [exact Hg|].
    unfold setHas. apply bool_decide_eq_true_2, Hx. }
  pose proof (List.filter_length (fun g => setHas (g_id g) assigned) guests). lia.
Qed.

(** When the guests fit the seats and the MUST_SIT_TOGETHER constraints
    name supplied guests only, the initial assignment seats every guest. *)
Lemma createInitialAssignment_all guests constraints tc spt rng :
  length guests <= tc * spt ->
  (forall c x, c ∈ constraints -> c_type c = MUST_SIT_TOGETHER ->
               x ∈ c_guestIds c -> x ∈ map g_id guests) ->
  forall g, g ∈ guests ->
    g_id g ∈ seated (tables (createInitialAssignment guests constraints tc spt rng).1).
Proof.
  intros Hfit Hrefs g Hg. unfold createInitialAssignment. simpl.
  set (grouped := foldl (placeGroup spt) (emptyTables tc, [])
                    (List.filter (isType MUST_SIT_TOGETHER) constraints)).
  destruct (placeGroups_inv spt (List.filter (isType MUST_SIT_TOGETHER) constraints)
              _ (groupInv_empty spt tc)) as [(Hnd & Hperm & Hcap) Hlen].
  fold grouped in Hnd, Hperm, Hcap, Hlen. simpl in Hlen.
  rewrite emptyTables_length in Hlen.
  set (remaining := List.filter (fun g => negb (setHas (g_id g) grouped.2)) guests).
  assert (Hassigned : forall x, x ∈ grouped.2 -> x ∈ map g_id guests).
  { intros x Hx. apply placeGroups_assigned in Hx as [Hx|(c & Hc & Hx)];
      [inversion Hx|].
    apply elem_of_bfilter in Hc as [Hc Hty].
    apply bool_decide_eq_true in Hty. eapply Hrefs; eassumption. }
  pose proof (remaining_count guests grouped.2 Hnd Hassigned) as Hcount.
  fold remaining in Hcount.
  pose proof (shuffle_perm rng remaining) as Hshuffle.
  rewrite placeGuests_all.
  - rewrite Hshuffle, elem_of_app, Hperm.
    destruct (setHas (g_id g) grouped.2) eqn:Hhas.
    + left. unfold setHas in Hhas. apply bool_decide_eq_true in Hhas. exact Hhas.
    + right. apply list_elem_of_fmap_2, elem_of_bfilter.
      split; [exact Hg|]. rewrite Hhas. reflexivity.
  - exact Hlen.
  - destruct tc as [|tc]; [right|left; lia].
    assert (Hz : length remaining = 0) by lia.
    destruct remaining; [|discriminate].
    apply Permutation_nil_r, Hshuffle.
  - exact Hcap.
  - rewrite Hperm, Hshuffle. lia.
Qed.

(** ** The plan returned by the optimizer *)

Lemma initialPlan_seated guests constraints tc spt rng :
  seated (tables (initialPlan guests constraints tc spt rng))
  ≡ₚ seated (tables (createInitialAssignment guests constraints tc spt rng).1).
Proof.
  unfold initialPlan. destruct (negb _); [|reflexivity].
  apply repairAssignment_seated.
Qed.

Lemma initialPlan_capacity guests constraints tc spt rng :
  capacityOK spt (tables (initialPlan guests constraints tc spt rng)).
Proof.
  unfold initialPlan. destruct (negb _).
  - apply repairAssignment_capacity, createInitialAssignment_capacity.
  - apply createInitialAssignment_capacity.
Qed.

(** The plan [optimize] returns is empty (infeasible input) or reached
    from the initial plan by accepted steps. *)
Lemma optimize_plan_cases guests constraints weights config :
  tables (res_plan (optimize guests constraints weights config)) = []
  \/ rtc (acceptedStep constraints guests weights (seatsPerTable config))
       (initialPlan guests constraints (tableCount config) (seatsPerTable config)
          (default 42%Z (seed config)))
       (res_plan (optimize guests constraints weights config)).
Proof.
  destruct (feasible (checkFeasibility guests constraints (tableCount config)
                        (seatsPerTable config))) eqn:Hfeas.
  - right. apply (optimize_path guests constraints weights config Hfeas).
  - left. destruct (optimize_infeasible_result guests constraints weights config Hfeas)
      as (r & _ & ->). reflexivity.
Qed.

Lemma NoDup_seated_tables ts :
  NoDup (seated ts) ->
  Forall (fun t => NoDup (guestIds t)) ts
  /\ forall i j t1 t2 x,
       ts !! i = Some t1 -> ts !! j = Some t2 -> i <> j ->
       x ∈ guestIds t1 -> x ∉ guestIds t2.
Proof.
  induction ts as [|t ts IH]; intros Hnd.
  - split; [constructor | intros i j t1 t2 x Hi; discriminate].
  - rewrite seated_cons in Hnd. apply NoDup_app in Hnd as (Ht & Hdisj & Hts).
    destruct (IH Hts) as [Hall Hcross]. split; [constructor; assumption|].
    intros [|i] [|j] t1 t2 x Hi Hj Hne Hx1 Hx2; simpl in Hi, Hj.
    + contradiction.
    + injection Hi as <-. apply (Hdisj x Hx1).
      apply elem_of_seated. exists t2. split; [|exact Hx2].
      eapply list_elem_of_lookup_2, Hj.
    + injection Hj as <-. apply (Hdisj x Hx2).
      apply elem_of_seated. exists t1. split; [|exact Hx1].
      eapply list_elem_of_lookup_2, Hi.
    + apply (Hcross i j t1 t2 x); auto.
Qed.

(** C3.  When the guests have pairwise distinct ids, the guest ids seated
    by the plan [optimize] returns, read table after table, are pairwise
    distinct: no id occurs twice at a table, and no id occurs at two
    tables. *)
Theorem optimize_unique_seating (guests : list Guest) (constraints : list Constraint)
    (weights : Double.ObjectiveWeights) (config : OptimizationConfig) :
  NoDup (map g_id guests) ->
  let ts := tables (res_plan (optimize guests constraints weights config)) in
  NoDup (seated ts)
  /\ Forall (fun t => NoDup (guestIds t)) ts
  /\ forall i j t1 t2 x,
       ts !! i = Some t1 -> ts !! j = Some t2 -> i <> j ->
       x ∈ guestIds t1 -> x ∉ guestIds t2.
Proof.
  intros Hids ts.
  assert (Hnd : NoDup (seated ts)).
  { unfold ts.
    destruct (optimize_plan_cases guests constraints weights config) as [->|Hpath].
    - apply NoDup_nil_2.
    - eapply (acceptedStep_rtc_invariant _ _ _ _
                (fun p => NoDup (seated (tables p)))); [|exact Hpath|].
      + intros p p' Hmove Hp. rewrite (searchMove_seated _ _ _ Hmove). exact Hp.
      + rewrite initialPlan_seated. apply createInitialAssignment_NoDup, Hids. }
  split; [exact Hnd | apply NoDup_seated_tables, Hnd].
Qed.

(** C4.  Every table of the plan [optimize] returns seats at most
    [seatsPerTable] guests, for every input; the bound holds after the
    initial assignment, is kept by the repair pass, and is kept by every
    swap or move the local search accepts. *)
Theorem optimize_capacity (guests : list Guest) (constraints : list Constraint)
    (weights : Double.ObjectiveWeights) (config : OptimizationConfig) :
  Forall (fun t => length (guestIds t) <= seatsPerTable config)
         (tables (res_plan (optimize guests constraints weights config)))
  /\ (forall rng,
        capacityOK (seatsPerTable config)
          (tables (createInitialAssignment guests constraints (tableCount config)
                     (seatsPerTable config) rng).1))
  /\ (forall plan rng,
        capacityOK (seatsPerTable config) (tables plan) ->
        capacityOK (seatsPerTable config)
          (tables (repairAssignment plan constraints guests (tableCount config)
                     (seatsPerTable config) rng)))
  /\ (forall plan plan',
        acceptedStep constraints guests weights (seatsPerTable config) plan plan' ->
        capacityOK (seatsPerTable config) (tables plan) ->
        capacityOK (seatsPerTable config) (tables plan')).
Proof.
  split; [|split; [|split]].
  - destruct (optimize_plan_cases guests constraints weights config) as [->|Hpath].
    + constructor.
    + eapply (acceptedStep_rtc_invariant _ _ _ _
                (fun p => capacityOK (seatsPerTable config) (tables p)));
        [|exact Hpath|].
      * intros p p'. apply searchMove_capacity.
      * apply initialPlan_capacity.
  - intros rng. apply createInitialAssignment_capacity.
  - intros plan rng. apply repairAssignment_capacity.
  - intros plan plan' (Hmove & _). apply searchMove_capacity, Hmove.
Qed.

(** C5 (as amended).  On an input that [checkFeasibility] reports feasible
    and whose MUST_SIT_TOGETHER constraints name supplied guests only,
    every guest is seated at some table of the plan [optimize] returns. *)
Theorem optimize_seats_everyone (guests : list Guest) (constraints : list Constraint)
    (weights : Double.ObjectiveWeights) (config : OptimizationConfig) :
  feasible (checkFeasibility guests constraints
              (tableCount config) (seatsPerTable config)) = true ->
  (forall c x, c ∈ constraints -> c_type c = MUST_SIT_TOGETHER ->
               x ∈ c_guestIds c -> x ∈ map g_id guests) ->
  forall g, g ∈ guests ->
    exists t, t ∈ tables (res_plan (optimize guests constraints weights config))
              /\ g_id g ∈ guestIds t.
Proof.
  intros Hfeas Hrefs g Hg. apply elem_of_seated.
  pose proof (proj1 (checkFeasibility_true guests constraints (tableCount config)
                       (seatsPerTable config)) Hfeas) as [Hfit _].
  pose proof (proj1 (optimize_path guests constraints weights config Hfeas))
    as Hpath.
  eapply (acceptedStep_rtc_invariant _ _ _ _
            (fun p => g_id g ∈ seated (tables p))); [|exact Hpath|].
  - intros p p' Hmove Hp. rewrite (searchMove_seated _ _ _ Hmove). exact Hp.
  - rewrite initialPlan_seated.
    apply createInitialAssignment_all; assumption.
Qed.

(** ** The random source stays below one *)

Lemma roundDouble_small x :
  (Z.abs x < 2 ^ 53)%Z -> roundDouble x = Some x.
Proof.
  intros Hx. unfold roundDouble. apply Z.ltb_lt in Hx. rewrite Hx. reflexivity.
Qed.

(** Past [2^53] a double is an even integer of magnitude at least [2^53]. *)
Lemma roundDouble_large x v :
  (2 ^ 53 <= Z.abs x)%Z -> roundDouble x = Some v ->
  Z.even v = true /\ (2 ^ 53 <= Z.abs v)%Z.
Proof.
  intros Hx. unfold roundDouble.
  destruct (Z.abs x <? 2 ^ 53)%Z eqn:Hlt; [apply Z.ltb_lt in Hlt; lia|].
  set (a := Z.abs x) in *.
  set (e := (Z.log2 a - 52)%Z).
  assert (Ha : (0 < a)%Z) by lia.
  assert (He : (1 <= e)%Z).
  { unfold e. assert (53 <= Z.log2 a)%Z; [|lia].
    apply Z.log2_le_pow2; [exact Ha | exact Hx]. }
  set (q := (a / 2 ^ e)%Z).
  assert (Hq : (2 ^ 52 <= q)%Z).
  { unfold q. apply Z.div_le_lower_bound; [apply Z.pow_pos_nonneg; lia|].
    rewrite <- Z.pow_add_r by lia. replace (e + 52)%Z with (Z.log2 a) by (unfold e; lia).
    apply Z.log2_spec, Ha. }
  set (m := if (a mod 2 ^ e <? 2 ^ (e - 1))%Z then q
            else if (2 ^ (e - 1) <? a mod 2 ^ e)%Z then (q + 1)%Z
                 else if Z.even q then q else (q + 1)%Z).
  assert (Hm : (2 ^ 52 <= m)%Z).
  { unfold m. repeat match goal with |- context [if ?b then _ else _] =>
                       destruct b end; lia. }
  destruct (2 ^ 1024 <=? m * 2 ^ e)%Z; [discriminate|].
  intros [= <-].
  assert (Hpow : (2 ^ e = 2 * 2 ^ (e - 1))%Z).
  { rewrite <- (Z.pow_succ_r 2 (e - 1)) by lia. f_equal. lia. }
  assert (Hpos : (1 <= 2 ^ (e - 1))%Z).
  { assert (0 < 2 ^ (e - 1))%Z by (apply Z.pow_pos_nonneg; lia). lia. }
  assert (Heven : Z.even (m * 2 ^ e) = true).
  { rewrite Hpow, Z.mul_assoc, (Z.mul_comm m 2), <- Z.mul_assoc.
    rewrite Z.even_mul. reflexivity. }
  assert (Hbig : (2 ^ 53 <= m * 2 ^ e)%Z) by (rewrite Hpow; nia).
  assert (Hsgn : Z.sgn x = 1%Z \/ Z.sgn x = (-1)%Z)
    by (unfold a in Ha; destruct x; simpl in *; lia).
  destruct Hsgn as [-> | ->].
  - rewrite Z.mul_1_l. split; [exact Heven | lia].
  - replace (-1 * (m * 2 ^ e))%Z with (- (m * 2 ^ e))%Z by ring.
    rewrite Z.even_opp. split; [exact Heven | lia].
Qed.

Lemma land_mask31 x : Z.land x 2147483647 = (x mod 2 ^ 31)%Z.
Proof. change 2147483647%Z with (Z.ones 31). apply Z.land_ones. lia. Qed.

Lemma toInt32_mod31 y : (toInt32 y mod 2 ^ 31 = y mod 2 ^ 31)%Z.
Proof.
  unfold toInt32. destruct (2 ^ 31 <=? y mod 2 ^ 32)%Z;
    change (2 ^ 32)%Z with 4294967296%Z; change (2 ^ 31)%Z with 2147483648%Z;
    Z.div_mod_to_equations; lia.
Qed.

(** The state never becomes [0x7fffffff]: a state of that value would need
    an odd double, hence exact arithmetic, and the one residue of the seed
    that gives it is out of the range where the product is exact.  So
    [next()] returns a value below one. *)
Lemma nextSeed_range s : (0 <= nextSeed s < 2147483647)%Z.
Proof.
  unfold nextSeed.
  destruct (roundDouble (s * 1103515245)) as [p|] eqn:Hp; [|lia].
  destruct (roundDouble (p + 12345)) as [y|] eqn:Hy; [|lia].
  rewrite land_mask31, toInt32_mod31.
  change (2 ^ 31)%Z with 2147483648%Z.
  assert (Hne : (y mod 2147483648 <> 2147483647)%Z).
  { destruct (Z_lt_le_dec (Z.abs (p + 12345)) (2 ^ 53)) as [Hsmall|Hbig].
    - rewrite roundDouble_small in Hy by exact Hsmall. injection Hy as <-.
      destruct (Z_lt_le_dec (Z.abs (s * 1103515245)) (2 ^ 53)) as [Hs|Hb].
      + rewrite roundDouble_small in Hp by exact Hs. injection Hp as <-.
        change (2 ^ 53)%Z with 9007199254740992%Z in *.
        intros Hmod. Z.div_mod_to_equations. lia.
      + destruct (roundDouble_large _ _ Hb Hp) as [_ Habs].
        change (2 ^ 53)%Z with 9007199254740992%Z in *.
        intros Hmod. Z.div_mod_to_equations. lia.
    - destruct (roundDouble_large _ _ Hbig Hy) as [Heven _].
      apply Z.even_spec in Heven as [k ->].
      intros Hmod. Z.div_mod_to_equations. lia. }
  pose proof (Z.mod_pos_bound y 2147483648). lia.
Qed.

(** The index [shuffle] draws for position [i] is at most [i]: both
    elements it swaps exist. *)
Lemma shuffleIndex_le s i : shuffleIndex (rngNext s).2 i <= i.
Proof.
  unfold shuffleIndex, rngNext, Qnat. simpl.
  pose proof (nextSeed_range s) as Hs.
  set (n := nextSeed s) in *. rewrite Pos.mul_1_r.
  assert (n * Z.of_nat (i + 1) / 2147483647 < Z.of_nat (i + 1))%Z; [|lia].
  apply Z.div_lt_upper_bound; [lia|]. nia.
Qed.

(** * Worked examples *)

(** A plan whose seated ids are pairwise distinct, with distinct non-empty
    table ids, obeys the data model. *)
Lemma planWF_intro plan :
  NoDup (map tableId (tables plan)) ->
  Forall (fun t => tableId t <> EmptyString) (tables plan) ->
  NoDup (seated (tables plan)) ->
  planWF plan.
Proof.
  intros Hids Hne Hnd. split; [exact Hids | exact Hne |].
  intros t1 t2 g Ht1 Ht2 Hg1 Hg2.
  apply list_elem_of_lookup in Ht1 as [i Hi], Ht2 as [j Hj].
  destruct (decide (i = j)) as [->|Hij]; [congruence|].
  destruct (NoDup_seated_tables _ Hnd) as [_ Hcross].
  exfalso. exact (Hcross i j t1 t2 g Hi Hj Hij Hg1 Hg2).
Qed.

(** C1, failing input.  Three guests of one seniority level and one guest
    type at one table: the balance score is -3/8, in the exact reading and
    as the double the code computes (every intermediate value is dyadic),
    and the [balance] metric of the result of [optimize] on these guests is
    that negative double. *)
Lemma balance_score_negative :
  (calculateBalanceScore seniorPlan seniorGuests == - (3 # 8))%Q
  /\ Double.calculateBalanceScore seniorPlan seniorGuests = (-0.375)%float
  /\ Double.balance
       (res_metrics
          (optimize seniorGuests [] equalWeights
             {| tableCount := 1; seatsPerTable := 3;
                maxIterations := None; seed := None |})) = (-0.375)%float
  /\ PrimFloat.ltb
       (Double.balance
          (res_metrics
             (optimize seniorGuests [] equalWeights
                {| tableCount := 1; seatsPerTable := 3;
                   maxIterations := None; seed := None |}))) 0 = true.
Proof. repeat split; vm_compute; reflexivity. Qed.

(** C3, witness: four guests with distinct ids at two tables of two. *)
Lemma optimize_unique_seating_witness :
  NoDup (map g_id tradeGuests)
  /\ NoDup (seated (tables (res_plan
                      (optimize tradeGuests [] equalWeights twoByTwo)))).
Proof.
  assert (H : NoDup (map g_id tradeGuests)) by by_compute.
  split; [exact H|].
  apply (optimize_unique_seating tradeGuests [] equalWeights twoByTwo H).
Defined.

(** C5, counterexample.  Two guests and one table of two are feasible, yet
    a MUST_SIT_TOGETHER constraint naming two ids that are no guests fills
    the table: the plan seats [x] and [y], and neither guest. *)
Lemma optimize_leaves_guests_out :
  feasible (checkFeasibility pairGuests [strangersConstraint] 1 2) = true
  /\ map g_id pairGuests = ["a"; "b"]
  /\ seated (tables (res_plan
               (optimize pairGuests [strangersConstraint] equalWeights oneByTwo)))
     = ["x"; "y"].
Proof. repeat split; vm_compute; reflexivity. Qed.

(** C5, witness: the four trade guests at two tables of two, two of them
    bound to sit together. *)
Lemma optimize_seats_everyone_witness :
  feasible (checkFeasibility tradeGuests [togetherConstraint] 2 2) = true
  /\ exists t,
       t ∈ tables (res_plan (optimize tradeGuests [togetherConstraint]
                               equalWeights twoByTwo))
       /\ "b" ∈ guestIds t.
Proof.
  assert (Hfeas : feasible (checkFeasibility tradeGuests [togetherConstraint]
                              (tableCount twoByTwo) (seatsPerTable twoByTwo)) = true)
    by reflexivity.
  assert (Hrefs : forall c x, c ∈ [togetherConstraint] ->
            c_type c = MUST_SIT_TOGETHER -> x ∈ c_guestIds c ->
            x ∈ map g_id tradeGuests).
  { intros c x Hc _ Hx. apply list_elem_of_singleton in Hc. subst c.
    simpl in Hx. apply elem_of_cons in Hx as [->|Hx]; [by_compute|].
    apply list_elem_of_singleton in Hx. subst x. by_compute. }
  split; [exact Hfeas|].
  apply (optimize_seats_everyone tradeGuests [togetherConstraint] equalWeights
           twoByTwo Hfeas Hrefs (sampleGuest "b" BUYER (Some "X") None)).
  unfold tradeGuests. right. left.
Defined.

(** C6, witness: four guests at three tables of two, an input on which the
    search accepts three steps. *)
Lemma optimize_monotone_witness :
  feasible (checkFeasibility tieGuests [] 3 2) = true
  /\ PrimFloat.leb
       (Double.weighted
          (Double.calculateAllMetrics (initialPlan tieGuests [] 3 2 42) tieGuests
             equalWeights))
       (Double.weighted (res_metrics (optimize tieGuests [] equalWeights threeByTwo)))
     = true.
Proof.
  assert (Hfeas : feasible (checkFeasibility tieGuests [] (tableCount threeByTwo)
                              (seatsPerTable threeByTwo)) = true) by reflexivity.
  split; [exact Hfeas|].
  destruct (optimize_monotone tieGuests [] equalWeights threeByTwo Hfeas)
    as (_ & _ & _ & Hge & _).
  apply Hge. vm_compute. reflexivity.
Defined.

(** Why the search is modelled on doubles.  On [tieGuests] the first turn
    of the loop accepts the swap of [g0] and [g3]: the exact weighted score
    is 73/120 before and after, but the doubles the code compares are
    0.6083333333333333 and 0.6083333333333334.  The run takes four
    iterations and ends at another plan than the initial one, which a
    comparison of exact scores would have returned. *)
Lemma accepted_step_exact_tie :
  initialPlan tieGuests [] 3 2 42
  = {| tables := [ {| tableId := "table_1"; guestIds := ["g0"; "g2"] |};
                   {| tableId := "table_2"; guestIds := ["g3"] |};
                   {| tableId := "table_3"; guestIds := ["g1"] |} ] |}
  /\ searchStep [] tieGuests equalWeights 2 (initialPlan tieGuests [] 3 2 42)
       (Double.calculateAllMetrics (initialPlan tieGuests [] 3 2 42) tieGuests
          equalWeights)
     = Some (swapGuests (initialPlan tieGuests [] 3 2 42) 0 0 1 0,
             Double.calculateAllMetrics
               (swapGuests (initialPlan tieGuests [] 3 2 42) 0 0 1 0) tieGuests
               equalWeights)
  /\ (weighted (calculateAllMetrics (initialPlan tieGuests [] 3 2 42) tieGuests
                  equalWeightsQ)
      == weighted (calculateAllMetrics
                     (swapGuests (initialPlan tieGuests [] 3 2 42) 0 0 1 0)
                     tieGuests equalWeightsQ))%Q
  /\ res_iterations (optimize tieGuests [] equalWeights threeByTwo) = 4
  /\ res_plan (optimize tieGuests [] equalWeights threeByTwo)
     = {| tables := [ {| tableId := "table_1"; guestIds := ["g1"; "g2"] |};
                      {| tableId := "table_2"; guestIds := [] |};
                      {| tableId := "table_3"; guestIds := ["g3"; "g0"] |} ] |}
  /\ Double.weighted (res_metrics (optimize tieGuests [] equalWeights threeByTwo))
     = 0.65%float.
Proof. repeat split; vm_compute; reflexivity. Qed.

(** C8, witness: a group of three at tables of two. *)
Lemma optimize_infeasible_witness :
  feasible (checkFeasibility seniorGuests [trioConstraint] 3 2) = false
  /\ exists r,
       reason (checkFeasibility seniorGuests [trioConstraint] 3 2) = Some r
       /\ optimize seniorGuests [trioConstraint] equalWeights
            {| tableCount := 3; seatsPerTable := 2;
               maxIterations := None; seed := None |}
          = createInfeasibleResult r.
Proof.
  assert (Hinf : feasible (checkFeasibility seniorGuests [trioConstraint] 3 2) = false)
    by reflexivity.
  split; [exact Hinf|].
  destruct (optimize_infeasible seniorGuests [trioConstraint] equalWeights
              {| tableCount := 3; seatsPerTable := 2;
                 maxIterations := None; seed := None |} Hinf)
    as (r & Hr & Hopt & _).
  exists r. split; [exact Hr | exact Hopt].
Defined.

Lemma crowdedPlan_wf : planWF crowdedPlan.
Proof. apply planWF_intro; by_compute. Qed.

(** C9, counterexample.  The plan obeys the data model and both tables
    hold two guests of the constraint; the first table of the plan offends
    ([a] and [b] sit there), yet the one violation names the second table,
    whose guests the constraint lists first. *)
Lemma mustNot_reports_second_table :
  planWF crowdedPlan
  /\ NoDup (c_guestIds apartConstraint)
  /\ tables crowdedPlan !! 0 = Some {| tableId := "table_1"; guestIds := ["a"; "b"] |}
  /\ membersAt apartConstraint {| tableId := "table_1"; guestIds := ["a"; "b"] |}
     = ["a"; "b"]
  /\ violations (validateConstraints crowdedPlan [apartConstraint] [])
     = [ {| v_constraintId := "c9";
            v_constraintType := "MUST_NOT_SIT_TOGETHER";
            v_message := "Guests must not sit together but 2 are at the same table";
            v_tableId := Some "table_2";
            v_guestIds := ["c"; "d"] |} ].
Proof.
  split; [exact crowdedPlan_wf|]. split; [by_compute|].
  repeat split; vm_compute; reflexivity.
Qed.

(** C9, witness: the same plan and constraint. *)
Lemma mustNotSitTogether_validation_witness :
  planWF crowdedPlan
  /\ NoDup (c_guestIds apartConstraint)
  /\ c_type apartConstraint = MUST_NOT_SIT_TOGETHER
  /\ violations (validateConstraints crowdedPlan [apartConstraint] [])
     = flat_map (fun c' => constraintViolations c' (buildGuestToTable (tables crowdedPlan))
                             (buildTableToGuests (tables crowdedPlan)) (buildGuestMap []))
                [apartConstraint].
Proof.
  assert (Hnd : NoDup (c_guestIds apartConstraint)) by by_compute.
  split; [exact crowdedPlan_wf|]. split; [exact Hnd|]. split; [reflexivity|].
  apply (mustNotSitTogether_validation crowdedPlan [apartConstraint] []
           apartConstraint crowdedPlan_wf Hnd eq_refl).
Defined.

(** C10, counterexample.  Three of the four guests at the table share
    company X, the fourth is of company Y: no SAME_COMPANY reason code is
    emitted. *)
Lemma three_share_company_no_reason :
  tableGuestsOf (buildGuestMap companyGuests)
    {| tableId := "table_1"; guestIds := ["a"; "b"; "c"; "d"] |} = companyGuests
  /\ length (List.filter (fun g => bool_decide (g_company g = Some "X")) companyGuests) = 3
  /\ List.filter (hasCode "SAME_COMPANY")
       (reasonCodes (generateExplanations companyPlan companyGuests
                       (Double.calculateAllMetrics companyPlan companyGuests
                          equalWeights) []))
     = [].
Proof. repeat split; vm_compute; reflexivity. Qed.

(** C10, witness: three guests, all of company X, at one table. *)
Lemma same_company_reason_witness :
  {| tableId := "table_1"; guestIds := ["a"; "b"; "c"] |} ∈ tables seniorPlan
  /\ exists r,
       r ∈ reasonCodes (generateExplanations seniorPlan sameCompanyGuests
                          (Double.calculateAllMetrics seniorPlan sameCompanyGuests
                             equalWeights)
                          [])
       /\ rc_code r = "SAME_COMPANY" /\ rc_impact r = negative_impact
       /\ rc_tableId r = "table_1" /\ rc_guestIds r = ["a"; "b"; "c"].
Proof.
  assert (Ht : {| tableId := "table_1"; guestIds := ["a"; "b"; "c"] |}
               ∈ tables seniorPlan) by left.
  split; [exact Ht|].
  apply (proj1 (same_company_reason seniorPlan sameCompanyGuests
                  (Double.calculateAllMetrics seniorPlan sameCompanyGuests
                     equalWeights)
                  [] _ Ht)).
  split; [reflexivity | simpl; lia].
Defined.

(** * Score bounds *)








Section TableMean.
Variables (guestMap : list (string * Guest)) (f : list Guest -> Q).



End TableMean.













(** * The random source *)

(** X5.  [next] returns a value in [0,1): the state never reaches
    [0x7fffffff], though the mask alone would allow it, because the product
    and the sum are rounded to doubles before the mask is applied. *)
Lemma rngNext_unit (s : Z) : (0 <= (rngNext s).2 < 1)%Q.
Proof.
  unfold rngNext. simpl. pose proof (nextSeed_range s) as Hs.
  unfold Qle, Qlt. simpl. lia.
Qed.

(** X6.  [shuffle] returns a permutation of its argument, whatever the
    state of the random source. *)
Lemma shuffle_permutation {T : Type} (rng : Z) (array : list T) :
  (shuffle rng array).1 ≡ₚ array.
Proof. apply shuffleLoop_perm. Qed.

(** * Shared utilities *)

Lemma append_nil_r (s : string) : s +:+ EmptyString = s.
Proof.
  induction s as [|c s IH]; [reflexivity|].
  change (String c s +:+ EmptyString) with (String c (s +:+ EmptyString)).
  rewrite IH. reflexivity.
Qed.

Lemma append_assoc (a b c : string) : (a +:+ b) +:+ c = a +:+ (b +:+ c).
Proof.
  induction a as [|x a IH]; [reflexivity|].
  change (String x ((a +:+ b) +:+ c) = String x (a +:+ (b +:+ c))).
  rewrite IH. reflexivity.
Qed.

(** X7.  [clamp] with a lower bound that does not exceed the upper bound
    returns a value between the two, and returns its argument when that
    lies between them already. *)
Lemma clamp_bounds (value min max : Q) :
  (min <= max)%Q ->
  (min <= clamp value min max <= max)%Q
  /\ ((min <= value <= max)%Q -> (clamp value min max == value)%Q).
Proof.
  intros Hle. unfold clamp. split; [split|].
  - apply Q.min_glb; [apply Q.le_max_r | exact Hle].
  - apply Q.le_min_r.
  - intros [Hlo Hhi]. rewrite (Q.max_l value min Hlo). apply Q.min_l, Hhi.
Qed.

Lemma clamp_bounds_witness :
  (0 <= 1)%Q
  /\ (0 <= clamp 5 0 1 <= 1)%Q
  /\ ((0 <= 5 <= 1)%Q -> (clamp 5 0 1 == 5)%Q).
Proof. split; [lra | apply (clamp_bounds 5 0 1); lra]. Defined.

(** ** The CSV line parser *)

Lemma join_snoc (sep : string) (l : list string) (x y : string) :
  join sep ((l ++ [x]) ++ [y]) = join sep (l ++ [x]) +:+ sep +:+ y.
Proof.
  induction l as [|z l IH]; [reflexivity|].
  change (join sep (((z :: l) ++ [x]) ++ [y]))
    with (join sep (z :: ((l ++ [x]) ++ [y]))).
  change (join sep ((z :: l) ++ [x])) with (join sep (z :: (l ++ [x]))).
  destruct l as [|w l]; simpl in *.
  - rewrite !append_assoc. reflexivity.
  - rewrite IH. rewrite !append_assoc. reflexivity.
Qed.

Lemma join_snoc_char (sep : string) (l : list string) (x : string) (c : ascii) :
  join sep (l ++ [x +:+ String c EmptyString]) = join sep (l ++ [x]) +:+ String c EmptyString.
Proof.
  induction l as [|z l IH]; [reflexivity|].
  change (join sep ((z :: l) ++ [x +:+ String c EmptyString]))
    with (join sep (z :: (l ++ [x +:+ String c EmptyString]))).
  change (join sep ((z :: l) ++ [x])) with (join sep (z :: (l ++ [x]))).
  destruct l as [|w l]; simpl in *.
  - rewrite !append_assoc. reflexivity.
  - rewrite IH. rewrite !append_assoc. reflexivity.
Qed.

Lemma parseCSVLoop_unquoted (line : string) :
  dquoteChar ∉ list_ascii_of_string line ->
  forall result current,
    join "," (parseCSVLoop line result current false)
    = join "," (result ++ [current]) +:+ line
    /\ length (parseCSVLoop line result current false)
       = length result + 1 + countCommas line.
Proof.
  unfold countCommas.
  induction line as [|c rest IH]; intros Hq result current.
  - simpl. rewrite append_nil_r, length_app. simpl. split; [reflexivity | lia].
  - simpl list_ascii_of_string in *. apply not_elem_of_cons in Hq as [Hc Hrest].
    cbn [parseCSVLoop]. rewrite (bool_decide_eq_false_2 _ (not_eq_sym Hc)).
    cbn [negb andb List.filter].
    destruct (bool_decide (c = commaChar)) eqn:Hcomma; cbn [andb].
    + apply bool_decide_eq_true_1 in Hcomma. subst c.
      destruct (IH Hrest (result ++ [current]) EmptyString) as [Hj Hl].
      rewrite Hj, Hl, join_snoc, length_app. simpl length.
      split; [|lia]. rewrite !append_assoc. reflexivity.
    + destruct (IH Hrest result (current +:+ String c EmptyString)) as [Hj Hl].
      rewrite Hj, Hl, join_snoc_char. split; [|lia].
      rewrite append_assoc. reflexivity.
Qed.

(** X10.  On a line without a double quote [parseCSVLine] splits at the
    commas and nowhere else: joining the fields with commas gives the line
    back, and there is one field more than there are commas. *)
Lemma parseCSVLine_unquoted (line : string) :
  dquoteChar ∉ list_ascii_of_string line ->
  join "," (parseCSVLine line) = line
  /\ length (parseCSVLine line) = 1 + countCommas line.
Proof.
  intros Hq. destruct (parseCSVLoop_unquoted line Hq [] EmptyString) as [Hj Hl].
  unfold parseCSVLine. rewrite Hj, Hl. split; reflexivity.
Qed.

Lemma parseCSVLine_unquoted_witness :
  join "," (parseCSVLine "Ada,,Acme Corp") = "Ada,,Acme Corp"
  /\ length (parseCSVLine "Ada,,Acme Corp") = 1 + countCommas "Ada,,Acme Corp".
Proof.
  apply (parseCSVLine_unquoted "Ada,,Acme Corp").
  apply (@bool_decide_unpack _ _). vm_compute. exact I.
Defined.

Lemma parseCSVLoop_escaped (field rest : string) :
  (rest = EmptyString \/ exists r, rest = String commaChar r) ->
  forall result current,
    parseCSVLoop (csvEscape field +:+ dquote +:+ rest) result current true
    = parseCSVLoop rest result (current +:+ field) false.
Proof.
  intros Hrest. induction field as [|c field IH]; intros result current.
  - rewrite append_nil_r.
    change (csvEscape EmptyString +:+ dquote +:+ rest) with (String dquoteChar rest).
    cbn [parseCSVLoop]. rewrite bool_decide_eq_true_2 by reflexivity.
    destruct Hrest as [->|[r ->]]; [reflexivity|].
    rewrite (bool_decide_eq_false_2 (commaChar = dquoteChar)) by discriminate.
    reflexivity.
  - cbn [csvEscape]. destruct (bool_decide (c = dquoteChar)) eqn:Hc.
    + apply bool_decide_eq_true_1 in Hc. subst c.
      change (String dquoteChar (String dquoteChar (csvEscape field)) +:+ dquote +:+ rest)
        with (String dquoteChar (String dquoteChar (csvEscape field +:+ dquote +:+ rest))).
      cbn [parseCSVLoop]. rewrite bool_decide_eq_true_2 by reflexivity.
      cbn [andb]. rewrite IH. rewrite append_assoc. reflexivity.
    + change (String c (csvEscape field) +:+ dquote +:+ rest)
        with (String c (csvEscape field +:+ dquote +:+ rest)).
      cbn [parseCSVLoop]. rewrite Hc. rewrite andb_false_r.
      rewrite IH. rewrite append_assoc. reflexivity.
Qed.

Lemma parseCSVLoop_quoted (field rest : string) :
  (rest = EmptyString \/ exists r, rest = String commaChar r) ->
  forall result current,
    parseCSVLoop (csvQuote field +:+ rest) result current false
    = parseCSVLoop rest result (current +:+ field) false.
Proof.
  intros Hrest result current. unfold csvQuote.
  rewrite <- (parseCSVLoop_escaped field rest Hrest).
  rewrite !append_assoc.
  change (dquote +:+ csvEscape field +:+ dquote +:+ rest)
    with (String dquoteChar (csvEscape field +:+ dquote +:+ rest)).
  cbn [parseCSVLoop]. rewrite bool_decide_eq_true_2 by reflexivity.
  cbn [andb negb].
  destruct (csvEscape field +:+ dquote +:+ rest); reflexivity.
Qed.

Lemma parseCSVLoop_fields (fields : list string) :
  fields <> [] ->
  forall result,
    parseCSVLoop (join "," (map csvQuote fields)) result EmptyString false
    = result ++ fields.
Proof.
  induction fields as [|f fields IH]; intros Hne result; [contradiction|].
  destruct fields as [|f' fields].
  - change (join "," (map csvQuote [f])) with (csvQuote f).
    rewrite <- (append_nil_r (csvQuote f)).
    rewrite parseCSVLoop_quoted by (left; reflexivity). reflexivity.
  - change (join "," (map csvQuote (f :: f' :: fields)))
      with (csvQuote f +:+ String commaChar (join "," (map csvQuote (f' :: fields)))).
    rewrite parseCSVLoop_quoted by (right; eexists; reflexivity).
    cbn [parseCSVLoop].
    rewrite (bool_decide_eq_false_2 (commaChar = dquoteChar)) by discriminate.
    rewrite bool_decide_eq_true_2 by reflexivity. cbn [andb negb].
    rewrite IH by discriminate. rewrite <- app_assoc. reflexivity.
Qed.

(** X11.  [parseCSVLine] reads back quoted fields: for fields of any
    content, commas and double quotes included, each written between double
    quotes with its double quotes doubled and the fields joined with commas,
    it returns the fields. *)
Lemma parseCSVLine_quoted (fields : list string) :
  fields <> [] ->
  parseCSVLine (join "," (map csvQuote fields)) = fields.
Proof. intros Hne. apply (parseCSVLoop_fields fields Hne []). Qed.

Lemma parseCSVLine_quoted_witness :
  parseCSVLine (join "," (map csvQuote ["Lovelace, Ada"; EmptyString; "6" +:+ dquote +:+ " disk"]))
  = ["Lovelace, Ada"; EmptyString; "6" +:+ dquote +:+ " disk"].
Proof.
  apply (parseCSVLine_quoted ["Lovelace, Ada"; EmptyString; "6" +:+ dquote +:+ " disk"]).
  discriminate.
Defined.

(** * The optimize route *)




(** * Score bounds, continued *)










Lemma tableSum_empty (guestMap : list (string * Guest)) (f : list Guest -> Q)
    ts (acc : Q) :
  Forall (fun t => guestIds t = []) ts ->
  foldl (fun (total : Q) t =>
           let tableGuests := tableGuestsOf guestMap t in
           if length tableGuests =? 0 then total
           else (total + f tableGuests)%Q) acc ts = acc.
Proof.
  intros Hall. induction Hall as [|t ts Ht _ IH]; [reflexivity|].
  cbn [foldl]. cbv beta zeta.
  replace (tableGuestsOf guestMap t) with (@nil Guest)
    by (unfold tableGuestsOf; rewrite Ht; reflexivity).
  exact IH.
Qed.

Lemma tablesWithGuests_empty plan :
  Forall (fun t => guestIds t = []) (tables plan) -> tablesWithGuests plan = [].
Proof.
  unfold tablesWithGuests. intros Hall.
  induction Hall as [|t ts Ht _ IH]; [reflexivity|].
  cbn [List.filter]. rewrite Ht. exact IH.
Qed.

(** X15.  A plan that seats nobody (no table, or empty tables only) scores
    1 for novelty, diversity and balance and 1/2 for transaction, whoever
    the guests are. *)
Lemma empty_plan_scores plan guests :
  Forall (fun t => guestIds t = []) (tables plan) ->
  (calculateNoveltyScore plan guests == 1)%Q
  /\ (calculateDiversityScore plan guests == 1)%Q
  /\ (calculateBalanceScore plan guests == 1)%Q
  /\ (calculateTransactionScore plan guests == 1 # 2)%Q.
Proof.
  intros Hall.
  unfold calculateNoveltyScore, calculateDiversityScore, calculateBalanceScore,
    calculateTransactionScore.
  rewrite !tableSum_empty by exact Hall.
  rewrite (tablesWithGuests_empty plan Hall).
  split; [|repeat split; reflexivity].
  assert (Hfold : foldl (fun acc t => scorePairs (tableGuestsOf (buildGuestMap guests) t) acc)
                        (0%Q, 0) (tables plan) = (0%Q, 0)).
  { generalize (0%Q, 0) as acc. induction Hall as [|t ts Ht _ IH]; intros acc;
      [reflexivity|].
    cbn [foldl]. cbv beta.
    replace (tableGuestsOf (buildGuestMap guests) t) with (@nil Guest)
      by (unfold tableGuestsOf; rewrite Ht; reflexivity).
    apply IH. }
  rewrite Hfold. reflexivity.
Qed.

Lemma empty_plan_scores_witness :
  (calculateNoveltyScore {| tables := emptyTables 3 |} tradeGuests == 1)%Q
  /\ (calculateDiversityScore {| tables := emptyTables 3 |} tradeGuests == 1)%Q
  /\ (calculateBalanceScore {| tables := emptyTables 3 |} tradeGuests == 1)%Q
  /\ (calculateTransactionScore {| tables := emptyTables 3 |} tradeGuests == 1 # 2)%Q.
Proof.
  apply (empty_plan_scores {| tables := emptyTables 3 |} tradeGuests).
  repeat constructor.
Defined.

(** * The local search, continued *)

Lemma localSearch_iterations fuel constraints guests weights spt plan metrics iterations :
  let r := localSearch fuel constraints guests weights spt plan metrics iterations in
  iterations <= r.2 <= iterations + fuel
  /\ (0 < fuel -> iterations < r.2)
  /\ (r.2 < iterations + fuel ->
      searchStep constraints guests weights spt r.1.1 r.1.2 = None).
Proof.
  revert plan metrics iterations.
  induction fuel as [|fuel IH]; intros plan metrics iterations; cbn [localSearch].
  - cbn. repeat split; lia.
  - destruct (searchStep constraints guests weights spt plan metrics)
      as [[plan' metrics']|] eqn:Hstep.
    + destruct (IH plan' metrics' (iterations + 1)) as (Hb & _ & Hnone).
      repeat split; try lia. intros Hlt. apply Hnone. lia.
    + cbn. repeat split; try lia. intros _. exact Hstep.
Qed.

(** X16.  [optimize] never reports more iterations than [maxIterations]
    (1000 when the configuration gives none); it reports 0 on an infeasible
    input, and at least 1 on a feasible one when the budget is not 0. *)
Lemma optimize_iterations_bound guests constraints weights config :
  let result := optimize guests constraints weights config in
  let fits := feasible (checkFeasibility guests constraints
                          (tableCount config) (seatsPerTable config)) in
  res_iterations result <= default 1000 (maxIterations config)
  /\ (fits = false -> res_iterations result = 0)
  /\ (fits = true -> 0 < default 1000 (maxIterations config) ->
      0 < res_iterations result).
Proof.
  intros result fits. unfold result, fits.
  destruct (feasible (checkFeasibility guests constraints (tableCount config)
                        (seatsPerTable config))) eqn:Hfeas.
  - destruct (optimize_feasible guests constraints weights config Hfeas)
      as (_ & _ & ->).
    match goal with |- context [localSearch ?f ?c ?g ?w ?s ?p ?m ?i] =>
      destruct (localSearch_iterations f c g w s p m i) as (Hb & Hpos & _) end.
    repeat split; [lia | discriminate | intros _; exact Hpos].
  - destruct (optimize_infeasible_result guests constraints weights config Hfeas)
      as (r & _ & ->).
    repeat split; [cbn; lia | discriminate].
Qed.

Lemma tryPlan_None constraints guests weights metrics newPlan :
  tryPlan constraints guests weights metrics newPlan = None ->
  valid (validateConstraints newPlan constraints guests) = true ->
  PrimFloat.ltb (Double.weighted metrics)
    (Double.weighted (Double.calculateAllMetrics newPlan guests weights)) = false.
Proof.
  unfold tryPlan. intros H Hvalid. rewrite Hvalid in H.
  destruct (PrimFloat.ltb _ _) eqn:Hgt; [discriminate|]. reflexivity.
Qed.

(** The loops of one turn of the local search try every swap and every
    move: when the turn improves nothing, no swap or move passes the
    acceptance test. *)
Lemma searchStep_None constraints guests weights spt plan metrics plan' :
  searchStep constraints guests weights spt plan metrics = None ->
  searchMove spt plan plan' ->
  tryPlan constraints guests weights metrics plan' = None.
Proof.
  unfold searchStep.
  destruct (trySwaps constraints guests weights plan metrics) eqn:Hswap;
    [discriminate|].
  intros Hmove [t1 g1 t2 g2 H12 Ht2 Hg1 Hg2 | t1 g t2 Hne Ht1 Ht2 Hroom Hg].
  - unfold trySwaps in Hswap.
    rewrite firstSome_None in Hswap.
    specialize (Hswap t1 ltac:(apply elem_of_seq_iff; lia)).
    rewrite firstSome_None in Hswap.
    specialize (Hswap t2 ltac:(apply elem_of_seq_iff; lia)).
    rewrite firstSome_None in Hswap.
    specialize (Hswap g1 ltac:(apply elem_of_seq_iff; lia)).
    rewrite firstSome_None in Hswap.
    apply Hswap. apply elem_of_seq_iff. lia.
  - unfold tryMoves in Hmove.
    rewrite firstSome_None in Hmove.
    specialize (Hmove t1 ltac:(apply elem_of_seq_iff; lia)).
    rewrite firstSome_None in Hmove.
    specialize (Hmove t2 ltac:(apply elem_of_seq_iff; lia)).
    cbv beta in Hmove.
    rewrite (proj2 (Nat.eqb_neq t1 t2) Hne) in Hmove.
    rewrite (proj2 (Nat.leb_gt _ _) Hroom) in Hmove.
    rewrite firstSome_None in Hmove.
    apply Hmove. apply elem_of_seq_iff. lia.
Qed.

(** X17.  When [optimize] stops on a feasible input before its budget of
    iterations is used up, the plan it returns is a local optimum of the
    search as the code runs it: no swap of two seats of two tables and no
    move of a guest to a table with a free seat gives a plan that validates
    and whose weighted score, computed in doubles, is strictly higher than
    the returned one by the code's comparison. *)
Lemma optimize_local_optimum guests constraints weights config :
  feasible (checkFeasibility guests constraints
              (tableCount config) (seatsPerTable config)) = true ->
  res_iterations (optimize guests constraints weights config)
  < default 1000 (maxIterations config) ->
  forall plan',
    searchMove (seatsPerTable config)
      (res_plan (optimize guests constraints weights config)) plan' ->
    valid (validateConstraints plan' constraints guests) = true ->
    PrimFloat.ltb
      (Double.weighted (res_metrics (optimize guests constraints weights config)))
      (Double.weighted (Double.calculateAllMetrics plan' guests weights)) = false.
Proof.
  intros Hfeas Hit plan' Hmove Hvalid.
  destruct (optimize_feasible guests constraints weights config Hfeas)
    as (Hplan & Hmetrics & Hiter).
  rewrite Hplan in Hmove. rewrite Hmetrics. rewrite Hiter in Hit.
  match type of Hit with context [localSearch ?f ?c ?g ?w ?s ?p ?m ?i] =>
    destruct (localSearch_iterations f c g w s p m i) as (_ & _ & Hnone) end.
  specialize (Hnone Hit).
  apply (tryPlan_None constraints guests weights _ plan'); [|exact Hvalid].
  eapply searchStep_None; eassumption.
Qed.

Lemma optimize_local_optimum_witness :
  feasible (checkFeasibility tieGuests [] (tableCount threeByTwo)
              (seatsPerTable threeByTwo)) = true
  /\ res_iterations (optimize tieGuests [] equalWeights threeByTwo)
     < default 1000 (maxIterations threeByTwo)
  /\ forall plan',
       searchMove (seatsPerTable threeByTwo)
         (res_plan (optimize tieGuests [] equalWeights threeByTwo)) plan' ->
       valid (validateConstraints plan' [] tieGuests) = true ->
       PrimFloat.ltb
         (Double.weighted (res_metrics (optimize tieGuests [] equalWeights threeByTwo)))
         (Double.weighted (Double.calculateAllMetrics plan' tieGuests equalWeights))
       = false.
Proof.
  assert (Hfeas : feasible (checkFeasibility tieGuests [] (tableCount threeByTwo)
                              (seatsPerTable threeByTwo)) = true)
    by (vm_compute; reflexivity).
  assert (Hit : res_iterations (optimize tieGuests [] equalWeights threeByTwo)
                < default 1000 (maxIterations threeByTwo)) by by_compute.
  split; [exact Hfeas|]. split; [exact Hit|].
  exact (optimize_local_optimum tieGuests [] equalWeights threeByTwo Hfeas Hit).
Defined.

(** * Table ids *)

Lemma showNat_inj (n m : nat) : showNat n = showNat m -> n = m.
Proof.
  unfold showNat. intros H.
  assert (Hnn : forall k, Nat.to_uint k <> Decimal.Nil).
  { intros k. rewrite <- (Unsigned.of_to k) at 1. rewrite Unsigned.to_of.
    apply unorm_nonnil. }
  apply (f_equal NilZero.uint_of_string) in H.
  rewrite !NilZero.usu in H by apply Hnn.
  injection H as H. apply Unsigned.to_uint_inj, H.
Qed.

Lemma emptyTables_ids tc :
  map tableId (emptyTables tc)
  = map (fun i => "table_" +:+ showNat (i + 1)) (seq 0 tc).
Proof. unfold emptyTables. rewrite map_map. reflexivity. Qed.

Lemma NoDup_table_names tc :
  NoDup (map (fun i => "table_" +:+ showNat (i + 1)) (seq 0 tc)).
Proof.
  assert (Hinj : Inj eq eq (fun i => "table_" +:+ showNat (i + 1))).
  { intros i j Hij. apply String.app_inj in Hij. apply showNat_inj in Hij. lia. }
  apply (NoDup_fmap_2 _), NoDup_seq.
Qed.

Lemma tableIds_alter (f : TableAssignment -> TableAssignment) k ts :
  (forall t, tableId (f t) = tableId t) ->
  map tableId (alter f k ts) = map tableId ts.
Proof.
  intros Hf. revert k. induction ts as [|t ts IH]; intros [|k]; try reflexivity.
  - change (alter f 0 (t :: ts)) with (f t :: ts). simpl. rewrite Hf. reflexivity.
  - change (alter f (S k) (t :: ts)) with (t :: alter f k ts). simpl.
    rewrite IH. reflexivity.
Qed.

Lemma tableIds_pushGuest k g ts : map tableId (pushGuest k g ts) = map tableId ts.
Proof. apply tableIds_alter. reflexivity. Qed.

Lemma tableIds_placeGroup spt st c :
  map tableId (placeGroup spt st c).1 = map tableId st.1.
Proof.
  unfold placeGroup. destruct (findIndex _ st.1) as [k|]; [|reflexivity].
  apply (foldl_invariant
           (fun st' : list TableAssignment * list string =>
              map tableId st'.1 = map tableId st.1)); [|reflexivity].
  intros st' gid Hst'. destruct (setHas gid st'.2); [exact Hst'|].
  simpl. rewrite tableIds_pushGuest. exact Hst'.
Qed.

Lemma tableIds_createInitialAssignment guests constraints tc spt rng :
  map tableId (tables (createInitialAssignment guests constraints tc spt rng).1)
  = map tableId (emptyTables tc).
Proof.
  unfold createInitialAssignment. cbn [tables fst].
  apply (foldl_invariant
           (fun st : list TableAssignment * nat =>
              map tableId st.1 = map tableId (emptyTables tc))).
  - intros [ts idx] g Hts.
    destruct (placeGuest_cases constraints tc spt (g_id g) ts idx)
      as [->|(k & t & _ & _ & ->)]; [exact Hts|].
    rewrite tableIds_pushGuest. exact Hts.
  - cbn [fst].
    apply (foldl_invariant
             (fun st : list TableAssignment * list string =>
                map tableId st.1 = map tableId (emptyTables tc))); [|reflexivity].
    intros st c Hst. rewrite tableIds_placeGroup. exact Hst.
Qed.

Lemma tableIds_relocate spt c ti stack ts :
  map tableId (relocate spt c ti stack ts) = map tableId ts.
Proof.
  revert ts. induction stack as [|g [|g' rest] IH]; intros ts; try reflexivity.
  rewrite relocate_step. destruct (findIndex _ ts); rewrite IH; [|reflexivity].
  rewrite tableIds_pushGuest. apply tableIds_alter. reflexivity.
Qed.

Lemma tableIds_repairAssignment plan constraints guests tc spt rng :
  map tableId (tables (repairAssignment plan constraints guests tc spt rng))
  = map tableId (tables plan).
Proof.
  unfold repairAssignment. cbn [tables].
  apply (foldl_invariant (fun ts => map tableId ts = map tableId (tables plan)));
    [|reflexivity].
  intros ts c Hts.
  apply (foldl_invariant (fun ts' => map tableId ts' = map tableId (tables plan)));
    [|exact Hts].
  intros ts' ti Hts'. unfold repairTable. rewrite tableIds_relocate. exact Hts'.
Qed.

Lemma tableIds_searchMove spt plan plan' :
  searchMove spt plan plan' ->
  map tableId (tables plan') = map tableId (tables plan).
Proof.
  intros [t1 g1 t2 g2 _ _ _ _ | t1 g t2 _ _ _ _ _].
  - unfold swapGuests.
    destruct (guestAt (tables plan) t1 g1), (guestAt (tables plan) t2 g2);
      try reflexivity.
    cbn [tables]. unfold setGuestAt.
    rewrite !tableIds_alter by reflexivity. reflexivity.
  - unfold moveGuest. destruct (guestAt (tables plan) t1 g); [|reflexivity].
    cbn [tables]. rewrite tableIds_pushGuest. apply tableIds_alter. reflexivity.
Qed.

Lemma tableIds_initialPlan guests constraints tc spt rng :
  map tableId (tables (initialPlan guests constraints tc spt rng))
  = map tableId (emptyTables tc).
Proof.
  unfold initialPlan. destruct (negb _).
  - rewrite tableIds_repairAssignment. apply tableIds_createInitialAssignment.
  - apply tableIds_createInitialAssignment.
Qed.

(** X18.  On a feasible input the plan [optimize] returns has exactly
    [tableCount] tables, with the ids [table_1] to [table_N] in this order;
    the ids are pairwise distinct. *)
Lemma optimize_table_ids guests constraints weights config :
  feasible (checkFeasibility guests constraints
              (tableCount config) (seatsPerTable config)) = true ->
  let ts := tables (res_plan (optimize guests constraints weights config)) in
  map tableId ts
  = map (fun i => "table_" +:+ showNat (i + 1)) (seq 0 (tableCount config))
  /\ length ts = tableCount config
  /\ NoDup (map tableId ts).
Proof.
  intros Hfeas ts.
  assert (Hids : map tableId ts
                 = map (fun i => "table_" +:+ showNat (i + 1))
                       (seq 0 (tableCount config))).
  { rewrite <- emptyTables_ids. unfold ts.
    pose proof (proj1 (optimize_path guests constraints weights config Hfeas))
      as Hpath.
    eapply (acceptedStep_rtc_invariant _ _ _ _
              (fun p => map tableId (tables p)
                        = map tableId (emptyTables (tableCount config))));
      [|exact Hpath|].
    - intros p p' Hmove Hp. rewrite (tableIds_searchMove _ _ _ Hmove). exact Hp.
    - apply tableIds_initialPlan. }
  split; [exact Hids|]. split.
  - rewrite <- (length_map tableId), Hids, length_map, length_seq. reflexivity.
  - rewrite Hids. apply NoDup_table_names.
Qed.

Lemma optimize_table_ids_witness :
  map tableId (tables (res_plan (optimize tradeGuests [] equalWeights openConfig)))
  = map (fun i => "table_" +:+ showNat (i + 1)) (seq 0 (tableCount openConfig))
  /\ length (tables (res_plan (optimize tradeGuests [] equalWeights openConfig)))
     = tableCount openConfig
  /\ NoDup (map tableId
              (tables (res_plan (optimize tradeGuests [] equalWeights openConfig)))).
Proof.
  apply (optimize_table_ids tradeGuests [] equalWeights openConfig).
  vm_compute. reflexivity.
Defined.

(** * The plan as a partition of the guests *)

(** The initial assignment seats no stranger when the MUST_SIT_TOGETHER
    constraints name supplied guests only. *)
Lemma createInitialAssignment_known guests constraints tc spt rng :
  length guests <= tc * spt ->
  (forall c x, c ∈ constraints -> c_type c = MUST_SIT_TOGETHER ->
               x ∈ c_guestIds c -> x ∈ map g_id guests) ->
  forall x,
    x ∈ seated (tables (createInitialAssignment guests constraints tc spt rng).1) ->
    x ∈ map g_id guests.
Proof.
  intros Hfit Hrefs x. unfold createInitialAssignment. simpl.
  set (grouped := foldl (placeGroup spt) (emptyTables tc, [])
                    (List.filter (isType MUST_SIT_TOGETHER) constraints)).
  destruct (placeGroups_inv spt (List.filter (isType MUST_SIT_TOGETHER) constraints)
              _ (groupInv_empty spt tc)) as [(Hnd & Hperm & Hcap) Hlen].
  fold grouped in Hnd, Hperm, Hcap, Hlen. simpl in Hlen.
  rewrite emptyTables_length in Hlen.
  set (remaining := List.filter (fun g => negb (setHas (g_id g) grouped.2)) guests).
  assert (Hassigned : forall x, x ∈ grouped.2 -> x ∈ map g_id guests).
  { intros y Hy. apply placeGroups_assigned in Hy as [Hy|(c & Hc & Hy)];
      [inversion Hy|].
    apply elem_of_bfilter in Hc as [Hc Hty].
    apply bool_decide_eq_true in Hty. eapply Hrefs; eassumption. }
  pose proof (remaining_count guests grouped.2 Hnd Hassigned) as Hcount.
  fold remaining in Hcount.
  pose proof (shuffle_perm rng remaining) as Hshuffle.
  rewrite placeGuests_all.
  - rewrite Hshuffle, elem_of_app, Hperm. intros [Hx|Hx]; [apply Hassigned, Hx|].
    apply list_elem_of_fmap in Hx as (g & -> & Hg).
    apply elem_of_bfilter in Hg as [Hg _]. apply list_elem_of_fmap_2, Hg.
  - exact Hlen.
  - destruct tc as [|tc]; [right|left; lia].
    assert (Hz : length remaining = 0) by lia.
    destruct remaining; [|discriminate].
    apply Permutation_nil_r, Hshuffle.
  - exact Hcap.
  - rewrite Hperm, Hshuffle. lia.
Qed.

Lemma optimize_seated_initial guests constraints weights config :
  feasible (checkFeasibility guests constraints
              (tableCount config) (seatsPerTable config)) = true ->
  seated (tables (res_plan (optimize guests constraints weights config)))
  ≡ₚ seated (tables (createInitialAssignment guests constraints
                       (tableCount config) (seatsPerTable config)
                       (default 42%Z (seed config))).1).
Proof.
  intros Hfeas.
  pose proof (proj1 (optimize_path guests constraints weights config Hfeas))
    as Hpath.
  rewrite <- initialPlan_seated.
  eapply (acceptedStep_rtc_invariant _ _ _ _
            (fun p => seated (tables p)
                      ≡ₚ seated (tables (initialPlan guests constraints
                                           (tableCount config) (seatsPerTable config)
                                           (default 42%Z (seed config))))));
    [|exact Hpath|reflexivity].
  intros p p' Hmove Hp. rewrite (searchMove_seated _ _ _ Hmove). exact Hp.
Qed.

(** X19.  On a feasible input whose guests have distinct ids and whose
    MUST_SIT_TOGETHER constraints name supplied guests only, the plan
    [optimize] returns is a partition of the guests: the ids seated, read
    table after table, are a rearrangement of the guests' ids. *)
Lemma optimize_partition guests constraints weights config :
  feasible (checkFeasibility guests constraints
              (tableCount config) (seatsPerTable config)) = true ->
  NoDup (map g_id guests) ->
  (forall c x, c ∈ constraints -> c_type c = MUST_SIT_TOGETHER ->
               x ∈ c_guestIds c -> x ∈ map g_id guests) ->
  seated (tables (res_plan (optimize guests constraints weights config)))
  ≡ₚ map g_id guests.
Proof.
  intros Hfeas Hids Hrefs.
  pose proof (proj1 (checkFeasibility_true guests constraints (tableCount config)
                       (seatsPerTable config)) Hfeas) as [Hfit _].
  rewrite (optimize_seated_initial guests constraints weights config Hfeas).
  apply NoDup_Permutation.
  - apply createInitialAssignment_NoDup, Hids.
  - exact Hids.
  - intros x. split.
    + apply createInitialAssignment_known; assumption.
    + intros Hx. apply list_elem_of_fmap in Hx as (g & -> & Hg).
      apply createInitialAssignment_all; assumption.
Qed.


Lemma optimize_partition_witness :
  seated (tables (res_plan (optimize tradeGuests [togetherConstraint]
                              equalWeights twoByTwo)))
  ≡ₚ map g_id tradeGuests.
Proof.
  apply (optimize_partition tradeGuests [togetherConstraint] equalWeights twoByTwo).
  - vm_compute. reflexivity.
  - by_compute.
  - intros c x Hc _ Hx. apply list_elem_of_singleton in Hc. subst c.
    revert x Hx. apply Forall_forall. by_compute.
Defined.

(** * Warnings *)

Lemma elem_of_assignedGuests (ts : list TableAssignment) (acc : list string) x :
  x ∈ foldl (fun s t => foldl (fun s' gid => setAdd gid s') s (guestIds t)) acc ts
  <-> x ∈ acc \/ x ∈ seated ts.
Proof.
  revert acc. induction ts as [|t ts IH]; intros acc; cbn [foldl].
  - unfold seated. simpl. rewrite elem_of_nil. tauto.
  - rewrite IH, elem_of_foldl_setAdd, seated_cons, elem_of_app. tauto.
Qed.

Lemma optimize_warnings guests constraints weights config :
  feasible (checkFeasibility guests constraints
              (tableCount config) (seatsPerTable config)) = true ->
  res_warnings (optimize guests constraints weights config)
  = collectWarnings guests (res_plan (optimize guests constraints weights config)).
Proof.
  intros Hfeas. unfold optimize. rewrite Hfeas. cbn [negb].
  destruct (localSearch _ _ _ _ _ _ _ _) as [[plan metrics] iterations].
  reflexivity.
Qed.

(** X20.  On a feasible input whose MUST_SIT_TOGETHER constraints name
    supplied guests only, [optimize] warns about no unassigned guest: its
    warnings are the missing-company warnings, one for each guest without a
    company, in the order of the guests. *)
Lemma optimize_no_unassigned_warning guests constraints weights config :
  feasible (checkFeasibility guests constraints
              (tableCount config) (seatsPerTable config)) = true ->
  (forall c x, c ∈ constraints -> c_type c = MUST_SIT_TOGETHER ->
               x ∈ c_guestIds c -> x ∈ map g_id guests) ->
  res_warnings (optimize guests constraints weights config)
  = flat_map (fun g =>
                if negb (truthy (g_company g)) then
                  ["Guest " +:+ dquote +:+ g_name g +:+ dquote
                   +:+ " has no company specified"]
                else [])
             guests.
Proof.
  intros Hfeas Hrefs. rewrite (optimize_warnings _ _ _ _ Hfeas).
  unfold collectWarnings.
  set (plan := res_plan (optimize guests constraints weights config)).
  set (assigned := foldl _ [] (tables plan)).
  assert (Hall : forall g, g ∈ guests -> setHas (g_id g) assigned = true).
  { intros g Hg. unfold setHas. apply bool_decide_eq_true_2.
    apply elem_of_assignedGuests. right.
    pose proof (proj1 (checkFeasibility_true guests constraints (tableCount config)
                         (seatsPerTable config)) Hfeas) as [Hfit _].
    unfold plan. rewrite (optimize_seated_initial _ _ _ _ Hfeas).
    apply createInitialAssignment_all; assumption. }
  rewrite <- (app_nil_r (flat_map _ guests)) at 2. f_equal.
  clearbody assigned. clear -Hall.
  induction guests as [|g guests IH]; [reflexivity|].
  cbn [flat_map]. rewrite (Hall g) by left. cbn [negb app].
  apply IH. intros g' Hg'. apply Hall. right. exact Hg'.
Qed.

Lemma optimize_no_unassigned_warning_witness :
  res_warnings (optimize tradeGuests [togetherConstraint] equalWeights twoByTwo)
  = flat_map (fun g =>
                if negb (truthy (g_company g)) then
                  ["Guest " +:+ dquote +:+ g_name g +:+ dquote
                   +:+ " has no company specified"]
                else [])
             tradeGuests.
Proof.
  apply (optimize_no_unassigned_warning tradeGuests [togetherConstraint]
           equalWeights twoByTwo).
  - vm_compute. reflexivity.
  - intros c x Hc _ Hx. apply list_elem_of_singleton in Hc. subst c.
    revert x Hx. apply Forall_forall. by_compute.
Defined.

(** * Constraint validator, continued *)

Lemma mustSitTogether_seen (gids : list string) (gtt : list (string * string)) :
  foldl (fun s gid =>
           let table := mapGet gid gtt in
           if truthy table then setAdd (default EmptyString table) s else s)
        [] gids
  = setOfList (omap (seatKey gtt) gids).
Proof.
  induction gids as [|g l IH] using rev_ind; [reflexivity|].
  rewrite foldl_app, IH, omap_app. cbn [foldl]. cbv beta zeta.
  replace (omap (seatKey gtt) [g])
    with (match seatKey gtt g with Some k => [k] | None => [] end)
    by (destruct (seatKey gtt g) eqn:E; cbn; rewrite E; reflexivity).
  unfold seatKey. destruct (truthy (mapGet g gtt)) eqn:Ht.
  - destruct (mapGet g gtt) as [k|]; [|discriminate].
    rewrite setOfList_snoc. reflexivity.
  - rewrite app_nil_r. reflexivity.
Qed.

Lemma hostTables_seen plan c :
  planWF plan ->
  length (setOfList (omap (seatKey (buildGuestToTable (tables plan))) (c_guestIds c)))
  = length (hostTables c plan).
Proof.
  intros Hwf. rewrite <- (length_map tableId (hostTables c plan)).
  apply Permutation_length, NoDup_Permutation.
  - apply NoDup_setOfList.
  - apply NoDup_map_bfilter, Hwf.
  - intros k. rewrite elem_of_setOfList, list_elem_of_omap, list_elem_of_fmap.
    split.
    + intros (g & Hg & Hkey). apply seatKey_Some in Hkey as [Hget _].
      apply guestToTable_sound in Hget as (t & Ht & Hgt & <-).
      exists t. split; [reflexivity|]. apply elem_of_bfilter. split; [exact Ht|].
      apply existsb_exists. exists g. rewrite <- list_elem_of_In.
      split; [exact Hgt|]. apply bool_decide_eq_true_2, Hg.
    + intros (t & -> & Ht). apply elem_of_bfilter in Ht as [Ht Hex].
      apply existsb_exists in Hex as (g & Hgt & Hg).
      rewrite <- list_elem_of_In in Hgt. apply bool_decide_eq_true in Hg.
      exists g. split; [exact Hg|]. apply seatKey_wf; assumption.
Qed.

Lemma checkMustSitTogether_hosts plan c :
  planWF plan ->
  checkMustSitTogether c (buildGuestToTable (tables plan))
  = if 1 <? length (hostTables c plan) then
      Some {| v_constraintId := c_id c;
              v_constraintType := "MUST_SIT_TOGETHER";
              v_message := "Guests must sit together but are at "
                           +:+ showNat (length (hostTables c plan))
                           +:+ " different tables";
              v_tableId := None;
              v_guestIds := c_guestIds c |}
    else None.
Proof.
  intros Hwf. unfold checkMustSitTogether. cbv zeta.
  rewrite mustSitTogether_seen, (hostTables_seen plan c Hwf). reflexivity.
Qed.

(** X21.  For a plan that obeys the data model, [validateConstraints]
    reports a MUST_SIT_TOGETHER constraint exactly when the guests of the
    constraint that are seated sit at more than one table; the one violation
    then gives the number of tables they sit at, no table id, and all the
    guest ids of the constraint.  Guests of the constraint that are not
    seated are ignored. *)
Lemma mustSitTogether_validation plan guests c :
  planWF plan -> c_type c = MUST_SIT_TOGETHER ->
  let vs := violations (validateConstraints plan [c] guests) in
  (vs = [] <-> length (hostTables c plan) <= 1)
  /\ (1 < length (hostTables c plan) ->
      vs = [ {| v_constraintId := c_id c;
                v_constraintType := "MUST_SIT_TOGETHER";
                v_message := "Guests must sit together but are at "
                             +:+ showNat (length (hostTables c plan))
                             +:+ " different tables";
                v_tableId := None;
                v_guestIds := c_guestIds c |} ]).
Proof.
  intros Hwf Hty vs. unfold vs.
  rewrite validateConstraints_violations. cbn [flat_map]. rewrite app_nil_r.
  unfold constraintViolations. rewrite Hty.
  rewrite (checkMustSitTogether_hosts plan c Hwf).
  destruct (1 <? length (hostTables c plan)) eqn:Hn.
  - apply Nat.ltb_lt in Hn. split; [|reflexivity].
    split; [discriminate | lia].
  - apply Nat.ltb_ge in Hn. split; [|lia]. split; [intros _; exact Hn | reflexivity].
Qed.

Lemma mustSitTogether_validation_witness :
  (violations (validateConstraints splitPlan [pairConstraint] tradeGuests) = []
   <-> length (hostTables pairConstraint splitPlan) <= 1)
  /\ (1 < length (hostTables pairConstraint splitPlan) ->
      violations (validateConstraints splitPlan [pairConstraint] tradeGuests)
      = [ {| v_constraintId := c_id pairConstraint;
             v_constraintType := "MUST_SIT_TOGETHER";
             v_message := "Guests must sit together but are at "
                          +:+ showNat (length (hostTables pairConstraint splitPlan))
                          +:+ " different tables";
             v_tableId := None;
             v_guestIds := c_guestIds pairConstraint |} ]).
Proof.
  apply (mustSitTogether_validation splitPlan tradeGuests pairConstraint).
  - apply planWF_intro; by_compute.
  - reflexivity.
Defined.

Lemma buildTableToGuests_distinct (ts : list TableAssignment) :
  NoDup (map tableId ts) ->
  buildTableToGuests ts = map (fun t => (tableId t, guestIds t)) ts.
Proof.
  induction ts as [|t ts IH] using rev_ind; intros Hnd; [reflexivity|].
  rewrite map_app in Hnd. apply NoDup_app in Hnd as (Hts & Hdisj & _).
  unfold buildTableToGuests in *. rewrite foldl_app. cbn [foldl].
  rewrite (IH Hts), map_app. apply mapSet_fresh.
  rewrite map_map. cbn [fst]. intros Hin. apply (Hdisj _ Hin). left.
Qed.

Lemma violations_per_table {V : Type} (keep : TableAssignment -> bool)
    (mk : TableAssignment -> V) (ts : list TableAssignment) (acc : list V) :
  foldl (fun vs (entry : string * list string) =>
           let (tid, gids) := entry in
           if keep {| tableId := tid; guestIds := gids |}
           then vs ++ [mk {| tableId := tid; guestIds := gids |}] else vs)
        acc (map (fun t => (tableId t, guestIds t)) ts)
  = acc ++ map mk (List.filter keep ts).
Proof.
  revert acc. induction ts as [|[tid gids] ts IH]; intros acc; cbn [map foldl].
  - rewrite app_nil_r. reflexivity.
  - cbn [tableId guestIds List.filter]. rewrite IH.
    destruct (keep {| tableId := tid; guestIds := gids |}); [|reflexivity].
    cbn [map]. rewrite <- app_assoc. reflexivity.
Qed.

Lemma bfilter_nil_iff {A : Type} (p : A -> bool) (l : list A) :
  List.filter p l = [] <-> Forall (fun x => p x = false) l.
Proof.
  induction l as [|x l IH]; cbn [List.filter].
  - split; [constructor | reflexivity].
  - rewrite Forall_cons. destruct (p x).
    + split; [discriminate | intros [H _]; discriminate].
    + rewrite IH. tauto.
Qed.

Lemma map_nil_iff {A B : Type} (f : A -> B) (l : list A) : map f l = [] <-> l = [].
Proof. destruct l; split; intros H; try reflexivity; discriminate. Qed.

Lemma checkMaxSellers_distinct plan guests c :
  NoDup (map tableId (tables plan)) ->
  checkMaxSellersPerTable c (buildTableToGuests (tables plan)) (buildGuestMap guests)
  = map (fun t =>
           {| v_constraintId := c_id c;
              v_constraintType := "MAX_SELLERS_PER_TABLE";
              v_message := "Table has "
                           +:+ showNat (length (idsOfType guests SELLER t))
                           +:+ " sellers, max allowed is "
                           +:+ showZ (default 2%Z (c_value c));
              v_tableId := Some (tableId t);
              v_guestIds := idsOfType guests SELLER t |})
        (List.filter (fun t => (default 2%Z (c_value c)
                                <? Z.of_nat (length (idsOfType guests SELLER t)))%Z)
                     (tables plan)).
Proof.
  intros Hnd. unfold checkMaxSellersPerTable.
  rewrite (buildTableToGuests_distinct _ Hnd).
  apply (violations_per_table
           (fun t => (default 2%Z (c_value c)
                      <? Z.of_nat (length (idsOfType guests SELLER t)))%Z)
           (fun t => {| v_constraintId := c_id c;
                        v_constraintType := "MAX_SELLERS_PER_TABLE";
                        v_message := "Table has "
                                     +:+ showNat (length (idsOfType guests SELLER t))
                                     +:+ " sellers, max allowed is "
                                     +:+ showZ (default 2%Z (c_value c));
                        v_tableId := Some (tableId t);
                        v_guestIds := idsOfType guests SELLER t |})
           (tables plan) []).
Qed.

(** X22.  For a plan with distinct table ids, a MAX_SELLERS_PER_TABLE
    constraint gives one violation for each table that seats more sellers
    than allowed (2 when the constraint carries no value), in the order of
    the plan, naming the table and its sellers; ids without a guest record
    are no sellers.  There is no violation exactly when every table is
    within the limit. *)
Lemma maxSellers_validation plan guests c :
  NoDup (map tableId (tables plan)) -> c_type c = MAX_SELLERS_PER_TABLE ->
  let maxSellers := default 2%Z (c_value c) in
  let sellers := idsOfType guests SELLER in
  let vs := violations (validateConstraints plan [c] guests) in
  vs = map (fun t =>
              {| v_constraintId := c_id c;
                 v_constraintType := "MAX_SELLERS_PER_TABLE";
                 v_message := "Table has " +:+ showNat (length (sellers t))
                              +:+ " sellers, max allowed is " +:+ showZ maxSellers;
                 v_tableId := Some (tableId t);
                 v_guestIds := sellers t |})
           (List.filter (fun t => (maxSellers <? Z.of_nat (length (sellers t)))%Z)
                        (tables plan))
  /\ (vs = [] <->
      Forall (fun t => (Z.of_nat (length (sellers t)) <= maxSellers)%Z) (tables plan)).
Proof.
  intros Hnd Hty maxSellers sellers vs.
  assert (Hvs : vs = checkMaxSellersPerTable c (buildTableToGuests (tables plan))
                       (buildGuestMap guests)).
  { unfold vs. rewrite validateConstraints_violations. cbn [flat_map].
    rewrite app_nil_r. unfold constraintViolations. rewrite Hty. reflexivity. }
  rewrite (checkMaxSellers_distinct plan guests c Hnd) in Hvs.
  split; [exact Hvs|]. rewrite Hvs, map_nil_iff, bfilter_nil_iff.
  apply Forall_iff. intros t. rewrite Z.ltb_ge. reflexivity.
Qed.

Lemma maxSellers_validation_witness :
  violations (validateConstraints splitPlan [oneSellerConstraint] tradeGuests)
  = map (fun t =>
           {| v_constraintId := c_id oneSellerConstraint;
              v_constraintType := "MAX_SELLERS_PER_TABLE";
              v_message := "Table has "
                           +:+ showNat (length (idsOfType tradeGuests SELLER t))
                           +:+ " sellers, max allowed is "
                           +:+ showZ (default 2%Z (c_value oneSellerConstraint));
              v_tableId := Some (tableId t);
              v_guestIds := idsOfType tradeGuests SELLER t |})
        (List.filter (fun t => (default 2%Z (c_value oneSellerConstraint)
                                <? Z.of_nat (length (idsOfType tradeGuests SELLER t)))%Z)
                     (tables splitPlan))
  /\ (violations (validateConstraints splitPlan [oneSellerConstraint] tradeGuests) = []
      <-> Forall (fun t => (Z.of_nat (length (idsOfType tradeGuests SELLER t))
                            <= default 2%Z (c_value oneSellerConstraint))%Z)
                 (tables splitPlan)).
Proof.
  apply (maxSellers_validation splitPlan tradeGuests oneSellerConstraint).
  - by_compute.
  - reflexivity.
Defined.

Lemma minBuyers_per_table {V : Type} (keep : TableAssignment -> bool)
    (mk : TableAssignment -> V) (ts : list TableAssignment) (acc : list V) :
  foldl (fun vs (entry : string * list string) =>
           let (tid, gids) := entry in
           if length gids =? 0 then vs
           else if keep {| tableId := tid; guestIds := gids |}
                then vs ++ [mk {| tableId := tid; guestIds := gids |}] else vs)
        acc (map (fun t => (tableId t, guestIds t)) ts)
  = acc ++ map mk (List.filter (fun t => negb (length (guestIds t) =? 0) && keep t) ts).
Proof.
  revert acc. induction ts as [|[tid gids] ts IH]; intros acc; cbn [map foldl].
  - rewrite app_nil_r. reflexivity.
  - cbn [tableId guestIds List.filter]. rewrite IH.
    destruct (length gids =? 0); cbn [negb andb]; [reflexivity|].
    destruct (keep {| tableId := tid; guestIds := gids |}); [|reflexivity].
    cbn [map]. rewrite <- app_assoc. reflexivity.
Qed.

Lemma checkMinBuyers_distinct plan guests c :
  NoDup (map tableId (tables plan)) ->
  checkMinBuyersPerTable c (buildTableToGuests (tables plan)) (buildGuestMap guests)
  = map (fun t =>
           {| v_constraintId := c_id c;
              v_constraintType := "MIN_BUYERS_PER_TABLE";
              v_message := "Table has "
                           +:+ showNat (length (idsOfType guests BUYER t))
                           +:+ " buyers, minimum required is "
                           +:+ showZ (default 1%Z (c_value c));
              v_tableId := Some (tableId t);
              v_guestIds := idsOfType guests BUYER t |})
        (List.filter (fun t => negb (length (guestIds t) =? 0)
                               && (Z.of_nat (length (idsOfType guests BUYER t))
                                   <? default 1%Z (c_value c))%Z)
                     (tables plan)).
Proof.
  intros Hnd. unfold checkMinBuyersPerTable.
  rewrite (buildTableToGuests_distinct _ Hnd).
  apply (minBuyers_per_table
           (fun t => (Z.of_nat (length (idsOfType guests BUYER t))
                      <? default 1%Z (c_value c))%Z)
           (fun t => {| v_constraintId := c_id c;
                        v_constraintType := "MIN_BUYERS_PER_TABLE";
                        v_message := "Table has "
                                     +:+ showNat (length (idsOfType guests BUYER t))
                                     +:+ " buyers, minimum required is "
                                     +:+ showZ (default 1%Z (c_value c));
                        v_tableId := Some (tableId t);
                        v_guestIds := idsOfType guests BUYER t |})
           (tables plan) []).
Qed.

Lemma minBuyers_none_iff plan guests c :
  List.filter (fun t => negb (length (guestIds t) =? 0)
                        && (Z.of_nat (length (idsOfType guests BUYER t))
                            <? default 1%Z (c_value c))%Z)
              (tables plan) = []
  <-> Forall (fun t => guestIds t <> [] ->
                       (default 1%Z (c_value c)
                        <= Z.of_nat (length (idsOfType guests BUYER t)))%Z)
             (tables plan).
Proof.
  rewrite bfilter_nil_iff.
  apply Forall_iff. intros t. rewrite andb_false_iff, negb_false_iff,
    Nat.eqb_eq, Z.ltb_ge, length_zero_iff_nil.
  split.
  - intros [H|H] Hne; [contradiction | exact H].
  - intros H. destruct (guestIds t) as [|x l]; [left; reflexivity|].
    right. apply H. discriminate.
Qed.

(** X23.  For a plan with distinct table ids, a MIN_BUYERS_PER_TABLE
    constraint gives one violation for each table that seats somebody but
    fewer buyers than required (1 when the constraint carries no value), in
    the order of the plan, naming the table and its buyers; empty tables are
    skipped.  There is no violation exactly when every table that seats
    somebody has the buyers required. *)
Lemma minBuyers_validation plan guests c :
  NoDup (map tableId (tables plan)) -> c_type c = MIN_BUYERS_PER_TABLE ->
  let minBuyers := default 1%Z (c_value c) in
  let buyers := idsOfType guests BUYER in
  let vs := violations (validateConstraints plan [c] guests) in
  vs = map (fun t =>
              {| v_constraintId := c_id c;
                 v_constraintType := "MIN_BUYERS_PER_TABLE";
                 v_message := "Table has " +:+ showNat (length (buyers t))
                              +:+ " buyers, minimum required is " +:+ showZ minBuyers;
                 v_tableId := Some (tableId t);
                 v_guestIds := buyers t |})
           (List.filter (fun t => negb (length (guestIds t) =? 0)
                                  && (Z.of_nat (length (buyers t)) <? minBuyers)%Z)
                        (tables plan))
  /\ (vs = [] <->
      Forall (fun t => guestIds t <> [] ->
                       (minBuyers <= Z.of_nat (length (buyers t)))%Z) (tables plan)).
Proof.
  intros Hnd Hty minBuyers buyers vs.
  assert (Hvs : vs = checkMinBuyersPerTable c (buildTableToGuests (tables plan))
                       (buildGuestMap guests)).
  { unfold vs. rewrite validateConstraints_violations. cbn [flat_map].
    rewrite app_nil_r. unfold constraintViolations. rewrite Hty. reflexivity. }
  rewrite (checkMinBuyers_distinct plan guests c Hnd) in Hvs.
  split; [exact Hvs|]. rewrite Hvs, map_nil_iff. apply minBuyers_none_iff.
Qed.

Lemma minBuyers_validation_witness :
  violations (validateConstraints splitPlan [buyersConstraint] tradeGuests)
  = map (fun t =>
           {| v_constraintId := c_id buyersConstraint;
              v_constraintType := "MIN_BUYERS_PER_TABLE";
              v_message := "Table has "
                           +:+ showNat (length (idsOfType tradeGuests BUYER t))
                           +:+ " buyers, minimum required is "
                           +:+ showZ (default 1%Z (c_value buyersConstraint));
              v_tableId := Some (tableId t);
              v_guestIds := idsOfType tradeGuests BUYER t |})
        (List.filter (fun t => negb (length (guestIds t) =? 0)
                               && (Z.of_nat (length (idsOfType tradeGuests BUYER t))
                                   <? default 1%Z (c_value buyersConstraint))%Z)
                     (tables splitPlan))
  /\ (violations (validateConstraints splitPlan [buyersConstraint] tradeGuests) = []
      <-> Forall (fun t => guestIds t <> [] ->
                           (default 1%Z (c_value buyersConstraint)
                            <= Z.of_nat (length (idsOfType tradeGuests BUYER t)))%Z)
                 (tables splitPlan)).
Proof.
  apply (minBuyers_validation splitPlan tradeGuests buyersConstraint).
  - by_compute.
  - reflexivity.
Defined.

(** * Plan updates, continued *)

Lemma setGuestAt_twice t g x y ts :
  setGuestAt t g x (setGuestAt t g y ts) = setGuestAt t g x ts.
Proof.
  unfold setGuestAt. rewrite list_alter_alter_eq.
  apply list_alter_ext; [|reflexivity].
  intros tb _. cbn. rewrite list_insert_insert_eq. reflexivity.
Qed.

Lemma setGuestAt_same t g x ts :
  guestAt ts t g = Some x -> setGuestAt t g x ts = ts.
Proof.
  unfold guestAt, setGuestAt. intros Hx.
  apply list_eq. intros k. destruct (decide (k = t)) as [->|Hne].
  - rewrite list_lookup_alter_eq. destruct (ts !! t) as [[tid gids]|]; [|reflexivity].
    cbn in *. rewrite (list_insert_id _ _ _ Hx). reflexivity.
  - rewrite list_lookup_alter_ne by congruence. reflexivity.
Qed.

Lemma guestAt_setGuestAt_eq t g x ts :
  g < length (guestIdsAt ts t) -> guestAt (setGuestAt t g x ts) t g = Some x.
Proof.
  unfold guestAt, setGuestAt, guestIdsAt. intros Hg.
  rewrite list_lookup_alter_eq. destruct (ts !! t) as [tb|]; [|cbn in Hg; lia].
  cbn. apply list_lookup_insert_eq. exact Hg.
Qed.

Lemma guestAt_setGuestAt_ne t t' g g' x ts :
  t <> t' -> guestAt (setGuestAt t g x ts) t' g' = guestAt ts t' g'.
Proof.
  intros Hne. unfold guestAt, setGuestAt.
  rewrite list_lookup_alter_ne by exact Hne. reflexivity.
Qed.

Lemma guestAt_in_range ts t g :
  g < length (guestIdsAt ts t) -> exists x, guestAt ts t g = Some x.
Proof.
  unfold guestAt, guestIdsAt. destruct (ts !! t) as [tb|]; [|cbn; lia].
  intros Hg. apply lookup_lt_is_Some_2, Hg.
Qed.

(** X24.  [swapGuests] on two seats of two different tables exchanges the
    guests of the two seats, and applied twice it gives the plan back. *)
Lemma swapGuests_involutive plan t1 g1 t2 g2 :
  t1 <> t2 ->
  g1 < length (guestIdsAt (tables plan) t1) ->
  g2 < length (guestIdsAt (tables plan) t2) ->
  let plan' := swapGuests plan t1 g1 t2 g2 in
  guestAt (tables plan') t1 g1 = guestAt (tables plan) t2 g2
  /\ guestAt (tables plan') t2 g2 = guestAt (tables plan) t1 g1
  /\ swapGuests plan' t1 g1 t2 g2 = plan.
Proof.
  intros Hne Hg1 Hg2 plan'. destruct plan as [ts]. cbn [tables] in *.
  destruct (guestAt_in_range ts t1 g1 Hg1) as [a Ha].
  destruct (guestAt_in_range ts t2 g2 Hg2) as [b Hb].
  assert (Hplan' : plan' = {| tables := setGuestAt t2 g2 a (setGuestAt t1 g1 b ts) |}).
  { unfold plan', swapGuests. cbn [tables]. rewrite Ha, Hb. reflexivity. }
  assert (Hg2' : g2 < length (guestIdsAt (setGuestAt t1 g1 b ts) t2)).
  { unfold guestIdsAt, setGuestAt. rewrite list_lookup_alter_ne by exact Hne.
    exact Hg2. }
  assert (H1 : guestAt (tables plan') t1 g1 = Some b).
  { rewrite Hplan'. cbn [tables].
    rewrite guestAt_setGuestAt_ne by congruence.
    apply guestAt_setGuestAt_eq, Hg1. }
  assert (H2 : guestAt (tables plan') t2 g2 = Some a).
  { rewrite Hplan'. cbn [tables]. apply guestAt_setGuestAt_eq, Hg2'. }
  split; [rewrite H1, Hb; reflexivity|]. split; [rewrite H2, Ha; reflexivity|].
  unfold swapGuests. rewrite H1, H2. rewrite Hplan'. cbn [tables]. f_equal.
  unfold setGuestAt at 2 3.
  rewrite (list_alter_alter_ne _ _ _ t1 t2) by exact Hne.
  fold (setGuestAt t1 g1 b ts).
  fold (setGuestAt t1 g1 a (setGuestAt t1 g1 b ts)).
  fold (setGuestAt t2 g2 a (setGuestAt t1 g1 a (setGuestAt t1 g1 b ts))).
  rewrite setGuestAt_twice, setGuestAt_twice.
  rewrite (setGuestAt_same t1 g1 a ts Ha). apply setGuestAt_same, Hb.
Qed.

Lemma swapGuests_involutive_witness :
  guestAt (tables (swapGuests fullPlan 0 1 1 0)) 0 1 = guestAt (tables fullPlan) 1 0
  /\ guestAt (tables (swapGuests fullPlan 0 1 1 0)) 1 0 = guestAt (tables fullPlan) 0 1
  /\ swapGuests (swapGuests fullPlan 0 1 1 0) 0 1 1 0 = fullPlan.
Proof.
  apply (swapGuests_involutive fullPlan 0 1 1 0); [discriminate | cbn; lia..].
Defined.

(** X25.  A swap or a move the local search proposes seats the same guests
    (the seated ids are rearranged, none is lost or added) at the same
    tables: the table ids and their order are unchanged. *)
Lemma searchMove_preserves spt plan plan' :
  searchMove spt plan plan' ->
  seated (tables plan') ≡ₚ seated (tables plan)
  /\ map tableId (tables plan') = map tableId (tables plan)
  /\ length (tables plan') = length (tables plan).
Proof.
  intros Hmove. split; [apply (searchMove_seated _ _ _ Hmove)|].
  split; [apply (tableIds_searchMove _ _ _ Hmove) | apply (searchMove_length _ _ _ Hmove)].
Qed.

Lemma searchMove_preserves_witness :
  seated (tables (moveGuest splitPlan 0 2 1)) ≡ₚ seated (tables splitPlan)
  /\ map tableId (tables (moveGuest splitPlan 0 2 1)) = map tableId (tables splitPlan)
  /\ length (tables (moveGuest splitPlan 0 2 1)) = length (tables splitPlan).
Proof.
  apply (searchMove_preserves 3 splitPlan (moveGuest splitPlan 0 2 1)).
  apply (sm_move 3 splitPlan 0 2 1); [discriminate | cbn; lia..].
Defined.

(** X26.  [repairAssignment] only relocates guests: the repaired plan seats
    the same guest ids (rearranged) at tables with the same ids in the same
    order, whatever the constraints. *)
Lemma repairAssignment_preserves plan constraints guests tc spt rng :
  let plan' := repairAssignment plan constraints guests tc spt rng in
  seated (tables plan') ≡ₚ seated (tables plan)
  /\ map tableId (tables plan') = map tableId (tables plan)
  /\ length (tables plan') = length (tables plan).
Proof.
  intros plan'. split; [apply repairAssignment_seated|].
  assert (Hids : map tableId (tables plan') = map tableId (tables plan))
    by apply tableIds_repairAssignment.
  split; [exact Hids|]. rewrite <- !(length_map tableId), Hids. reflexivity.
Qed.

(** * Explanations, continued *)

Lemma buildGuestMap_key (guests : list Guest) (gid : string) (g : Guest) :
  mapGet gid (buildGuestMap guests) = Some g -> g_id g = gid /\ g ∈ guests.
Proof.
  induction guests as [|g0 guests IH] using rev_ind; [discriminate|].
  unfold buildGuestMap in *. rewrite foldl_app. cbn [foldl].
  destruct (decide (g_id g0 = gid)) as [<-|Hne].
  - rewrite mapGet_mapSet_eq. intros [= <-]. split; [reflexivity|].
    apply elem_of_app. right. left.
  - rewrite mapGet_mapSet_ne by exact Hne. intros Hget.
    destruct (IH Hget) as [Hid Hin]. split; [exact Hid|].
    apply elem_of_app. left. exact Hin.
Qed.

Lemma tableGuestsOf_ids guests t g :
  g ∈ tableGuestsOf (buildGuestMap guests) t -> g_id g ∈ guestIds t /\ g ∈ guests.
Proof.
  unfold tableGuestsOf. rewrite list_elem_of_omap. intros (gid & Hgid & Hget).
  apply buildGuestMap_key in Hget as [<- Hin]. auto.
Qed.

Lemma ofType_ids guests t ty x :
  x ∈ map g_id (ofType ty (tableGuestsOf (buildGuestMap guests) t)) ->
  x ∈ guestIds t.
Proof.
  intros Hx. apply list_elem_of_fmap in Hx as (g & -> & Hg).
  apply elem_of_bfilter in Hg as [Hg _]. apply (tableGuestsOf_ids guests t g Hg).
Qed.

Lemma tableReasons_refer constraints guests t r :
  r ∈ tableReasons constraints (buildGuestMap guests) t ->
  rc_tableId r = tableId t
  /\ tableGuestsOf (buildGuestMap guests) t <> []
  /\ forall x, x ∈ rc_guestIds r -> x ∈ guestIds t.
Proof.
  unfold tableReasons.
  destruct (length (tableGuestsOf (buildGuestMap guests) t) =? 0) eqn:Hz;
    [intros H; inversion H|].
  apply Nat.eqb_neq in Hz.
  assert (Hne : tableGuestsOf (buildGuestMap guests) t <> [])
    by (intros E; rewrite E in Hz; apply Hz; reflexivity).
  set (tg := tableGuestsOf (buildGuestMap guests) t) in *.
  rewrite !elem_of_app.
  unfold companyReasons, departmentReasons, seniorityReasons, tradeReasons,
    groupedReasons.
  intros [H|[H|[H|[H|H]]]].
  - destruct (1 <? _); [|destruct (_ && _)];
      try (apply list_elem_of_singleton in H; subst r; cbn; auto);
      inversion H.
  - destruct (2 <? _);
      [apply list_elem_of_singleton in H; subst r; cbn; auto | inversion H].
  - destruct (2 <? _);
      [apply list_elem_of_singleton in H; subst r; cbn; auto | inversion H].
  - rewrite !elem_of_app in H. destruct H as [H|[H|H]].
    + destruct (_ && _); [|inversion H].
      apply list_elem_of_singleton in H. subst r. cbn.
      split; [reflexivity|]. split; [exact Hne|].
      intros x Hx. apply elem_of_app in Hx as [Hx|Hx];
        eapply ofType_ids; exact Hx.
    + destruct (0 <? _); [|inversion H].
      apply list_elem_of_singleton in H. subst r. cbn.
      split; [reflexivity|]. split; [exact Hne|].
      intros x Hx. eapply ofType_ids; exact Hx.
    + destruct (_ <? _); [|inversion H].
      apply list_elem_of_singleton in H. subst r. cbn.
      split; [reflexivity|]. split; [exact Hne|].
      intros x Hx. eapply ofType_ids; exact Hx.
  - apply elem_of_flat_map in H as (c & _ & H).
    destruct (isType MUST_SIT_TOGETHER c); [|inversion H].
    destruct (_ =? _); [|inversion H].
    apply list_elem_of_singleton in H. subst r. cbn.
    split; [reflexivity|]. split; [exact Hne|].
    intros x Hx. apply elem_of_bfilter in Hx as [_ Hx].
    apply bool_decide_eq_true in Hx. exact Hx.
Qed.

(** X27.  Every reason code [generateExplanations] emits refers to a table
    of the plan that seats at least one known guest, and names only guest
    ids seated at that table. *)
Lemma reasonCodes_refer plan guests metrics constraints :
  Forall (fun r =>
            exists t, t ∈ tables plan
                      /\ rc_tableId r = tableId t
                      /\ tableGuestsOf (buildGuestMap guests) t <> []
                      /\ forall x, x ∈ rc_guestIds r -> x ∈ guestIds t)
         (reasonCodes (generateExplanations plan guests metrics constraints)).
Proof.
  rewrite generateExplanations_reasonCodes. apply Forall_forall. intros r Hr.
  apply elem_of_flat_map in Hr as (t & Ht & Hr).
  exists t. split; [exact Ht|]. apply (tableReasons_refer constraints guests t r Hr).
Qed.





(** * The random source, continued *)

(** X29.  While the product and the sum of the state update fit in the 53
    bits of a double, [next] makes the exact step of the linear congruential
    generator, [(seed * 1103515245 + 12345) mod 2^31]. *)
Lemma nextSeed_exact (s : Z) :
  (0 <= s)%Z -> (s * 1103515245 + 12345 < 2 ^ 53)%Z ->
  nextSeed s = ((s * 1103515245 + 12345) mod 2 ^ 31)%Z.
Proof.
  intros H0 Hfit. unfold nextSeed.
  rewrite (roundDouble_small (s * 1103515245)) by lia.
  rewrite (roundDouble_small (s * 1103515245 + 12345)) by lia.
  rewrite land_mask31, toInt32_mod31. reflexivity.
Qed.

Lemma nextSeed_exact_witness :
  nextSeed 42 = ((42 * 1103515245 + 12345) mod 2 ^ 31)%Z.
Proof. apply (nextSeed_exact 42); vm_compute; [discriminate | reflexivity]. Defined.

(** * What the [feasible] flag of the result means *)

Lemma two_elements {A : Type} (l : list A) (x y : A) :
  x ∈ l -> y ∈ l -> x <> y -> 1 < length l.
Proof.
  destruct l as [|a [|b l]]; intros Hx Hy Hne; cbn; try lia.
  - inversion Hx.
  - apply list_elem_of_singleton in Hx, Hy. congruence.
Qed.

(** A MUST_NOT_SIT_TOGETHER check that passes leaves no table with two
    guests of the constraint. *)
Lemma checkMustNotSitTogether_sound plan c t :
  planWF plan ->
  checkMustNotSitTogether c (buildGuestToTable (tables plan)) = None ->
  t ∈ tables plan -> ~ holdsTwo c t.
Proof.
  intros Hwf Hnone Ht (x & y & Hxy & Hx & Hy & Hxt & Hyt).
  unfold checkMustNotSitTogether in Hnone.
  rewrite groupByTable_tabulate, firstSome_None in Hnone.
  set (gtt := buildGuestToTable (tables plan)) in *.
  assert (Hkx : seatKey gtt x = Some (tableId t)) by (apply seatKey_wf; assumption).
  assert (Hky : seatKey gtt y = Some (tableId t)) by (apply seatKey_wf; assumption).
  set (group := List.filter (fun g => bool_decide (seatKey gtt g = Some (tableId t)))
                            (c_guestIds c)).
  assert (Hin : (tableId t, group)
                ∈ map (fun k => (k, List.filter
                                      (fun g => bool_decide (seatKey gtt g = Some k))
                                      (c_guestIds c)))
                      (setOfList (omap (seatKey gtt) (c_guestIds c)))).
  { apply list_elem_of_fmap. exists (tableId t). split; [reflexivity|].
    apply elem_of_setOfList, list_elem_of_omap. exists x. auto. }
  specialize (Hnone _ Hin). cbv beta iota in Hnone.
  assert (Hlen : 1 < length group).
  { apply (two_elements group x y); [| |exact Hxy];
      apply elem_of_bfilter; split; try assumption;
      apply bool_decide_eq_true_2; assumption. }
  apply Nat.ltb_lt in Hlen. rewrite Hlen in Hnone. discriminate.
Qed.

Lemma flat_map_nil {A B : Type} (f : A -> list B) (l : list A) :
  flat_map f l = [] -> forall x, x ∈ l -> f x = [].
Proof.
  induction l as [|a l IH]; intros H x Hx; [inversion Hx|].
  cbn [flat_map] in H. apply app_eq_nil in H as [Ha Hl].
  apply elem_of_cons in Hx as [->|Hx]; [exact Ha | apply IH; assumption].
Qed.

Lemma optimize_result_feasible guests constraints weights config :
  res_feasible (optimize guests constraints weights config) = true ->
  feasible (checkFeasibility guests constraints
              (tableCount config) (seatsPerTable config)) = true
  /\ violations (validateConstraints
                   (res_plan (optimize guests constraints weights config))
                   constraints guests) = [].
Proof.
  unfold optimize.
  destruct (feasible (checkFeasibility guests constraints (tableCount config)
                        (seatsPerTable config))) eqn:Hfeas; cbn [negb].
  - destruct (localSearch _ _ _ _ _ _ _ _) as [[plan metrics] iterations].
    cbn [res_feasible res_plan]. intros Hvalid. split; [reflexivity|].
    unfold validateConstraints in *. cbn [valid violations] in *.
    apply Nat.eqb_eq, length_zero_iff_nil in Hvalid. exact Hvalid.
  - discriminate.
Qed.

Lemma optimize_planWF guests constraints weights config :
  feasible (checkFeasibility guests constraints
              (tableCount config) (seatsPerTable config)) = true ->
  NoDup (map g_id guests) ->
  planWF (res_plan (optimize guests constraints weights config)).
Proof.
  intros Hfeas Hids.
  assert (Htids : map tableId (tables (res_plan (optimize guests constraints weights config)))
                  = map (fun i => "table_" +:+ showNat (i + 1))
                        (seq 0 (tableCount config))).
  { rewrite <- emptyTables_ids.
    pose proof (proj1 (optimize_path guests constraints weights config Hfeas))
      as Hpath.
    eapply (acceptedStep_rtc_invariant _ _ _ _
              (fun p => map tableId (tables p)
                        = map tableId (emptyTables (tableCount config))));
      [|exact Hpath|].
    - intros p p' Hmove Hp. rewrite (tableIds_searchMove _ _ _ Hmove). exact Hp.
    - apply tableIds_initialPlan. }
  apply planWF_intro.
  - rewrite Htids. apply NoDup_table_names.
  - apply Forall_forall. intros t Ht Hempty.
    assert (Hin : tableId t
                  ∈ map tableId
                      (tables (res_plan (optimize guests constraints weights config))))
      by (apply list_elem_of_fmap_2, Ht).
    rewrite Htids, Hempty in Hin.
    apply list_elem_of_fmap in Hin as (i & Hi & _). discriminate.
  - rewrite (optimize_seated_initial _ _ _ _ Hfeas).
    apply createInitialAssignment_NoDup, Hids.
Qed.

(** X30.  When the guests have distinct ids and [optimize] reports
    [feasible: true], the plan it returns satisfies every hard constraint:
    the seated guests of a MUST_SIT_TOGETHER constraint share one table, no
    table seats two guests of a MUST_NOT_SIT_TOGETHER constraint, no table
    seats more sellers than a MAX_SELLERS_PER_TABLE constraint allows, and
    every table that seats somebody has the buyers a MIN_BUYERS_PER_TABLE
    constraint requires. *)
Lemma optimize_feasible_sound guests constraints weights config :
  NoDup (map g_id guests) ->
  res_feasible (optimize guests constraints weights config) = true ->
  let plan := res_plan (optimize guests constraints weights config) in
  Forall (fun c =>
            match c_type c with
            | MUST_SIT_TOGETHER => length (hostTables c plan) <= 1
            | MUST_NOT_SIT_TOGETHER =>
                Forall (fun t => ~ holdsTwo c t) (tables plan)
            | MAX_SELLERS_PER_TABLE =>
                Forall (fun t => (Z.of_nat (length (idsOfType guests SELLER t))
                                  <= default 2%Z (c_value c))%Z) (tables plan)
            | MIN_BUYERS_PER_TABLE =>
                Forall (fun t => guestIds t <> [] ->
                                 (default 1%Z (c_value c)
                                  <= Z.of_nat (length (idsOfType guests BUYER t)))%Z)
                       (tables plan)
            end)
         constraints.
Proof.
  intros Hids Hflag plan.
  destruct (optimize_result_feasible _ _ _ _ Hflag) as [Hfeas Hvs].
  pose proof (optimize_planWF guests constraints weights config Hfeas Hids) as Hwf.
  fold plan in Hvs, Hwf.
  rewrite validateConstraints_violations in Hvs.
  apply Forall_forall. intros c Hc.
  pose proof (flat_map_nil _ _ Hvs c Hc) as Hcv.
  unfold constraintViolations in Hcv.
  destruct (c_type c).
  - rewrite (checkMustSitTogether_hosts plan c Hwf) in Hcv.
    destruct (1 <? length (hostTables c plan)) eqn:Hn; [discriminate|].
    apply Nat.ltb_ge, Hn.
  - destruct (checkMustNotSitTogether c (buildGuestToTable (tables plan))) eqn:Hn;
      [discriminate|].
    apply Forall_forall. intros t Ht.
    apply (checkMustNotSitTogether_sound plan c t Hwf Hn Ht).
  - rewrite (checkMaxSellers_distinct plan guests c (wf_ids _ Hwf)) in Hcv.
    apply map_nil_iff, bfilter_nil_iff in Hcv.
    eapply Forall_impl; [exact Hcv|]. intros t Ht. apply Z.ltb_ge, Ht.
  - rewrite (checkMinBuyers_distinct plan guests c (wf_ids _ Hwf)) in Hcv.
    apply map_nil_iff in Hcv. apply minBuyers_none_iff, Hcv.
Qed.

Lemma optimize_feasible_sound_witness :
  let plan := res_plan (optimize tradeGuests hardConstraints equalWeights twoByTwo) in
  Forall (fun c =>
            match c_type c with
            | MUST_SIT_TOGETHER => length (hostTables c plan) <= 1
            | MUST_NOT_SIT_TOGETHER =>
                Forall (fun t => ~ holdsTwo c t) (tables plan)
            | MAX_SELLERS_PER_TABLE =>
                Forall (fun t => (Z.of_nat (length (idsOfType tradeGuests SELLER t))
                                  <= default 2%Z (c_value c))%Z) (tables plan)
            | MIN_BUYERS_PER_TABLE =>
                Forall (fun t => guestIds t <> [] ->
                                 (default 1%Z (c_value c)
                                  <= Z.of_nat (length (idsOfType tradeGuests BUYER t)))%Z)
                       (tables plan)
            end)
         hardConstraints.
Proof.
  apply (optimize_feasible_sound tradeGuests hardConstraints equalWeights twoByTwo).
  - by_compute.
  - vm_compute. reflexivity.
Defined.
